(** * A shallow embedding of the store scheduler and its derived cells

    The development models the scheduler ([scheduler.ts]), the source cell
    ([store.ts]) and the two versions of the derived cell ([derived.ts]) that
    the repository contains, and proves properties of flushing, batching,
    graph registration and recomputation.

    Cells live in an arena and are named by their index: object identity of
    the TypeScript code is index equality here.  Global scheduler variables
    are fields of one [state] record that every operation threads through a
    state-and-exception monad. *)

From stdpp Require Import gmap list.
From Stdlib Require Import ZArith.

Set Warnings "-register-all".

Local Open Scope Z_scope.
Local Open Scope nat_scope.

(** ** Values *)

(** A JavaScript value of the model: an integer, or [undefined] ([None]). *)
Abbreviation value := (option Z).

(** Reading index [i] of a JavaScript array: a hole or an index past the end
    reads as [undefined]. *)
Definition js_get (a : list value) (i : nat) : value := default None (a !! i).

(** [x === y] on values; [x !== y] is its negation. *)
Definition strict_eq (x y : value) : bool :=
  match x, y with
  | Some a, Some b => (a =? b)%Z
  | None, None => true
  | _, _ => false
  end.

(** Two arrays hold the same values. *)
Fixpoint same_values (l1 l2 : list value) : bool :=
  match l1, l2 with
  | [], [] => true
  | x :: l1', y :: l2' => strict_eq x y && same_values l1' l2'
  | _, _ => false
  end.

(** [new Array(l)] *)
Definition new_Array (l : nat) : list value := replicate l None.

(** What a call of user code does: it returns a value or throws. *)
Inductive completion :=
  | Return (v : Z)
  | Throws.

(** The argument of a derived cell's [fn] ([DerivedFnProps]). *)
Record DerivedFnProps := mkProps {
  prevVal : value;
  prevDepVals : option (list value);
  currDepVals : list value
}.

(** The argument of [Store.setState]: a plain value or an updater function. *)
Inductive Updater :=
  | UValue (v : Z)
  | UFn (f : Z → Z).

(** ** Cells *)

(** Which of the two versions of [derived.ts] is run: [Allocating] is the one
    that builds two fresh arrays in every [getDepVals]; [Reusing] is the one
    that keeps [_prevDepValsArray] and [_currDepValsArray] for the lifetime of
    the cell. *)
Inductive impl := Allocating | Reusing.

(** The array an object field points to.  [lastSeenDepValues] is either an
    array of its own or the very array object held in [_currDepValsArray]. *)
Inductive array_ref :=
  | OwnArray (a : list value)
  | SameAsCurrDepValsArray.

(** Modelled from the spec: the memoized computation of the reactive runtime
    ([computed] of alien-signals, which is not code of this repository).  The
    spec gives it as [createComputation(fn)] whose [read()] triggers a
    memoized recomputation when tracked reads are stale: the runtime records
    the values the function read from its dependencies ([tracked]) and the
    value it returned ([cvalue]); a later read runs the function again only
    when one of the tracked reads has a different value. *)
Record computation := mkComputation {
  tracked : list value;
  cvalue : Z
}.

Module Store.
Record t := mk {
  _signal : Z;
  prevState : Z
}.
End Store.

Module Derived.
Record t := mk {
  deps : list nat;
  fn : DerivedFnProps → completion;
  _computed : option computation;
  _cachedState : value;
  _previousResult : value;
  prevState : value;
  _isFirstRun : bool;
  lastSeenDepValues : array_ref;
  _prevDepValsArray : list value;
  _currDepValsArray : list value
}.

Definition set_computed (c : option computation) (d : t) : t :=
  mk (deps d) (fn d) c (_cachedState d) (_previousResult d) (prevState d)
     (_isFirstRun d) (lastSeenDepValues d) (_prevDepValsArray d) (_currDepValsArray d).
Definition set_cachedState (v : value) (d : t) : t :=
  mk (deps d) (fn d) (_computed d) v (_previousResult d) (prevState d)
     (_isFirstRun d) (lastSeenDepValues d) (_prevDepValsArray d) (_currDepValsArray d).
Definition set_previousResult (v : value) (d : t) : t :=
  mk (deps d) (fn d) (_computed d) (_cachedState d) v (prevState d)
     (_isFirstRun d) (lastSeenDepValues d) (_prevDepValsArray d) (_currDepValsArray d).
Definition set_prevState (v : value) (d : t) : t :=
  mk (deps d) (fn d) (_computed d) (_cachedState d) (_previousResult d) v
     (_isFirstRun d) (lastSeenDepValues d) (_prevDepValsArray d) (_currDepValsArray d).
Definition set_isFirstRun (b : bool) (d : t) : t :=
  mk (deps d) (fn d) (_computed d) (_cachedState d) (_previousResult d) (prevState d)
     b (lastSeenDepValues d) (_prevDepValsArray d) (_currDepValsArray d).
Definition set_lastSeenDepValues (r : array_ref) (d : t) : t :=
  mk (deps d) (fn d) (_computed d) (_cachedState d) (_previousResult d) (prevState d)
     (_isFirstRun d) r (_prevDepValsArray d) (_currDepValsArray d).
Definition set_prevDepValsArray (a : list value) (d : t) : t :=
  mk (deps d) (fn d) (_computed d) (_cachedState d) (_previousResult d) (prevState d)
     (_isFirstRun d) (lastSeenDepValues d) a (_currDepValsArray d).
Definition set_currDepValsArray (a : list value) (d : t) : t :=
  mk (deps d) (fn d) (_computed d) (_cachedState d) (_previousResult d) (prevState d)
     (_isFirstRun d) (lastSeenDepValues d) (_prevDepValsArray d) a.

(** The array that the reference [r], held by [d], points to. *)
Definition deref (d : t) (r : array_ref) : list value :=
  match r with
  | OwnArray a => a
  | SameAsCurrDepValsArray => _currDepValsArray d
  end.
End Derived.

(** An object of the arena.  [CUnreachable] is an object whose constructor
    threw: no reference to it exists. *)
Inductive cell :=
  | CStore (s : Store.t)
  | CDerived (d : Derived.t)
  | CUnreachable.

(** ** Observations *)

(** The calls that a run makes, in order: [EvCompute d p] is a call of the
    [fn] of derived cell [d] with argument [p]; [EvRecompute d] is a call of
    [d.recompute()]; [EvOnUpdate d] is the call [this.options.onUpdate?.()]
    that ends [recompute] of [d]. *)
Inductive event :=
  | EvCompute (d : nat) (p : DerivedFnProps)
  | EvRecompute (d : nat)
  | EvOnUpdate (d : nat).

(** ** The scheduler's global variables and the heap *)

Record state := mkState {
  cells : list cell;
  __storeToDerived : gmap nat (list nat);
  __derivedToStore : gmap nat (list nat);
  __depsThatHaveWrittenThisTick : gset nat;
  __isFlushing : bool;
  __batchDepth : nat;
  __pendingUpdates : list nat;
  __initialBatchValues : gmap nat Z;
  __pendingSignalUpdates : list (nat * Updater);
  trace : list event
}.

Definition set_cells (x : list cell) (s : state) : state :=
  mkState x (__storeToDerived s) (__derivedToStore s) (__depsThatHaveWrittenThisTick s)
    (__isFlushing s) (__batchDepth s) (__pendingUpdates s) (__initialBatchValues s)
    (__pendingSignalUpdates s) (trace s).
Definition set_storeToDerived (x : gmap nat (list nat)) (s : state) : state :=
  mkState (cells s) x (__derivedToStore s) (__depsThatHaveWrittenThisTick s)
    (__isFlushing s) (__batchDepth s) (__pendingUpdates s) (__initialBatchValues s)
    (__pendingSignalUpdates s) (trace s).
Definition set_derivedToStore (x : gmap nat (list nat)) (s : state) : state :=
  mkState (cells s) (__storeToDerived s) x (__depsThatHaveWrittenThisTick s)
    (__isFlushing s) (__batchDepth s) (__pendingUpdates s) (__initialBatchValues s)
    (__pendingSignalUpdates s) (trace s).
Definition set_depsThatHaveWrittenThisTick (x : gset nat) (s : state) : state :=
  mkState (cells s) (__storeToDerived s) (__derivedToStore s) x
    (__isFlushing s) (__batchDepth s) (__pendingUpdates s) (__initialBatchValues s)
    (__pendingSignalUpdates s) (trace s).
Definition set_isFlushing (x : bool) (s : state) : state :=
  mkState (cells s) (__storeToDerived s) (__derivedToStore s) (__depsThatHaveWrittenThisTick s)
    x (__batchDepth s) (__pendingUpdates s) (__initialBatchValues s)
    (__pendingSignalUpdates s) (trace s).
Definition set_batchDepth (x : nat) (s : state) : state :=
  mkState (cells s) (__storeToDerived s) (__derivedToStore s) (__depsThatHaveWrittenThisTick s)
    (__isFlushing s) x (__pendingUpdates s) (__initialBatchValues s)
    (__pendingSignalUpdates s) (trace s).
Definition set_pendingUpdates (x : list nat) (s : state) : state :=
  mkState (cells s) (__storeToDerived s) (__derivedToStore s) (__depsThatHaveWrittenThisTick s)
    (__isFlushing s) (__batchDepth s) x (__initialBatchValues s)
    (__pendingSignalUpdates s) (trace s).
Definition set_initialBatchValues (x : gmap nat Z) (s : state) : state :=
  mkState (cells s) (__storeToDerived s) (__derivedToStore s) (__depsThatHaveWrittenThisTick s)
    (__isFlushing s) (__batchDepth s) (__pendingUpdates s) x
    (__pendingSignalUpdates s) (trace s).
Definition set_pendingSignalUpdates (x : list (nat * Updater)) (s : state) : state :=
  mkState (cells s) (__storeToDerived s) (__derivedToStore s) (__depsThatHaveWrittenThisTick s)
    (__isFlushing s) (__batchDepth s) (__pendingUpdates s) (__initialBatchValues s)
    x (trace s).
Definition set_trace (x : list event) (s : state) : state :=
  mkState (cells s) (__storeToDerived s) (__derivedToStore s) (__depsThatHaveWrittenThisTick s)
    (__isFlushing s) (__batchDepth s) (__pendingUpdates s) (__initialBatchValues s)
    (__pendingSignalUpdates s) x.

(** The state of a freshly loaded module. *)
Definition initial : state :=
  mkState [] ∅ ∅ ∅ false 0 [] ∅ [] [].

(** ** The monad: state, exceptions, and the fuel of the model *)

(** How a call ends.  [OutOfFuel] is not a behaviour of the program: it marks
    a run of the model whose recursion budget was too small. *)
Inductive outcome (A : Type) :=
  | Ok (a : A)
  | Throw
  | OutOfFuel.
Arguments Ok {A} a.
Arguments Throw {A}.
Arguments OutOfFuel {A}.

Definition M (A : Type) : Type := state → outcome A * state.

Definition ret {A} (a : A) : M A := fun s => (Ok a, s).
Definition bind {A B} (m : M A) (k : A → M B) : M B :=
  fun s =>
    match m s with
    | (Ok a, s') => k a s'
    | (Throw, s') => (Throw, s')
    | (OutOfFuel, s') => (OutOfFuel, s')
    end.
Definition throw {A} : M A := fun s => (Throw, s).
Definition out_of_fuel {A} : M A := fun s => (OutOfFuel, s).
Definition get : M state := fun s => (Ok s, s).
Definition modify (f : state → state) : M unit := fun s => (Ok tt, f s).

Notation "'let*' x := m 'in' k" := (bind m (fun x => k))
  (at level 10, x pattern, m at level 100, k at level 200).
Notation "m >> k" := (bind m (fun _ => k))
  (at level 100, k at level 200, right associativity).

(** [try { body } finally { fin }]: [fin] runs however [body] ends; the way
    [body] ended is the way the statement ends unless [fin] itself throws. *)
Definition try_finally {A} (body : M A) (fin : M unit) : M A :=
  fun s =>
    let '(r, s1) := body s in
    match fin s1 with
    | (Ok _, s2) => (r, s2)
    | (Throw, s2) => (Throw, s2)
    | (OutOfFuel, s2) => (OutOfFuel, s2)
    end.

(** Run [m]; if it throws, [cleanup] the state before the exception goes
    on. *)
Definition on_throw {A} (m : M A) (cleanup : state → state) : M A :=
  fun s =>
    match m s with
    | (Throw, s') => (Throw, cleanup s')
    | rs => rs
    end.

(** [for (const x of l) body(x)] *)
Definition for_of {A} (l : list A) (body : A → M unit) : M unit :=
  (fix loop (l : list A) : M unit :=
     match l with
     | [] => ret tt
     | x :: l' => body x >> loop l'
     end) l.

(** Evaluate [f] on each element in order and collect the results. *)
Fixpoint map_M {A B} (f : A → M B) (l : list A) : M (list B) :=
  match l with
  | [] => ret []
  | x :: l' => let* y := f x in let* ys := map_M f l' in ret (y :: ys)
  end.

Definition emit (e : event) : M unit :=
  modify (fun s => set_trace (trace s ++ [e]) s).

(** ** Heap access *)

Definition set_cell (i : nat) (c : cell) : M unit :=
  modify (fun s => set_cells (<[i:=c]> (cells s)) s).

(** Field access on a reference that must be a [Derived]; anything else is a
    [TypeError]. *)
Definition get_derived (i : nat) : M Derived.t :=
  let* s := get in
  match cells s !! i with
  | Some (CDerived d) => ret d
  | _ => throw
  end.

Definition get_store (i : nat) : M Store.t :=
  let* s := get in
  match cells s !! i with
  | Some (CStore st) => ret st
  | _ => throw
  end.

Definition update_derived (i : nat) (f : Derived.t → Derived.t) : M unit :=
  let* d := get_derived i in set_cell i (CDerived (f d)).

Definition update_store (i : nat) (f : Store.t → Store.t) : M unit :=
  let* st := get_store i in set_cell i (CStore (f st)).

(** [x.prevState] for a cell of either class. *)
Definition get_prevState (i : nat) : M value :=
  let* s := get in
  match cells s !! i with
  | Some (CStore st) => ret (Some (Store.prevState st))
  | Some (CDerived d) => ret (Derived.prevState d)
  | _ => throw
  end.

(** ** Arrays, sets and maps of the JavaScript library *)

(** [Array.prototype.includes] on an array of cells. *)
Fixpoint includes (l : list nat) (x : nat) : bool :=
  match l with
  | [] => false
  | y :: l' => if y =? x then true else includes l' x
  end.

(** [Array.prototype.indexOf]: the first index of [x], or [-1]. *)
Fixpoint indexOf_from (i : nat) (l : list nat) (x : nat) : Z :=
  match l with
  | [] => (-1)%Z
  | y :: l' => if y =? x then Z.of_nat i else indexOf_from (S i) l' x
  end.
Definition indexOf (l : list nat) (x : nat) : Z := indexOf_from 0 l x.

(** [Array.prototype.splice(start, deleteCount)] with no inserted items: a
    negative [start] counts from the end of the array. *)
Definition splice (l : list nat) (start : Z) (deleteCount : nat) : list nat :=
  let len := length l in
  let actualStart :=
    if (start <? 0)%Z then Z.to_nat (Z.max (Z.of_nat len + start) 0)
    else Nat.min (Z.to_nat start) len in
  take actualStart l ++ drop (actualStart + deleteCount) l.

(** [Set.prototype.add] and [Set.prototype.delete] on a set that is iterated
    in insertion order. *)
Definition Set_add (x : nat) (l : list nat) : list nat :=
  if includes l x then l else l ++ [x].
Fixpoint Set_delete (x : nat) (l : list nat) : list nat :=
  match l with
  | [] => []
  | y :: l' => if y =? x then Set_delete x l' else y :: Set_delete x l'
  end.

(** [Map.prototype.has] and [WeakMap.prototype.has]. *)
Definition Map_has {A} (m : gmap nat A) (k : nat) : bool :=
  match m !! k with
  | Some _ => true
  | None => false
  end.

(** [Set.prototype.has] *)
Definition Set_has (X : gset nat) (x : nat) : bool := bool_decide (x ∈ X).

(** [Map.prototype.set] on a map that is iterated in insertion order: a key
    that is present keeps its place and takes the new value. *)
Fixpoint Map_set {A} (k : nat) (v : A) (m : list (nat * A)) : list (nat * A) :=
  match m with
  | [] => [(k, v)]
  | (k', v') :: m' => if k' =? k then (k, v) :: m' else (k', v') :: Map_set k v m'
  end.

(** [Array.prototype.sort(cmp)], as a stable insertion sort: each element is
    moved left past the elements that compare greater than it.  For a
    comparator that is a consistent ordering every conforming sort returns
    the same array. *)
Fixpoint sort_insert (cmp : nat → nat → Z) (x : nat) (rev_prefix : list nat) : list nat :=
  match rev_prefix with
  | [] => [x]
  | y :: rest =>
      if (0 <? cmp y x)%Z then y :: sort_insert cmp x rest
      else x :: y :: rest
  end.
Definition sort (cmp : nat → nat → Z) (l : list nat) : list nat :=
  rev (foldl (fun rev_prefix x => sort_insert cmp x rev_prefix) [] l).

(** Evaluate [f] on an accumulator and each element in order. *)
Fixpoint fold_M {A B} (f : B → A → M B) (b : B) (l : list A) : M B :=
  match l with
  | [] => ret b
  | x :: l' => let* b' := f b x in fold_M f b' l'
  end.

(** The recursion budget that the entry points give to the traversals of the
    dependency graph: no chain of distinct cells is longer. *)
Definition depth (s : state) : nat := 2 + length (cells s).

(** ** The derived cell ([derived.ts]) *)

Section derived.
(** The version of [derived.ts] under study. *)
Variable version : impl.

Section callback.
(** The runtime's read of the computation of a derived cell,
    [this._computed()]. *)
Variable _computed_read : nat → M Z.

(** [x.state] for a cell of either class. *)
Definition get_state (i : nat) : M Z :=
  let* s := get in
  match cells s !! i with
  | Some (CStore st) => ret (Store._signal st)
  | Some (CDerived _) =>
      match version with
      | Allocating =>
          let* r := _computed_read i in
          update_derived i (Derived.set_cachedState (Some r)) >>
          ret r
      | Reusing => _computed_read i
      end
  | _ => throw
  end.

(** The loop of [getDepVals] that fills two local arrays. *)
Fixpoint getDepVals_fresh (ds : list nat) (i : nat) (prevDepVals currDepVals : list value)
  : M (list value * list value) :=
  match ds with
  | [] => ret (prevDepVals, currDepVals)
  | dep :: ds' =>
      let* p := get_prevState dep in
      let prevDepVals := <[i:=p]> prevDepVals in
      let* c := get_state dep in
      let currDepVals := <[i:=Some c]> currDepVals in
      getDepVals_fresh ds' (S i) prevDepVals currDepVals
  end.

(** The loop of [getDepVals] that writes into the two arrays the cell
    keeps. *)
Fixpoint getDepVals_reuse (this : nat) (ds : list nat) (i : nat) : M unit :=
  match ds with
  | [] => ret tt
  | dep :: ds' =>
      let* p := get_prevState dep in
      update_derived this (fun d =>
        Derived.set_prevDepValsArray (<[i:=p]> (Derived._prevDepValsArray d)) d) >>
      let* c := get_state dep in
      update_derived this (fun d =>
        Derived.set_currDepValsArray (<[i:=Some c]> (Derived._currDepValsArray d)) d) >>
      getDepVals_reuse this ds' (S i)
  end.

Definition getDepVals (this : nat) : M DerivedFnProps :=
  match version with
  | Allocating =>
      let* d := get_derived this in
      let l := length (Derived.deps d) in
      let* (prevDepVals, currDepVals) :=
        getDepVals_fresh (Derived.deps d) 0 (new_Array l) (new_Array l) in
      update_derived this (Derived.set_lastSeenDepValues (OwnArray currDepVals)) >>
      let* d := get_derived this in
      ret {| prevDepVals := if Derived._isFirstRun d then None else Some prevDepVals;
             currDepVals := currDepVals;
             prevVal := Derived.prevState d |}
  | Reusing =>
      let* d := get_derived this in
      getDepVals_reuse this (Derived.deps d) 0 >>
      update_derived this (Derived.set_lastSeenDepValues SameAsCurrDepValsArray) >>
      let* d := get_derived this in
      ret {| prevDepVals :=
               if Derived._isFirstRun d then None else Some (Derived._prevDepValsArray d);
             currDepVals := Derived._currDepValsArray d;
             prevVal := Derived._previousResult d |}
  end.

(** [options.fn(depVals)] *)
Definition call_fn (this : nat) (depVals : DerivedFnProps) : M Z :=
  let* d := get_derived this in
  emit (EvCompute this depVals) >>
  match Derived.fn d depVals with
  | Return r => ret r
  | Throws => throw
  end.

(** The function given to [computed] in the constructor.  Beside its
    result it reports the values it read from the dependencies, which the
    runtime tracks. *)
Definition computed_callback (this : nat) : M (list value * Z) :=
  match version with
  | Allocating =>
      let* depVals := getDepVals this in
      let* result := call_fn this depVals in
      update_derived this (Derived.set_isFirstRun false) >>
      ret (currDepVals depVals, result)
  | Reusing =>
      update_derived this (fun d => Derived.set_prevState (Derived._cachedState d) d) >>
      let* depVals := getDepVals this in
      let* result := call_fn this depVals in
      update_derived this (Derived.set_isFirstRun false) >>
      update_derived this (Derived.set_cachedState (Some result)) >>
      update_derived this (Derived.set_previousResult (Some result)) >>
      ret (currDepVals depVals, result)
  end.
End callback.

(** The runtime's read of a dependency while it decides whether a
    computation is stale. *)
Definition tracked_read (_computed_read : nat → M Z) (i : nat) : M Z :=
  let* s := get in
  match cells s !! i with
  | Some (CStore st) => ret (Store._signal st)
  | Some (CDerived _) => _computed_read i
  | _ => throw
  end.

(** Modelled from the spec: [this._computed()], the read of a memoized
    computation of the reactive runtime (alien-signals, not code of this
    repository).  The first read runs the function.  A later read brings
    the tracked dependencies up to date, and runs the function again only
    if one of them has another value than the one the last run read;
    otherwise it returns the remembered value.  A run that throws leaves
    the remembered value as it was. *)
Fixpoint _computed_read (fuel : nat) (this : nat) : M Z :=
  match fuel with
  | 0 => out_of_fuel
  | S fuel' =>
      let run :=
        let* (reads, result) := computed_callback (_computed_read fuel') this in
        update_derived this (Derived.set_computed (Some (mkComputation reads result))) >>
        ret result in
      let* d := get_derived this in
      match Derived._computed d with
      | None => run
      | Some c =>
          let* now := map_M (tracked_read (_computed_read fuel')) (Derived.deps d) in
          if same_values (Some <$> now) (tracked c) then ret (cvalue c) else run
      end
  end.

(** [this._computed()] at an entry point. *)
Definition _computed (this : nat) : M Z :=
  let* s := get in _computed_read (depth s) this.

(** [x.state] at an entry point. *)
Definition state_of (i : nat) : M Z :=
  let* s := get in get_state (_computed_read (depth s)) i.

(** [recompute()] *)
Definition recompute (this : nat) : M unit :=
  match version with
  | Allocating =>
      emit (EvRecompute this) >>
      update_derived this (fun d => Derived.set_prevState (Derived._cachedState d) d) >>
      let* r := _computed this in
      update_derived this (Derived.set_cachedState (Some r)) >>
      emit (EvOnUpdate this)
  | Reusing =>
      emit (EvRecompute this) >>
      _computed this >>
      emit (EvOnUpdate this)
  end.

(** The comparison loop of [checkIfRecalculationNeededDeeply], from index
    [i] for [n] more indices: it stops at the first difference. *)
Fixpoint shouldRecompute (currDepVals lastSeenDepValues : list value) (i n : nat) : bool :=
  match n with
  | 0 => false
  | S n' =>
      if negb (strict_eq (js_get currDepVals i) (js_get lastSeenDepValues i)) then true
      else shouldRecompute currDepVals lastSeenDepValues (S i) n'
  end.

(** [checkIfRecalculationNeededDeeply()].  The local [lastSeenDepValues] is
    a reference: the comparison loop reads the array it points to after
    [getDepVals] has run. *)
Fixpoint checkIfRecalculationNeededDeeply_rec (fuel : nat) (this : nat) : M unit :=
  match fuel with
  | 0 => out_of_fuel
  | S fuel' =>
      let* d := get_derived this in
      for_of (Derived.deps d) (fun dep =>
        let* s := get in
        match cells s !! dep with
        | Some (CDerived _) => checkIfRecalculationNeededDeeply_rec fuel' dep
        | _ => ret tt
        end) >>
      let* d := get_derived this in
      let lastSeenDepValues := Derived.lastSeenDepValues d in
      let* s := get in
      let* depVals := getDepVals (_computed_read (depth s)) this in
      let* d := get_derived this in
      if shouldRecompute (currDepVals depVals) (Derived.deref d lastSeenDepValues)
           0 (length (currDepVals depVals))
      then recompute this
      else ret tt
  end.

Definition checkIfRecalculationNeededDeeply (this : nat) : M unit :=
  let* s := get in checkIfRecalculationNeededDeeply_rec (depth s) this.

(** The comparator of the sort in [registerOnGraph]. *)
Definition compare_deps (s : state) (a b : nat) : Z :=
  let lists (x y : nat) : bool :=
    match cells s !! x with
    | Some (CDerived dx) => includes (Derived.deps dx) y
    | _ => false
    end in
  if lists a b then 1%Z
  else if lists b a then (-1)%Z
  else 0%Z.

(** The body of the loop of [registerOnGraph] for a dependency that is a
    [Store]; [toSort] names an array by the store whose list it is. *)
Definition register_under (this dep : nat) (toSort : list nat) : M (list nat) :=
  let* s := get in
  let* toSort :=
    match __storeToDerived s !! dep with
    | None =>
        modify (fun s => set_storeToDerived (<[dep:=[this]]> (__storeToDerived s)) s) >>
        ret toSort
    | Some relatedLinkedDerivedVals =>
        if includes relatedLinkedDerivedVals this then ret toSort
        else
          modify (fun s =>
            set_storeToDerived (<[dep:=relatedLinkedDerivedVals ++ [this]]> (__storeToDerived s)) s) >>
          ret (Set_add dep toSort)
    end in
  let* s := get in
  let relatedStores := default [] (__derivedToStore s !! this) in
  modify (fun s => set_derivedToStore (<[this:=Set_add dep relatedStores]> (__derivedToStore s)) s) >>
  ret toSort.

(** [registerOnGraph(deps)] *)
Fixpoint registerOnGraph_rec (fuel : nat) (this : nat) (deps : list nat) : M unit :=
  match fuel with
  | 0 => out_of_fuel
  | S fuel' =>
      let* toSort :=
        fold_M (fun toSort dep =>
          let* s := get in
          match cells s !! dep with
          | Some (CDerived dd) =>
              registerOnGraph_rec fuel' dep (Derived.deps dd) >>
              registerOnGraph_rec fuel' this (Derived.deps dd) >>
              ret toSort
          | Some (CStore _) => register_under this dep toSort
          | _ => ret toSort
          end) [] deps in
      for_of toSort (fun st =>
        modify (fun s =>
          match __storeToDerived s !! st with
          | Some arr => set_storeToDerived (<[st:=sort (compare_deps s) arr]> (__storeToDerived s)) s
          | None => s
          end))
  end.

Definition registerOnGraph (this : nat) : M unit :=
  let* s := get in
  let* d := get_derived this in
  registerOnGraph_rec (depth s) this (Derived.deps d).

(** The body of the loop of [unregisterFromGraph] for a dependency that is
    a [Store]. *)
Definition unregister_under (this dep : nat) : M unit :=
  let* s := get in
  match __storeToDerived s !! dep with
  | Some relatedLinkedDerivedVals =>
      modify (fun s =>
        set_storeToDerived
          (<[dep:=splice relatedLinkedDerivedVals (indexOf relatedLinkedDerivedVals this) 1]>
             (__storeToDerived s)) s)
  | None => ret tt
  end >>
  let* s := get in
  match __derivedToStore s !! this with
  | Some relatedStores =>
      modify (fun s => set_derivedToStore (<[this:=Set_delete dep relatedStores]> (__derivedToStore s)) s)
  | None => ret tt
  end.

(** [unregisterFromGraph(deps)] *)
Fixpoint unregisterFromGraph_rec (fuel : nat) (this : nat) (deps : list nat) : M unit :=
  match fuel with
  | 0 => out_of_fuel
  | S fuel' =>
      for_of deps (fun dep =>
        let* s := get in
        match cells s !! dep with
        | Some (CDerived dd) => unregisterFromGraph_rec fuel' this (Derived.deps dd)
        | Some (CStore _) => unregister_under this dep
        | _ => ret tt
        end)
  end.

Definition unregisterFromGraph (this : nat) : M unit :=
  let* s := get in
  let* d := get_derived this in
  unregisterFromGraph_rec (depth s) this (Derived.deps d).

(** [mount()]; the function it returns is [unmount]. *)
Definition mount (this : nat) : M unit :=
  registerOnGraph this >> checkIfRecalculationNeededDeeply this.

(** The function returned by [mount()]; the cell has no subscriptions to
    clean up. *)
Definition unmount (this : nat) : M unit :=
  unregisterFromGraph this.

(** ** The scheduler ([scheduler.ts]) *)

Definition getBatchDepth : M nat :=
  let* s := get in ret (__batchDepth s).

(** Listener notification is a no-op in the source. *)
Definition __notifyListeners (_store : nat) : M unit := ret tt.
Definition __notifyDerivedListeners (_derived : nat) : M unit := ret tt.

(** [__flush_internals(relatedVals)].  Nothing changes the arrays of
    [__storeToDerived] while they are iterated, so an array is passed as
    the list of its elements. *)
Fixpoint __flush_internals (fuel : nat) (relatedVals : list nat) : M unit :=
  match fuel with
  | 0 => out_of_fuel
  | S fuel' =>
      for_of relatedVals (fun derived =>
        let* s := get in
        if Set_has (__depsThatHaveWrittenThisTick s) derived then ret tt
        else
          modify (fun s =>
            set_depsThatHaveWrittenThisTick ({[derived]} ∪ __depsThatHaveWrittenThisTick s) s) >>
          recompute derived >>
          __notifyDerivedListeners derived >>
          let* s := get in
          match __derivedToStore s !! derived with
          | Some stores =>
              for_of stores (fun store =>
                let* s := get in
                match __storeToDerived s !! store with
                | Some (d0 :: ds) => __flush_internals fuel' (d0 :: ds)
                | _ => ret tt
                end)
          | None => ret tt
          end)
  end.

(** The [while (__pendingUpdates.size > 0)] loop of [__flush]. *)
Fixpoint __flush_loop (fuel : nat) : M unit :=
  match fuel with
  | 0 => out_of_fuel
  | S fuel' =>
      let* s := get in
      match __pendingUpdates s with
      | [] => ret tt
      | stores =>
          modify (set_pendingUpdates []) >>
          for_of stores (fun store =>
            let* s := get in
            let* st := get_store store in
            let prevState :=
              default (Store.prevState st) (__initialBatchValues s !! store) in
            set_cell store (CStore (Store.mk (Store._signal st) prevState)) >>
            __notifyListeners store) >>
          for_of stores (fun store =>
            let* s := get in
            match __storeToDerived s !! store with
            | None => ret tt
            | Some derivedVals =>
                modify (fun s =>
                  set_depsThatHaveWrittenThisTick ({[store]} ∪ __depsThatHaveWrittenThisTick s) s) >>
                let* s := get in
                __flush_internals (depth s) derivedVals
            end) >>
          __flush_loop fuel'
      end
  end.

(** [__flush(store)] *)
Definition __flush (store : nat) : M unit :=
  let* s := get in
  (if (0 <? __batchDepth s) && negb (Map_has (__initialBatchValues s) store) then
     let* st := get_store store in
     modify (fun s =>
       set_initialBatchValues (<[store:=Store.prevState st]> (__initialBatchValues s)) s)
   else ret tt) >>
  modify (fun s => set_pendingUpdates (Set_add store (__pendingUpdates s)) s) >>
  let* s := get in
  if 0 <? __batchDepth s then ret tt
  else if __isFlushing s then ret tt
  else
    try_finally
      (modify (set_isFlushing true) >>
       let* s := get in
       __flush_loop (depth s))
      (modify (set_isFlushing false) >>
       modify (set_depsThatHaveWrittenThisTick ∅) >>
       modify (set_initialBatchValues ∅)).

(** ** The source cell ([store.ts]) *)

(** The function that [setState] hands to [queueSignalUpdate].  The store
    is built without options, so [updateFn] and [onUpdate] are absent. *)
Definition setState_update (this : nat) (updater : Updater) : M unit :=
  let* st := get_store this in
  let prevState := Store._signal st in
  let next :=
    match updater with
    | UFn f => f prevState
    | UValue v => v
    end in
  set_cell this (CStore (Store.mk (Store._signal st) prevState)) >>
  set_cell this (CStore (Store.mk next prevState)) >>
  let* s := get in
  if Map_has (__storeToDerived s) this then __flush this
  else ret tt.

(** [queueSignalUpdate(storeId, fn)] where [fn] is the update of
    [setState] with [updater]. *)
Definition queueSignalUpdate (storeId : nat) (updater : Updater) : M unit :=
  let* s := get in
  if 0 <? __batchDepth s then
    modify (fun s =>
      set_pendingSignalUpdates (Map_set storeId updater (__pendingSignalUpdates s)) s)
  else setState_update storeId updater.

(** [setState(updater)] *)
Definition setState (this : nat) (updater : Updater) : M unit :=
  queueSignalUpdate this updater.

(** [batch(fn)] *)
Definition batch (fn : M unit) : M unit :=
  modify (fun s => set_batchDepth (S (__batchDepth s)) s) >>
  try_finally fn
    (modify (fun s => set_batchDepth (pred (__batchDepth s)) s) >>
     let* s := get in
     if __batchDepth s =? 0 then
       let updates := __pendingSignalUpdates s in
       modify (set_pendingSignalUpdates []) >>
       for_of updates (fun '(storeId, updater) => setState_update storeId updater)
     else ret tt).

(** ** Constructors *)

(** [new Store(initialState)]; the result is the new cell. *)
Definition new_Store (initialState : Z) : M nat :=
  let* s := get in
  let this := length (cells s) in
  modify (set_cells (cells s ++ [CStore (Store.mk initialState initialState)])) >>
  ret this.

(** [new Derived({ deps, fn })]; the result is the new cell.  The
    dependencies are objects that exist when the constructor is called.
    When the constructor throws, no reference to the new object is
    left. *)
Definition new_Derived (deps : list nat) (fn : DerivedFnProps → completion) : M nat :=
  let* s := get in
  let this := length (cells s) in
  if forallb (fun dep => dep <? this) deps then
    let l := length deps in
    let fresh :=
      match version with
      | Allocating =>
          Derived.mk deps fn None None None None true (OwnArray []) [] []
      | Reusing =>
          Derived.mk deps fn None None None None true (OwnArray [])
            (new_Array l) (new_Array l)
      end in
    modify (set_cells (cells s ++ [CDerived fresh])) >>
    on_throw
      (let* r := _computed this in
       update_derived this (Derived.set_cachedState (Some r)) >>
       match version with
       | Allocating => ret tt
       | Reusing =>
           update_derived this (fun d => Derived.set_prevState (Derived._cachedState d) d)
       end >>
       ret this)
      (fun s => set_cells (<[this:=CUnreachable]> (cells s)) s)
  else throw.
End derived.

(** ** Client programs *)

(** The calls a client of the library makes. *)
Inductive op :=
  | NewStore (initialState : Z)
  | NewDerived (deps : list nat) (fn : DerivedFnProps → completion)
  | SetState (store : nat) (updater : Updater)
  | GetState (cell : nat)
  | Recompute (derived : nat)
  | CheckIfRecalculationNeededDeeply (derived : nat)
  | Mount (derived : nat)
  | Unmount (derived : nat)
  | Batch (fn : list op).

Fixpoint run_op (version : impl) (o : op) : M unit :=
  match o with
  | NewStore v => new_Store v >> ret tt
  | NewDerived deps fn => new_Derived version deps fn >> ret tt
  | SetState st u => setState version st u
  | GetState i => state_of version i >> ret tt
  | Recompute d => recompute version d
  | CheckIfRecalculationNeededDeeply d => checkIfRecalculationNeededDeeply version d
  | Mount d => mount version d
  | Unmount d => unmount d
  | Batch fn => batch version (for_of fn (run_op version))
  end.

(** A program is a sequence of calls; one that throws ends the program. *)
Definition run (version : impl) (prog : list op) : M unit :=
  for_of prog (run_op version).

(** The state a program leaves when it starts from a freshly loaded module. *)
Definition exec (version : impl) (prog : list op) : state :=
  (run version prog initial).2.

(** ** Reading traces *)

(** The events that a run from [s] to [s'] added. *)
Definition events_since (s s' : state) : list event :=
  drop (length (trace s)) (trace s').

(** The arguments of the calls of the [fn] of cell [d], in order. *)
Definition computes (d : nat) (tr : list event) : list DerivedFnProps :=
  omap (fun e =>
    match e with
    | EvCompute d' p => if decide (d' = d) then Some p else None
    | _ => None
    end) tr.

(** The cells whose [fn] was called, in order. *)
Definition compute_calls (tr : list event) : list nat :=
  omap (fun e => match e with EvCompute d _ => Some d | _ => None end) tr.

(** The cells whose [recompute()] was called, in order. *)
Definition recompute_calls (tr : list event) : list nat :=
  omap (fun e => match e with EvRecompute d => Some d | _ => None end) tr.

(** The cells whose [onUpdate] hook was called, in order. *)
Definition onUpdate_calls (tr : list event) : list nat :=
  omap (fun e => match e with EvOnUpdate d => Some d | _ => None end) tr.

(** The derived cell at [i], if there is one. *)
Definition derived_at (s : state) (i : nat) : option Derived.t :=
  match cells s !! i with
  | Some (CDerived d) => Some d
  | _ => None
  end.

(** The source cell at [i], if there is one. *)
Definition store_at (s : state) (i : nat) : option Store.t :=
  match cells s !! i with
  | Some (CStore st) => Some st
  | _ => None
  end.

(** The cached current value of the derived cell at [i]. *)
Definition cached (s : state) (i : nat) : value :=
  d ← derived_at s i; Derived._cachedState d.

(** ** Compute functions used in examples *)

(** The current value of dependency [i], [0] when it is absent. *)
Definition dep (p : DerivedFnProps) (i : nat) : Z :=
  default 0%Z (js_get (currDepVals p) i).

(** [({ currDepVals }) => currDepVals[0]] *)
Definition fn_first (p : DerivedFnProps) : completion := Return (dep p 0).

(** [({ currDepVals }) => currDepVals[0] % 2] *)
Definition fn_parity (p : DerivedFnProps) : completion := Return (dep p 0 mod 2)%Z.

(** [({ currDepVals }) => currDepVals[0] + currDepVals[1]] *)
Definition fn_sum (p : DerivedFnProps) : completion := Return (dep p 0 + dep p 1)%Z.

(** [({ prevVal }) => (prevVal ?? 0) + 1]: counts its own invocations. *)
Definition fn_count (p : DerivedFnProps) : completion :=
  Return (default 0%Z (prevVal p) + 1)%Z.

(** A function that throws unless its first dependency is [1]. *)
Definition fn_picky (p : DerivedFnProps) : completion :=
  if (dep p 0 =? 1)%Z then Return 1%Z else Throws.

(** A compute function that never throws. *)
Definition total (f : DerivedFnProps → Z) : DerivedFnProps → completion :=
  fun p => Return (f p).

(** ** Weakest preconditions *)

(** [wp m s Q]: running [m] from [s] ends in an outcome and a state that
    satisfy [Q]. *)
Definition wp {A} (m : M A) (s : state) (Q : outcome A → state → Prop) : Prop :=
  Q (m s).1 (m s).2.

(** The postcondition of the first part of a sequence [let* a := m in k a]
    whose postcondition is [Q]. *)
Definition bind_post {A B} (k : A → M B) (Q : outcome B → state → Prop)
    (r : outcome A) (s : state) : Prop :=
  match r with
  | Ok a => wp (k a) s Q
  | Throw => Q Throw s
  | OutOfFuel => Q OutOfFuel s
  end.

(** The postcondition of the [finally] block, after the guarded block ended
    with [r]. *)
Definition finally_block_post {A} (Q : outcome A → state → Prop) (r : outcome A)
    (rf : outcome unit) (s : state) : Prop :=
  match rf with
  | Ok _ => Q r s
  | Throw => Q Throw s
  | OutOfFuel => Q OutOfFuel s
  end.

(** The postcondition of the block guarded by [try ... finally fin]. *)
Definition finally_post {A} (fin : M unit) (Q : outcome A → state → Prop)
    (r : outcome A) (s : state) : Prop :=
  wp fin s (finally_block_post Q r).

(** The postcondition of a block whose exception triggers [cleanup]. *)
Definition on_throw_post {A} (cleanup : state → state) (Q : outcome A → state → Prop)
    (r : outcome A) (s : state) : Prop :=
  match r with
  | Throw => Q Throw (cleanup s)
  | _ => Q r s
  end.

(** ** Programs used in examples *)

(** The events that call [o] adds when it runs from [s]. *)
Definition events_of (version : impl) (o : op) (s : state) : list event :=
  events_since s (run_op version o s).2.

(** A source [A] (cell 0) with two mounted dependents [B] (cell 1) and [C]
    (cell 2). *)
Definition siblings : list op :=
  [NewStore 1; NewDerived [0] fn_first; NewDerived [0] fn_first; Mount 1; Mount 2].

(** The diamond: source [A] (cell 0), [B] and [C] over [A] (cells 1 and 2),
    [D] over [B] and [C] (cell 3), all three mounted. *)
Definition diamond (a : Z) (fB fC fD : DerivedFnProps → completion) : list op :=
  [NewStore a; NewDerived [0] fB; NewDerived [0] fC; NewDerived [1; 2] fD;
   Mount 1; Mount 2; Mount 3].

(** A source [A] (cell 0), [B] over [A] (cell 1) and [C] over [B] (cell 2),
    none of them mounted. *)
Definition line (a : Z) (fB fC : DerivedFnProps → completion) : list op :=
  [NewStore a; NewDerived [0] fB; NewDerived [1] fC].

(** A source [A] (cell 0), [B] over [A] (cell 1), and [C] over [A] and [B]
    (cell 2); only [C] is mounted. *)
Definition nested : list op :=
  [NewStore 1; NewDerived [0] fn_first; NewDerived [0; 1] fn_sum; Mount 2].

(** A source [A] (cell 0) and one derived cell over it (cell 1). *)
Definition single (a : Z) (f : DerivedFnProps → completion) : list op :=
  [NewStore a; NewDerived [0] f].


(** A source [A] (cell 0) with two mounted dependents [B] (cell 1) and [C]
    (cell 2), for any initial value and compute functions. *)
Definition mounted_pair (a : Z) (fB fC : DerivedFnProps → completion) : list op :=
  [NewStore a; NewDerived [0] fB; NewDerived [0] fC; Mount 1; Mount 2].

(** A source [A] (cell 0), [B] over [A] (cell 1), and [C] over [A] and [B]
    (cell 2), followed by the calls [mounts]. *)
Definition chain (a : Z) (fB fC : DerivedFnProps → completion) (mounts : list op)
  : list op :=
  [NewStore a; NewDerived [0] fB; NewDerived [0; 1] fC] ++ mounts.

(** The value an updater gives from the previous state. *)
Definition apply_updater (u : Updater) (prevState : Z) : Z :=
  match u with
  | UFn f => f prevState
  | UValue v => v
  end.

(** ** Arguments of compute functions *)

(** The argument of the first call of a compute function. *)
Definition first_run (currDepVals : list value) : DerivedFnProps :=
  {| prevVal := None; prevDepVals := None; currDepVals := currDepVals |}.

(** The argument of a later call. *)
Definition rerun (prevVal : Z) (prevDepVals currDepVals : list value) : DerivedFnProps :=
  {| prevVal := Some prevVal; prevDepVals := Some prevDepVals;
     currDepVals := currDepVals |}.

(** ** The write to the source of the diamond *)

(** What a write of [a'] to the source of the diamond built from [a], [fB],
    [fC] and [fD] is expected to leave: the values of [B], [C] and [D], and
    the calls made, in order.  A cell whose dependencies have the values its
    last run read keeps its value and its function is not called. *)
Definition diamond_rerun (a a' : Z) (fB fC fD : DerivedFnProps → Z)
  : Z * Z * Z * list event :=
  let b0 := fB (first_run [Some a]) in
  let c0 := fC (first_run [Some a]) in
  let d0 := fD (first_run [Some b0; Some c0]) in
  let pB := rerun b0 [Some a] [Some a'] in
  let pC := rerun c0 [Some a] [Some a'] in
  let b1 := if (a' =? a)%Z then b0 else fB pB in
  let c1 := if (a' =? a)%Z then c0 else fC pC in
  let pD := rerun d0 [Some b0; Some c0] [Some b1; Some c1] in
  let fresh := (b1 =? b0)%Z && (c1 =? c0)%Z in
  let d1 := if fresh then d0 else fD pD in
  (b1, c1, d1,
   [EvRecompute 1] ++ (if (a' =? a)%Z then [] else [EvCompute 1 pB]) ++ [EvOnUpdate 1] ++
   [EvRecompute 2] ++ (if (a' =? a)%Z then [] else [EvCompute 2 pC]) ++ [EvOnUpdate 2] ++
   [EvRecompute 3] ++ (if fresh then [] else [EvCompute 3 pD]) ++ [EvOnUpdate 3]).
(** ** Relations between the state before and after a call *)

(** [sat T m]: every run of [m] takes a state to one that [T] relates to
    it. *)
Definition sat {A} (T : state → state → Prop) (m : M A) : Prop :=
  ∀ s, wp m s (fun _ s' => T s s').

(** The scheduler's variables and the registry. *)
Definition sched_of (s : state) :=
  (__storeToDerived s, __derivedToStore s, __depsThatHaveWrittenThisTick s,
   __isFlushing s, __batchDepth s, __pendingUpdates s, __initialBatchValues s,
   __pendingSignalUpdates s).

(** A run that leaves the scheduler alone and calls no [recompute]. *)
Definition quiet (s s' : state) : Prop :=
  sched_of s' = sched_of s ∧
  ∃ evs, trace s' = trace s ++ evs ∧ recompute_calls evs = [].

(** A run inside one flush: the tick-visited set grows, and every cell whose
    [recompute] is called was not visited before and is visited after, so no
    cell is recomputed twice. *)
Definition tick (s s' : state) : Prop :=
  __depsThatHaveWrittenThisTick s ⊆ __depsThatHaveWrittenThisTick s' ∧
  ∃ evs, trace s' = trace s ++ evs ∧ NoDup (recompute_calls evs) ∧
    ∀ d, d ∈ recompute_calls evs →
      d ∉ __depsThatHaveWrittenThisTick s ∧ d ∈ __depsThatHaveWrittenThisTick s'.

(** ** Well-formed heaps and the evolution of cells *)

(** The dependencies of a derived cell were built before it. *)
Definition wf_cell (i : nat) (c : cell) : Prop :=
  match c with
  | CDerived d => Forall (fun dep => dep < i) (Derived.deps d)
  | _ => True
  end.
Definition wf (s : state) : Prop :=
  ∀ i c, cells s !! i = Some c → wf_cell i c.

(** The same, as a test. *)
Definition wf_cellb (i : nat) (c : cell) : bool :=
  match c with
  | CDerived d => forallb (fun dep => dep <? i) (Derived.deps d)
  | _ => true
  end.
Fixpoint wfb_from (i : nat) (l : list cell) : bool :=
  match l with
  | [] => true
  | c :: l' => wf_cellb i c && wfb_from (S i) l'
  end.
Definition wfb (s : state) : bool := wfb_from 0 (cells s).


(** What a call may do to a cell: it keeps its class, a derived cell keeps
    its dependencies and its function, and a first run that is over stays
    over. *)
Definition cell_le (c c' : cell) : Prop :=
  match c, c' with
  | CStore _, CStore _ => True
  | CDerived d, CDerived d' =>
      Derived.deps d' = Derived.deps d ∧
      Derived.fn d' = Derived.fn d ∧
      (Derived._isFirstRun d = false → Derived._isFirstRun d' = false)
  | CUnreachable, CUnreachable => True
  | _, _ => False
  end.

(** A call of a compute function is in order when the cell exists and, if its
    first run is over, the call receives previous dependency values. *)
Definition compute_ok (s : state) (d : nat) (p : DerivedFnProps) : Prop :=
  ∃ dd, derived_at s d = Some dd ∧
        (Derived._isFirstRun dd = false → prevDepVals p ≠ None).

Definition event_ok (s : state) (e : event) : Prop :=
  match e with
  | EvCompute d p => compute_ok s d p
  | _ => True
  end.

(** What every call other than a constructor does. *)
Definition step (s s' : state) : Prop :=
  Forall2 cell_le (cells s) (cells s') ∧
  ∃ evs, trace s' = trace s ++ evs ∧ Forall (event_ok s) evs.

(** The cell an event is about. *)
Definition ev_cell (e : event) : nat :=
  match e with
  | EvCompute d _ => d
  | EvRecompute d => d
  | EvOnUpdate d => d
  end.

Definition pulled_event (s : state) (n : nat) (e : event) : Prop :=
  match e with
  | EvCompute d p => d < n ∧ compute_ok s d p
  | _ => False
  end.

(** What the runtime does when it brings cells below [n] up to date: cells
    from [n] on and all source cells are untouched, the scheduler is
    untouched, and only compute functions of cells below [n] are called. *)
Record below (n : nat) (s s' : state) : Prop := mkBelow {
  below_sched : sched_of s' = sched_of s;
  below_cells : Forall2 cell_le (cells s) (cells s');
  below_frame : ∀ j, n ≤ j → cells s' !! j = cells s !! j;
  below_stores : ∀ j st, cells s !! j = Some (CStore st) → cells s' !! j = Some (CStore st);
  below_trace : ∃ evs, trace s' = trace s ++ evs ∧ Forall (pulled_event s n) evs
}.

(** The fields of a derived cell that [getDepVals] does not write. *)
Definition scalars (d : Derived.t) :=
  (Derived.deps d, Derived.fn d, Derived._computed d, Derived._cachedState d,
   Derived._previousResult d, Derived.prevState d, Derived._isFirstRun d).

(** What [getDepVals] of cell [i] does: it brings the dependencies up to
    date and writes only the arrays of [i]. *)
Record reads (i : nat) (s s' : state) : Prop := mkReads {
  reads_sched : sched_of s' = sched_of s;
  reads_cells : Forall2 cell_le (cells s) (cells s');
  reads_frame : ∀ j, i < j → cells s' !! j = cells s !! j;
  reads_stores : ∀ j st, cells s !! j = Some (CStore st) → cells s' !! j = Some (CStore st);
  reads_scalars : ∀ d, derived_at s i = Some d →
    ∃ d', derived_at s' i = Some d' ∧ scalars d' = scalars d;
  reads_trace : ∃ evs, trace s' = trace s ++ evs ∧ Forall (pulled_event s i) evs
}.

(** ** What a read of a memoized computation does *)

Definition pv (v : impl) (d : Derived.t) : value :=
  match v with
  | Allocating => Derived.prevState d
  | Reusing => Derived._previousResult d
  end.

Definition props_for (v : impl) (d : Derived.t) (p : DerivedFnProps) : Prop :=
  prevVal p = pv v d ∧
  (Derived._isFirstRun d = true → prevDepVals p = None) ∧
  (Derived._isFirstRun d = false → prevDepVals p ≠ None).

(** The induction hypothesis of the pass over the runtime's reads: reads with
    fuel [f] stay below the cell they read and do not run out of fuel. *)
Definition pull_ok (v : impl) (f : nat) : Prop :=
  ∀ j s, wf s →
    wp (_computed_read v f j) s (fun r s' => below (S j) s s' ∧ (j < f → r ≠ OutOfFuel)).

Definition ran (v : impl) (d : Derived.t) (z : Z) (d' : Derived.t) : Prop :=
  Derived.deps d' = Derived.deps d ∧ Derived.fn d' = Derived.fn d ∧
  Derived._isFirstRun d' = false ∧
  match v with
  | Allocating =>
      Derived._cachedState d' = Derived._cachedState d ∧
      Derived.prevState d' = Derived.prevState d ∧
      Derived._previousResult d' = Derived._previousResult d
  | Reusing =>
      Derived._cachedState d' = Some z ∧
      Derived.prevState d' = Derived._cachedState d ∧
      Derived._previousResult d' = Some z
  end.

(** What one run of the callback of cell [j] from cell record [d] leaves. *)
Definition callback_post (v : impl) (j : nat) (d : Derived.t) (s : state)
    (r : outcome (list value * Z)) (s' : state) : Prop :=
  let ps := computes j (events_since s s') in
  length ps ≤ 1 ∧ Forall (props_for v d) ps ∧
  ∀ rd z, r = Ok (rd, z) →
    ∃ p d', ps = [p] ∧ Derived.fn d p = Return z ∧ rd = currDepVals p ∧
            derived_at s' j = Some d' ∧ ran v d z d'.

(** What a read of the memoized computation of cell [j] leaves: either the
    remembered value and an untouched cell, or one run of the function. *)
Definition read_post (v : impl) (j : nat) (d : Derived.t) (s : state)
    (r : outcome Z) (s' : state) : Prop :=
  let ps := computes j (events_since s s') in
  length ps ≤ 1 ∧ Forall (props_for v d) ps ∧
  ∀ z, r = Ok z →
    (ps = [] ∧ cells s' !! j = cells s !! j ∧
     ∃ c, Derived._computed d = Some c ∧ cvalue c = z) ∨
    (∃ p d', ps = [p] ∧ Derived.fn d p = Return z ∧ derived_at s' j = Some d' ∧
             Derived._computed d' = Some (mkComputation (currDepVals p) z) ∧
             ran v d z d').

(** What [recompute()] of a cell with record [d] leaves in the record [d']
    when the compute function was called with the arguments [ps]. *)
Definition recomputed (v : impl) (d : Derived.t) (ps : list DerivedFnProps)
    (d' : Derived.t) : Prop :=
  (ps = [] ∧ ∃ c, Derived._computed d = Some c ∧ Derived._computed d' = Some c ∧
     match v with
     | Allocating =>
         Derived.prevState d' = Derived._cachedState d ∧
         Derived._cachedState d' = Some (cvalue c)
     | Reusing => d' = d
     end) ∨
  (∃ p z, ps = [p] ∧ Derived.fn d p = Return z ∧
     Derived.prevState d' = Derived._cachedState d ∧
     Derived._cachedState d' = Some z ∧
     Derived._computed d' = Some (mkComputation (currDepVals p) z)).

(** The previous value [recompute()] hands to the compute function. *)
Definition captured (v : impl) (d : Derived.t) : value :=
  match v with
  | Allocating => Derived._cachedState d
  | Reusing => Derived._previousResult d
  end.

(** ** Invariants of the registry, the scheduler and the reused arrays *)

(** In the version that reuses its arrays: [lastSeenDepValues] of every
    derived cell is the array [_currDepValsArray] of the cell. *)
Definition aliased (s : state) : Prop :=
  ∀ i d, derived_at s i = Some d →
    Derived.lastSeenDepValues d = SameAsCurrDepValsArray.

(** The same, as a test. *)
Definition aliasedb (s : state) : bool :=
  forallb (fun c =>
    match c with
    | CDerived d =>
        match Derived.lastSeenDepValues d with
        | SameAsCurrDepValsArray => true
        | OwnArray _ => false
        end
    | _ => true
    end) (cells s).

(** A quiet run that keeps the arrays aliased. *)
Definition keeps_alias (s s' : state) : Prop :=
  aliased s → aliased s' ∧ quiet s s'.

(** A run that changes nothing but the two maps of the registry. *)
Definition registry_only (s s' : state) : Prop :=
  cells s' = cells s ∧ trace s' = trace s ∧
  __depsThatHaveWrittenThisTick s' = __depsThatHaveWrittenThisTick s ∧
  __isFlushing s' = __isFlushing s ∧ __batchDepth s' = __batchDepth s ∧
  __pendingUpdates s' = __pendingUpdates s ∧
  __initialBatchValues s' = __initialBatchValues s ∧
  __pendingSignalUpdates s' = __pendingSignalUpdates s.

(** The array without the first occurrence of [x]. *)
Fixpoint remove_first (x : nat) (l : list nat) : list nat :=
  match l with
  | [] => []
  | y :: l' => if y =? x then l' else y :: remove_first x l'
  end.

(** The variables of the scheduler that a flush does not use to mark its
    progress. *)
Definition flush_frame (s : state) :=
  (__isFlushing s, __batchDepth s, __pendingUpdates s, __initialBatchValues s,
   __pendingSignalUpdates s).

(** A run inside a flush: it leaves these variables alone. *)
Definition flush_step (s s' : state) : Prop := flush_frame s' = flush_frame s.

(** A run outside a flush: it also leaves the tick-visited set alone. *)
Definition idle (s s' : state) : Prop :=
  flush_frame s' = flush_frame s ∧
  __depsThatHaveWrittenThisTick s' = __depsThatHaveWrittenThisTick s.

(** The scheduler at rest: no flush is running, nothing is marked or
    pending, and updates are queued only while a batch is open. *)
Definition at_rest (s : state) : Prop :=
  __isFlushing s = false ∧ __depsThatHaveWrittenThisTick s = ∅ ∧
  __initialBatchValues s = ∅ ∧ __pendingUpdates s = [] ∧
  (__batchDepth s = 0 → __pendingSignalUpdates s = []).

(** A call that finds the scheduler at rest leaves it at rest, with the
    batch depth it found. *)
Definition keeps_rest (s s' : state) : Prop :=
  at_rest s → at_rest s' ∧ __batchDepth s' = __batchDepth s.

(** The same for a call made while no batch is open. *)
Definition keeps_rest_unbatched (s s' : state) : Prop :=
  at_rest s → __batchDepth s = 0 → at_rest s' ∧ __batchDepth s' = 0.

(** ** Source cells during a flush *)

(** The source cells of [s] are the same in [s']. *)
Definition stores_same (s s' : state) : Prop :=
  ∀ j c, cells s !! j = Some (CStore c) → cells s' !! j = Some (CStore c).

(** A run that leaves the batch snapshot and the batch depth alone and,
    when the snapshot is empty, the source cells too. *)
Definition keeps_stores (s s' : state) : Prop :=
  __initialBatchValues s' = __initialBatchValues s ∧
  __batchDepth s' = __batchDepth s ∧
  (__initialBatchValues s = ∅ → stores_same s s').

(** ** First runs *)

(** The arguments of the calls of one compute function, in order: a first
    run, which receives no previous values, followed by later runs, which
    all receive previous dependency values. *)
Definition first_then_later (ps : list DerivedFnProps) : Prop :=
  match ps with
  | [] => True
  | p :: ps' =>
      prevDepVals p = None ∧ prevVal p = None ∧
      Forall (fun q => prevDepVals q ≠ None) ps'
  end.

(** On a well-formed heap, a run that is a [step]. *)
Definition evolves (s s' : state) : Prop := wf s → step s s'.

(** A state between client calls: the heap is well formed, the first run of
    every derived cell is over and its function has been called, no call is
    recorded for a cell that does not exist, and the calls of every function
    are a first run followed by later runs. *)
Definition settled (s : state) : Prop :=
  wf s ∧
  (∀ i d, derived_at s i = Some d →
     Derived._isFirstRun d = false ∧ computes i (trace s) ≠ []) ∧
  (∀ i, length (cells s) ≤ i → computes i (trace s) = []) ∧
  (∀ i, first_then_later (computes i (trace s))).

Definition keeps_settled (s s' : state) : Prop := settled s → settled s'.

(** ** Calls that end *)

(** [ends I T m]: from a state with [I], a run of [m] returns or throws, and
    leaves a state that [T] relates to the first. *)
Definition ends (I : state → Prop) (T : state → state → Prop) {A} (m : M A) : Prop :=
  ∀ s, I s → wp m s (fun r s' => T s s' ∧ r ≠ OutOfFuel).

(** A step that leaves the scheduler and the registry alone. *)
Definition inner (s s' : state) : Prop := step s s' ∧ sched_of s' = sched_of s.

(** A step inside one flush: the tick-visited set only grows. *)
Definition calm (s s' : state) : Prop :=
  step s s' ∧ __depsThatHaveWrittenThisTick s ⊆ __depsThatHaveWrittenThisTick s'.

(** The number of cells that the running flush has not visited. *)
Definition unvisited (s : state) : nat :=
  length (filter (fun i => i ∉ __depsThatHaveWrittenThisTick s) (seq 0 (length (cells s)))).

(** [T] keeps [I]. *)
Class Keeps (I : state → Prop) (T : state → state → Prop) :=
  keeps : ∀ s s', T s s' → I s → I s'.

(** ** The registry *)

(** The two maps of the registry. *)
Definition registry_of (s : state) := (__storeToDerived s, __derivedToStore s).

(** A run that leaves the registry as it was. *)
Definition registry_same (s s' : state) : Prop := registry_of s' = registry_of s.

(** A call that is no [mount()] and no call of a function returned by
    [mount()], and a batch of such calls. *)
Fixpoint no_mount (o : op) : bool :=
  match o with
  | Mount _ | Unmount _ => false
  | Batch fn => forallb no_mount fn
  | _ => true
  end.

(** Source cell [st] is reached from the dependency list [deps]: it is in
    the list, or it is reached from the dependencies of a derived cell of the
    list. *)
Inductive reaches (s : state) : list nat → nat → Prop :=
  | reaches_store deps st c :
      st ∈ deps → cells s !! st = Some (CStore c) → reaches s deps st
  | reaches_derived deps dep dd st :
      dep ∈ deps → cells s !! dep = Some (CDerived dd) →
      reaches s (Derived.deps dd) st → reaches s deps st.

(** Cell [this] is in the dependent list of store [st]. *)
Definition listed (s : state) (this st : nat) : Prop :=
  ∃ l, __storeToDerived s !! st = Some l ∧ this ∈ l.

(** Store [st] is in the set of stores of cell [this]. *)
Definition knows (s : state) (this st : nat) : Prop :=
  ∃ l, __derivedToStore s !! this = Some l ∧ st ∈ l.

(** A run that changes no cell and takes nothing out of the registry. *)
Definition registry_grows (s s' : state) : Prop :=
  cells s' = cells s ∧
  (∀ i st, listed s i st → listed s' i st) ∧
  (∀ i st, knows s i st → knows s' i st).

(** No dependent list of the registry names a cell twice. *)
Definition registry_nodup (s : state) : Prop :=
  ∀ st l, __storeToDerived s !! st = Some l → NoDup l.

Definition keeps_nodup (s s' : state) : Prop := registry_nodup s → registry_nodup s'.

(** ** Cells visited by a flush *)

(** A run inside one flush: every cell that is marked as visited after it
    was marked before, or had its [recompute] called by the run. *)
Definition marks (s s' : state) : Prop :=
  ∃ evs, trace s' = trace s ++ evs ∧
    ∀ d, d ∈ __depsThatHaveWrittenThisTick s' →
      d ∈ __depsThatHaveWrittenThisTick s ∨ d ∈ recompute_calls evs.

(** The tick-visited set only grows. *)
Definition visits_more (s s' : state) : Prop :=
  __depsThatHaveWrittenThisTick s ⊆ __depsThatHaveWrittenThisTick s'.

(** A run that writes cells and nothing else. *)
Definition only_cells (s s' : state) : Prop := ∃ cs, s' = set_cells cs s.
(** * Properties *)

(** ** Rules of the weakest precondition *)

Section wp.
Context {A B : Type}.
Implicit Types (s : state).

Lemma wp_ret (a : A) s Q : Q (Ok a) s → wp (ret a) s Q.
Proof. done. Qed.
Lemma wp_throw s (Q : outcome A → state → Prop) : Q Throw s → wp throw s Q.
Proof. done. Qed.
Lemma wp_out_of_fuel s (Q : outcome A → state → Prop) : Q OutOfFuel s → wp out_of_fuel s Q.
Proof. done. Qed.
Lemma wp_bind (m : M A) (k : A → M B) s Q :
  wp m s (fun r s1 =>
    match r with
    | Ok a => wp (k a) s1 Q
    | Throw => Q Throw s1
    | OutOfFuel => Q OutOfFuel s1
    end) →
  wp (bind m k) s Q.
Proof. unfold wp, bind. by destruct (m s) as [[a| |] s1]. Qed.
Lemma wp_mono (m : M A) s (Q Q' : outcome A → state → Prop) :
  wp m s Q → (∀ r s', Q r s' → Q' r s') → wp m s Q'.
Proof. unfold wp. auto. Qed.
Lemma wp_try_finally (m : M A) (fin : M unit) s Q :
  wp m s (fun r s1 =>
    wp fin s1 (fun rf s2 =>
      match rf with
      | Ok _ => Q r s2
      | Throw => Q Throw s2
      | OutOfFuel => Q OutOfFuel s2
      end)) →
  wp (try_finally m fin) s Q.
Proof.
  unfold wp, try_finally. destruct (m s) as [r s1]. simpl.
  by destruct (fin s1) as [[[]| |] s2].
Qed.
Lemma wp_on_throw (m : M A) cleanup s Q :
  wp m s (fun r s1 =>
    match r with
    | Throw => Q Throw (cleanup s1)
    | _ => Q r s1
    end) →
  wp (on_throw m cleanup) s Q.
Proof. unfold wp, on_throw. by destruct (m s) as [[a| |] s1]. Qed.
End wp.

Lemma wp_get s Q : Q (Ok s) s → wp get s Q.
Proof. done. Qed.
Lemma wp_modify f s Q : Q (Ok tt) (f s) → wp (modify f) s Q.
Proof. done. Qed.
Lemma wp_modify_to f s s' Q : f s = s' → Q (Ok tt) s' → wp (modify f) s Q.
Proof. by intros <-. Qed.

Lemma for_of_cons {A} (x : A) l body : for_of (x :: l) body = (body x >> for_of l body).
Proof. done. Qed.
Lemma for_of_nil {A} (body : A → M unit) : for_of [] body = ret tt.
Proof. done. Qed.
Lemma map_M_cons {A B} (f : A → M B) x l :
  map_M f (x :: l) = (let* y := f x in let* ys := map_M f l in ret (y :: ys)).
Proof. done. Qed.
Lemma map_M_nil {A B} (f : A → M B) : map_M f [] = ret [].
Proof. done. Qed.
Lemma fold_M_cons {A B} (f : B → A → M B) b x l :
  fold_M f b (x :: l) = (let* b' := f b x in fold_M f b' l).
Proof. done. Qed.
Lemma fold_M_nil {A B} (f : B → A → M B) b : fold_M f b [] = ret b.
Proof. done. Qed.

(* symbolic execution *)
Ltac norm t := eval vm_compute in t.
Ltac norm_sym t := eval cbv -[Z.eqb] in t.

Ltac resolve_eqb :=
  repeat first
    [ rewrite Z.eqb_refl
    | match goal with
      | H : ?x ≠ ?y |- context [ (?x =? ?y)%Z ] => rewrite (proj2 (Z.eqb_neq x y) H)
      | H : ?y ≠ ?x |- context [ (?x =? ?y)%Z ] =>
          rewrite (proj2 (Z.eqb_neq x y) (not_eq_sym H))
      | H : ?x = ?y |- context [ (?x =? ?y)%Z ] => rewrite (proj2 (Z.eqb_eq x y) H)
      | H : ?y = ?x |- context [ (?x =? ?y)%Z ] => rewrite (proj2 (Z.eqb_eq x y) (eq_sym H))
      end ].

Ltac split_eqb c :=
  match c with
  | context [ (?x =? ?y)%Z ] =>
      let H := fresh "Heq" in
      destruct (Z.eq_dec x y) as [H|H]; resolve_eqb
  end.

Lemma getDepVals_fresh_cons v rd dep ds i prev curr :
  getDepVals_fresh v rd (dep :: ds) i prev curr =
  (let* p := get_prevState dep in
   let prevDepVals := <[i:=p]> prev in
   let* c := get_state v rd dep in
   let currDepVals := <[i:=Some c]> curr in
   getDepVals_fresh v rd ds (S i) prevDepVals currDepVals).
Proof. done. Qed.
Lemma getDepVals_fresh_nil v rd i prev curr :
  getDepVals_fresh v rd [] i prev curr = ret (prev, curr).
Proof. done. Qed.
Lemma getDepVals_reuse_cons v rd this dep ds i :
  getDepVals_reuse v rd this (dep :: ds) i =
  (let* p := get_prevState dep in
   update_derived this (fun d =>
     Derived.set_prevDepValsArray (<[i:=p]> (Derived._prevDepValsArray d)) d) >>
   let* c := get_state v rd dep in
   update_derived this (fun d =>
     Derived.set_currDepValsArray (<[i:=Some c]> (Derived._currDepValsArray d)) d) >>
   getDepVals_reuse v rd this ds (S i)).
Proof. done. Qed.
Lemma getDepVals_reuse_nil v rd this i : getDepVals_reuse v rd this [] i = ret tt.
Proof. done. Qed.
Lemma _computed_read_S v fuel' this :
  _computed_read v (S fuel') this =
  (let run :=
     let* (reads, result) := computed_callback v (_computed_read v fuel') this in
     update_derived this (Derived.set_computed (Some (mkComputation reads result))) >>
     ret result in
   let* d := get_derived this in
   match Derived._computed d with
   | None => run
   | Some c =>
       let* now := map_M (tracked_read (_computed_read v fuel')) (Derived.deps d) in
       if same_values (Some <$> now) (tracked c) then ret (cvalue c) else run
   end).
Proof. done. Qed.
Lemma check_rec_S v fuel' this :
  checkIfRecalculationNeededDeeply_rec v (S fuel') this =
  (let* d := get_derived this in
   for_of (Derived.deps d) (fun dep =>
     let* s := get in
     match cells s !! dep with
     | Some (CDerived _) => checkIfRecalculationNeededDeeply_rec v fuel' dep
     | _ => ret tt
     end) >>
   let* d := get_derived this in
   let lastSeenDepValues := Derived.lastSeenDepValues d in
   let* s := get in
   let* depVals := getDepVals v (_computed_read v (depth s)) this in
   let* d := get_derived this in
   if shouldRecompute (currDepVals depVals) (Derived.deref d lastSeenDepValues)
        0 (length (currDepVals depVals))
   then recompute v this
   else ret tt).
Proof. done. Qed.
Lemma registerOnGraph_rec_S fuel' this deps :
  registerOnGraph_rec (S fuel') this deps =
  (let* toSort :=
     fold_M (fun toSort dep =>
       let* s := get in
       match cells s !! dep with
       | Some (CDerived dd) =>
           registerOnGraph_rec fuel' dep (Derived.deps dd) >>
           registerOnGraph_rec fuel' this (Derived.deps dd) >>
           ret toSort
       | Some (CStore _) => register_under this dep toSort
       | _ => ret toSort
       end) [] deps in
   for_of toSort (fun st =>
     modify (fun s =>
       match __storeToDerived s !! st with
       | Some arr => set_storeToDerived (<[st:=sort (compare_deps s) arr]> (__storeToDerived s)) s
       | None => s
       end))).
Proof. done. Qed.
Lemma unregisterFromGraph_rec_S fuel' this deps :
  unregisterFromGraph_rec (S fuel') this deps =
  for_of deps (fun dep =>
    let* s := get in
    match cells s !! dep with
    | Some (CDerived dd) => unregisterFromGraph_rec fuel' this (Derived.deps dd)
    | Some (CStore _) => unregister_under this dep
    | _ => ret tt
    end).
Proof. done. Qed.
Lemma __flush_internals_S v fuel' relatedVals :
  __flush_internals v (S fuel') relatedVals =
  for_of relatedVals (fun derived =>
    let* s := get in
    if Set_has (__depsThatHaveWrittenThisTick s) derived then ret tt
    else
      modify (fun s =>
        set_depsThatHaveWrittenThisTick ({[derived]} ∪ __depsThatHaveWrittenThisTick s) s) >>
      recompute v derived >>
      __notifyDerivedListeners derived >>
      let* s := get in
      match __derivedToStore s !! derived with
      | Some stores =>
          for_of stores (fun store =>
            let* s := get in
            match __storeToDerived s !! store with
            | Some (d0 :: ds) => __flush_internals v fuel' (d0 :: ds)
            | _ => ret tt
            end)
      | None => ret tt
      end).
Proof. done. Qed.
Lemma __flush_loop_S v fuel' :
  __flush_loop v (S fuel') =
  (let* s := get in
   match __pendingUpdates s with
   | [] => ret tt
   | stores =>
       modify (set_pendingUpdates []) >>
       for_of stores (fun store =>
         let* s := get in
         let* st := get_store store in
         let prevState :=
           default (Store.prevState st) (__initialBatchValues s !! store) in
         set_cell store (CStore (Store.mk (Store._signal st) prevState)) >>
         __notifyListeners store) >>
       for_of stores (fun store =>
         let* s := get in
         match __storeToDerived s !! store with
         | None => ret tt
         | Some derivedVals =>
             modify (fun s =>
               set_depsThatHaveWrittenThisTick ({[store]} ∪ __depsThatHaveWrittenThisTick s) s) >>
             let* s := get in
             __flush_internals v (depth s) derivedVals
         end) >>
       __flush_loop v fuel'
   end).
Proof. done. Qed.
Lemma run_op_Batch v fn : run_op v (Batch fn) = batch v (for_of fn (run_op v)).
Proof. done. Qed.

Lemma wp_change {A} (m m' : M A) s Q : m = m' → wp m' s Q → wp m s Q.
Proof. by intros ->. Qed.
Lemma wp_subst {A B} (G : B → M A) (x x' : B) s Q :
  x = x' → wp (G x') s Q → wp (G x) s Q.
Proof. by intros ->. Qed.
Lemma wp_if_true {A} (c : bool) (m1 m2 : M A) s Q :
  c = true → wp m1 s Q → wp (if c then m1 else m2) s Q.
Proof. by intros ->. Qed.
Lemma wp_if_false {A} (c : bool) (m1 m2 : M A) s Q :
  c = false → wp m2 s Q → wp (if c then m1 else m2) s Q.
Proof. by intros ->. Qed.
Lemma wp_if_eq {A} (c c' : bool) (m1 m2 : M A) s Q :
  c = c' → wp (if c' then m1 else m2) s Q → wp (if c then m1 else m2) s Q.
Proof. by intros ->. Qed.

Ltac head_of t :=
  lazymatch t with
  | ?f _ => head_of f
  | _ => t
  end.

Ltac norm_args m :=
  lazymatch m with
  | ?f ?x =>
      let f' := norm_args f in
      lazymatch type of x with
      | nat => let x' := eval vm_compute in x in constr:(f' x')
      | list _ => let x' := norm x in constr:(f' x')
      | _ => constr:(f' x)
      end
  | _ => m
  end.

Ltac wp_unfold_fix m :=
  first
    [ rewrite for_of_cons | rewrite for_of_nil
    | rewrite map_M_cons | rewrite map_M_nil
    | rewrite fold_M_cons | rewrite fold_M_nil
    | rewrite getDepVals_fresh_cons | rewrite getDepVals_fresh_nil
    | rewrite getDepVals_reuse_cons | rewrite getDepVals_reuse_nil
    | rewrite _computed_read_S | rewrite check_rec_S
    | rewrite registerOnGraph_rec_S | rewrite unregisterFromGraph_rec_S
    | rewrite __flush_internals_S | rewrite __flush_loop_S
    | rewrite run_op_Batch ].

Ltac wp_unfold m s Q :=
  let m1 := norm_args m in
  let h := head_of m1 in
  lazymatch h with
  | @for_of _ =>
      lazymatch m1 with
      | for_of (?x :: ?l) ?body =>
          apply (wp_change m (body x >> for_of l body) s Q eq_refl)
      | for_of [] ?body => apply (wp_change m (ret tt) s Q eq_refl)
      end
  | @map_M _ _ =>
      lazymatch m1 with
      | map_M ?f (?x :: ?l) =>
          apply (wp_change m (let* y := f x in let* ys := map_M f l in ret (y :: ys)) s Q eq_refl)
      | map_M ?f [] => apply (wp_change m (ret []) s Q eq_refl)
      end
  | @fold_M _ _ =>
      lazymatch m1 with
      | fold_M ?f ?b (?x :: ?l) =>
          apply (wp_change m (let* b' := f b x in fold_M f b' l) s Q eq_refl)
      | fold_M ?f ?b [] => apply (wp_change m (ret b) s Q eq_refl)
      end
  | getDepVals_fresh =>
      apply (wp_change m m1 s Q eq_refl);
      first [ rewrite getDepVals_fresh_cons | rewrite getDepVals_fresh_nil ]
  | getDepVals_reuse =>
      apply (wp_change m m1 s Q eq_refl);
      first [ rewrite getDepVals_reuse_cons | rewrite getDepVals_reuse_nil ]
  | _computed_read => apply (wp_change m m1 s Q eq_refl); rewrite _computed_read_S
  | checkIfRecalculationNeededDeeply_rec =>
      apply (wp_change m m1 s Q eq_refl); rewrite check_rec_S
  | registerOnGraph_rec =>
      apply (wp_change m m1 s Q eq_refl); rewrite registerOnGraph_rec_S
  | unregisterFromGraph_rec =>
      apply (wp_change m m1 s Q eq_refl); rewrite unregisterFromGraph_rec_S
  | __flush_internals =>
      apply (wp_change m m1 s Q eq_refl); rewrite __flush_internals_S
  | __flush_loop => apply (wp_change m m1 s Q eq_refl); rewrite __flush_loop_S
  | run_op =>
      lazymatch m1 with
      | run_op ?v (Batch ?fn) =>
          apply (wp_change m (batch v (for_of fn (run_op v))) s Q eq_refl)
      | _ =>
          let m2 := eval cbv beta iota delta [run_op] in m1 in
          apply (wp_change m m2 s Q eq_refl)
      end
  | _ =>
      let m2 := eval cbv beta iota delta [h] in m1 in
      apply (wp_change m m2 s Q eq_refl)
  end.

Lemma wp_bind_post {A B} (m : M A) (k : A → M B) s Q :
  wp m s (bind_post k Q) → wp (bind m k) s Q.
Proof. apply wp_bind. Qed.
Lemma wp_try_finally_post {A} (m : M A) fin s Q :
  wp m s (finally_post fin Q) → wp (try_finally m fin) s Q.
Proof. apply wp_try_finally. Qed.
Lemma wp_on_throw_post {A} (m : M A) cleanup s Q :
  wp m s (on_throw_post cleanup Q) → wp (on_throw m cleanup) s Q.
Proof. apply wp_on_throw. Qed.
Lemma bind_post_Ok {A B} (k : A → M B) Q a s : wp (k a) s Q → bind_post k Q (Ok a) s.
Proof. done. Qed.
Lemma bind_post_Throw {A B} (k : A → M B) Q s : Q Throw s → bind_post k Q Throw s.
Proof. done. Qed.
Lemma bind_post_OutOfFuel {A B} (k : A → M B) Q s :
  Q OutOfFuel s → bind_post k Q OutOfFuel s.
Proof. done. Qed.
Lemma finally_post_intro {A} fin (Q : outcome A → state → Prop) r s :
  wp fin s (finally_block_post Q r) → finally_post fin Q r s.
Proof. done. Qed.
Lemma finally_block_post_Ok {A} (Q : outcome A → state → Prop) r u s :
  Q r s → finally_block_post Q r (Ok u) s.
Proof. done. Qed.
Lemma finally_block_post_Throw {A} (Q : outcome A → state → Prop) r s :
  Q Throw s → finally_block_post Q r Throw s.
Proof. done. Qed.
Lemma finally_block_post_OutOfFuel {A} (Q : outcome A → state → Prop) r s :
  Q OutOfFuel s → finally_block_post Q r OutOfFuel s.
Proof. done. Qed.
Lemma on_throw_post_Ok {A} cleanup (Q : outcome A → state → Prop) a s :
  Q (Ok a) s → on_throw_post cleanup Q (Ok a) s.
Proof. done. Qed.
Lemma on_throw_post_Throw {A} cleanup (Q : outcome A → state → Prop) s s' :
  cleanup s = s' → Q Throw s' → on_throw_post cleanup Q Throw s.
Proof. by intros <-. Qed.
Lemma on_throw_post_OutOfFuel {A} cleanup (Q : outcome A → state → Prop) s :
  Q OutOfFuel s → on_throw_post cleanup Q OutOfFuel s.
Proof. done. Qed.

Ltac wp_if :=
  lazymatch goal with
  | |- wp (if true then _ else _) _ _ => cbv iota
  | |- wp (if false then _ else _) _ _ => cbv iota
  | |- wp (if ?c then _ else _) _ _ =>
      first [ progress resolve_eqb | split_eqb c ];
      wp_if
  | |- _ => idtac
  end.

(** One step of the symbolic run.  States are kept as definitions of the
    context, and the postcondition as a stack of continuations. *)
Ltac wp_step :=
  lazymatch goal with
  | |- wp (bind _ _) _ _ => apply wp_bind_post
  | |- wp (ret _) _ _ => apply wp_ret
  | |- wp throw _ _ => apply wp_throw
  | |- wp out_of_fuel _ _ => apply wp_out_of_fuel
  | |- wp get _ _ => apply wp_get
  | |- wp (modify ?f) ?s ?Q =>
      let s' := norm (f s) in
      let n := fresh "s" in
      pose (n := s');
      apply (wp_modify_to f s n Q); [ vm_compute; reflexivity | ]
  | |- wp (try_finally _ _) _ _ => apply wp_try_finally_post
  | |- wp (on_throw _ _) _ _ => apply wp_on_throw_post
  | |- wp (if ?c then ?m1 else ?m2) ?s ?Q =>
      let c' := eval vm_compute in c in
      lazymatch c' with
      | true => apply (wp_if_true c m1 m2 s Q); [ vm_compute; reflexivity | ]
      | false => apply (wp_if_false c m1 m2 s Q); [ vm_compute; reflexivity | ]
      | _ =>
          let c' := norm_sym c in
          apply (wp_if_eq c c' m1 m2 s Q); [ vm_compute; reflexivity | wp_if ]
      end
  | |- wp ?m ?s ?Q =>
      lazymatch m with
      | match ?x with _ => _ end =>
          let x' := norm x in
          let F := eval pattern x in m in
          lazymatch F with
          | ?G _ =>
              let m' := eval cbv beta iota in (G x') in
              refine (wp_subst G x x' s Q _ (_ : wp m' s Q));
              [ vm_compute; reflexivity | ]
          end
      | let _ := _ in _ =>
          let m' := eval cbv zeta in m in
          apply (wp_change m m' s Q eq_refl)
      | (fun _ => _) _ =>
          let m' := eval cbv beta in m in
          apply (wp_change m m' s Q eq_refl)
      | _ => wp_unfold m s Q
      end
  | |- bind_post _ _ (Ok _) _ => apply bind_post_Ok
  | |- bind_post _ _ Throw _ => apply bind_post_Throw
  | |- bind_post _ _ OutOfFuel _ => apply bind_post_OutOfFuel
  | |- finally_post _ _ _ _ => apply finally_post_intro
  | |- finally_block_post _ _ (Ok _) _ => apply finally_block_post_Ok
  | |- finally_block_post _ _ Throw _ => apply finally_block_post_Throw
  | |- finally_block_post _ _ OutOfFuel _ => apply finally_block_post_OutOfFuel
  | |- on_throw_post _ _ (Ok _) _ => apply on_throw_post_Ok
  | |- on_throw_post ?c ?Q Throw ?s =>
      let s' := norm (c s) in
      let n := fresh "s" in
      pose (n := s');
      apply (on_throw_post_Throw c Q s n); [ vm_compute; reflexivity | ]
  | |- on_throw_post _ _ OutOfFuel _ => apply on_throw_post_OutOfFuel
  end.

Ltac wp_go := repeat wp_step; cbv beta.

Lemma exec_wp v prog (P : state → Prop) :
  wp (run v prog) initial (fun _ s => P s) → P (exec v prog).
Proof. done. Qed.


Lemma wp_elim {A} (m : M A) s (G : outcome A * state → Prop) :
  wp m s (fun r s' => G (r, s')) → G (m s).
Proof. unfold wp. by destruct (m s). Qed.

(** Turn a goal about the result [t] of a run into a weakest precondition. *)
Ltac wp_of t :=
  lazymatch t with
  | ?m ?s => pattern t; apply (wp_elim m s); cbv beta
  end.
(** ** Transition relations *)

Section sat.
Context (T : state → state → Prop) `{!PreOrder T}.

Lemma sat_ret {A} (a : A) : sat T (ret a).
Proof. intros s. apply wp_ret. reflexivity. Qed.
Lemma sat_throw {A} : sat T (@throw A).
Proof. intros s. apply wp_throw. reflexivity. Qed.
Lemma sat_out_of_fuel {A} : sat T (@out_of_fuel A).
Proof. intros s. apply wp_out_of_fuel. reflexivity. Qed.
Lemma sat_get : sat T get.
Proof. intros s. apply wp_get. reflexivity. Qed.
Lemma sat_modify f : (∀ s, T s (f s)) → sat T (modify f).
Proof. intros H s. apply wp_modify, H. Qed.
Lemma sat_bind {A B} (m : M A) (k : A → M B) :
  sat T m → (∀ a, sat T (k a)) → sat T (bind m k).
Proof.
  intros Hm Hk s. apply wp_bind. eapply wp_mono; [ apply Hm | ].
  intros [a| |] s1 H1; simpl; try done.
  eapply wp_mono; [ apply Hk | ]. intros r s2 H2. simpl in *. by etrans.
Qed.
Lemma sat_bind_get {A} (k : state → M A) :
  (∀ s, wp (k s) s (fun _ s' => T s s')) → sat T (bind get k).
Proof. intros Hk s. apply wp_bind, wp_get. apply Hk. Qed.
Lemma sat_for_of {A} (l : list A) body : (∀ x, sat T (body x)) → sat T (for_of l body).
Proof.
  intros Hb. induction l as [|x l IH].
  - apply sat_ret.
  - rewrite for_of_cons. apply sat_bind; auto.
Qed.
Lemma sat_map_M {A B} (f : A → M B) l : (∀ x, sat T (f x)) → sat T (map_M f l).
Proof.
  intros Hf. induction l as [|x l IH]; simpl.
  - apply sat_ret.
  - apply sat_bind; [ auto | intros y ]. apply sat_bind; [ auto | intros ys ]. apply sat_ret.
Qed.
Lemma sat_fold_M {A B} (f : B → A → M B) b l :
  (∀ b x, sat T (f b x)) → sat T (fold_M f b l).
Proof.
  intros Hf. revert b. induction l as [|x l IH]; intros b; simpl.
  - apply sat_ret.
  - apply sat_bind; auto.
Qed.
Lemma sat_try_finally {A} (m : M A) fin : sat T m → sat T fin → sat T (try_finally m fin).
Proof.
  intros Hm Hf s. apply wp_try_finally. eapply wp_mono; [ apply Hm | ].
  intros r s1 H1. simpl in *. eapply wp_mono; [ apply Hf | ].
  intros [[]| |] s2 H2; simpl in *; by etrans.
Qed.
Lemma sat_on_throw {A} (m : M A) cleanup :
  sat T m → (∀ s, T s (cleanup s)) → sat T (on_throw m cleanup).
Proof.
  intros Hm Hc s. apply wp_on_throw. eapply wp_mono; [ apply Hm | ].
  intros [a| |] s1 H1; simpl in *; try done. etrans; [ done | apply Hc ].
Qed.
End sat.

Lemma recompute_calls_app l1 l2 :
  recompute_calls (l1 ++ l2) = recompute_calls l1 ++ recompute_calls l2.
Proof. apply omap_app. Qed.

Global Instance quiet_preorder : PreOrder quiet.
Proof.
  split.
  - intros s. split; [ done | ]. exists []. by rewrite app_nil_r.
  - intros s1 s2 s3 [H1 (e1 & Ht1 & Hf1)] [H2 (e2 & Ht2 & Hf2)].
    split; [ congruence | ]. exists (e1 ++ e2).
    rewrite Ht2, Ht1, app_assoc. split; [ done | ].
    by rewrite recompute_calls_app, Hf1, Hf2.
Qed.

Create HintDb sat discriminated.

Ltac sat_step :=
  lazymatch goal with
  | |- sat _ (bind _ _) => apply sat_bind; [ try apply _ | | intros ? ]
  | |- sat _ (ret _) => apply sat_ret; apply _
  | |- sat _ throw => apply sat_throw; apply _
  | |- sat _ out_of_fuel => apply sat_out_of_fuel; apply _
  | |- sat _ get => apply sat_get; apply _
  | |- sat _ (for_of _ _) => apply sat_for_of; [ try apply _ | intros ? ]
  | |- sat _ (map_M _ _) => apply sat_map_M; [ try apply _ | intros ? ]
  | |- sat _ (fold_M _ _ _) => apply sat_fold_M; [ try apply _ | intros ? ? ]
  | |- sat _ (try_finally _ _) => apply sat_try_finally; [ try apply _ | | ]
  | |- sat _ (match ?x with _ => _ end) => destruct x
  | |- sat _ (let _ := _ in _) => cbv zeta
  | |- sat _ (modify _) =>
      first [ assumption | solve [ eauto 3 with sat ] | apply sat_modify; intros ? ]
  | |- sat _ ?m =>
      first [ assumption
            | solve [ eauto 3 with sat ]
            | let h := head_of m in unfold h ]
  end.

Lemma quiet_set_cell i c : sat quiet (set_cell i c).
Proof.
  unfold set_cell. apply sat_modify. intros s. split; [ done | ].
  exists []. by rewrite app_nil_r.
Qed.
Lemma quiet_emit d p : sat quiet (emit (EvCompute d p)).
Proof.
  unfold emit. apply sat_modify. intros s. split; [ done | ].
  by exists [EvCompute d p].
Qed.
Lemma quiet_emit_onUpdate d : sat quiet (emit (EvOnUpdate d)).
Proof.
  unfold emit. apply sat_modify. intros s. split; [ done | ].
  by exists [EvOnUpdate d].
Qed.
Global Hint Resolve quiet_set_cell quiet_emit quiet_emit_onUpdate : sat.

Section pull_pass.
Context (T : state → state → Prop) `{!PreOrder T}.
Hypothesis T_update_derived : ∀ i f, sat T (update_derived i f).
Hypothesis T_emit : ∀ d p, sat T (emit (EvCompute d p)).
Hint Resolve T_update_derived T_emit : sat.

Lemma pass_get_derived i : sat T (get_derived i).
Proof. repeat sat_step. Qed.
Lemma pass_get_prevState i : sat T (get_prevState i).
Proof. repeat sat_step. Qed.
Hint Resolve pass_get_derived pass_get_prevState : sat.

Section with_rd.
Context (rd : impl → nat → M Z) (Hrd : ∀ v i, sat T (rd v i)).

Lemma pass_get_state v i : sat T (get_state v (rd v) i).
Proof. unfold get_state. destruct v; repeat sat_step. Qed.
Lemma pass_tracked_read v i : sat T (tracked_read (rd v) i).
Proof. repeat sat_step. Qed.
Hint Resolve pass_get_state pass_tracked_read : sat.
Lemma pass_getDepVals_fresh v ds i prev curr :
  sat T (getDepVals_fresh v (rd v) ds i prev curr).
Proof.
  revert i prev curr. induction ds as [|dep ds IH]; intros i prev curr.
  - rewrite getDepVals_fresh_nil. sat_step.
  - rewrite getDepVals_fresh_cons. repeat sat_step.
Qed.
Lemma pass_getDepVals_reuse v this ds i : sat T (getDepVals_reuse v (rd v) this ds i).
Proof.
  revert i. induction ds as [|dep ds IH]; intros i.
  - rewrite getDepVals_reuse_nil. sat_step.
  - rewrite getDepVals_reuse_cons. repeat sat_step.
Qed.
Hint Resolve pass_getDepVals_fresh pass_getDepVals_reuse : sat.
Lemma pass_getDepVals v this : sat T (getDepVals v (rd v) this).
Proof. unfold getDepVals. destruct v; repeat sat_step. Qed.
Lemma pass_call_fn this p : sat T (call_fn this p).
Proof. repeat sat_step. Qed.
Hint Resolve pass_getDepVals pass_call_fn : sat.
Lemma pass_computed_callback v this : sat T (computed_callback v (rd v) this).
Proof. unfold computed_callback. destruct v; repeat sat_step. Qed.
End with_rd.

Lemma pass_computed_read v fuel this : sat T (_computed_read v fuel this).
Proof.
  revert v this. induction fuel as [|fuel IH]; intros v this.
  - simpl. sat_step.
  - rewrite _computed_read_S. cbv zeta.
    pose proof (pass_computed_callback (fun v => _computed_read v fuel) IH v).
    pose proof (pass_tracked_read (fun v => _computed_read v fuel) IH v).
    repeat sat_step.
Qed.
Lemma pass__computed v this : sat T (_computed v this).
Proof. pose proof pass_computed_read. repeat sat_step. Qed.
Lemma pass_state_of v i : sat T (state_of v i).
Proof.
  unfold state_of. sat_step; [ sat_step | ].
  apply (pass_get_state (fun v => _computed_read v (depth a))).
  intros. apply pass_computed_read.
Qed.
End pull_pass.

Lemma quiet_update_derived i f : sat quiet (update_derived i f).
Proof. unfold update_derived. repeat sat_step. Qed.
Global Hint Resolve quiet_update_derived : sat.

Lemma quiet__computed v this : sat quiet (_computed v this).
Proof. apply pass__computed; auto with sat; apply _. Qed.

Global Instance tick_preorder : PreOrder tick.
Proof.
  split.
  - intros s. split; [ done | ]. exists []. rewrite app_nil_r.
    split; [ done | ]. split; [ constructor | ]. intros d Hd. by apply elem_of_nil in Hd.
  - intros s1 s2 s3 [H1 (e1 & Ht1 & Hn1 & Hv1)] [H2 (e2 & Ht2 & Hn2 & Hv2)].
    split; [ set_solver | ]. exists (e1 ++ e2).
    rewrite Ht2, Ht1, app_assoc. split; [ done | ].
    rewrite recompute_calls_app. split.
    + apply NoDup_app. split; [ done | ]. split; [ | done ].
      intros d Hd1 Hd2. apply Hv1 in Hd1. apply Hv2 in Hd2. tauto.
    + intros d [Hd|Hd]%elem_of_app.
      * apply Hv1 in Hd. set_solver.
      * apply Hv2 in Hd. set_solver.
Qed.

Lemma quiet_tick s s' : quiet s s' → tick s s'.
Proof.
  intros [Hs (evs & Ht & Hr)].
  assert (__depsThatHaveWrittenThisTick s' = __depsThatHaveWrittenThisTick s) as Hv
    by (by inversion Hs).
  split; [ by rewrite Hv | ]. exists evs. rewrite Hr.
  split; [ done | ]. split; [ constructor | ]. intros d Hd. by apply elem_of_nil in Hd.
Qed.

Lemma sat_weaken {A} (T T' : state → state → Prop) (m : M A) :
  (∀ s s', T s s' → T' s s') → sat T m → sat T' m.
Proof. intros HT Hm s. eapply wp_mono; [ apply Hm | ]. simpl. auto. Qed.

Lemma tick_same f :
  (∀ s, __depsThatHaveWrittenThisTick s ⊆ __depsThatHaveWrittenThisTick (f s)) →
  (∀ s, trace (f s) = trace s) →
  sat tick (modify f).
Proof.
  intros Hv Ht. apply sat_modify. intros s. split; [ apply Hv | ].
  exists []. rewrite Ht, app_nil_r. split; [ done | ].
  split; [ constructor | ]. intros d Hd. by apply elem_of_nil in Hd.
Qed.

Lemma quiet_recompute_rest v this :
  sat quiet
    (match v with
     | Allocating =>
         update_derived this (fun d => Derived.set_prevState (Derived._cachedState d) d) >>
         let* r := _computed v this in
         update_derived this (Derived.set_cachedState (Some r)) >>
         emit (EvOnUpdate this)
     | Reusing => _computed v this >> emit (EvOnUpdate this)
     end).
Proof. pose proof quiet__computed. destruct v; repeat sat_step. Qed.

Lemma recompute_calls_itself v this s :
  wp (recompute v this) s (fun _ s' =>
    sched_of s' = sched_of s ∧
    ∃ evs, trace s' = trace s ++ evs ∧ recompute_calls evs = [this]).
Proof.
  assert (recompute v this = (emit (EvRecompute this) >> match v with
     | Allocating =>
         update_derived this (fun d => Derived.set_prevState (Derived._cachedState d) d) >>
         let* r := _computed v this in
         update_derived this (Derived.set_cachedState (Some r)) >>
         emit (EvOnUpdate this)
     | Reusing => _computed v this >> emit (EvOnUpdate this)
     end)) as -> by (by destruct v).
  apply wp_bind. unfold emit. apply wp_modify.
  eapply wp_mono; [ apply quiet_recompute_rest | ].
  intros r s' [Hs (evs & Ht & Hr)]. simpl in *.
  split; [ done | ]. exists (EvRecompute this :: evs).
  rewrite Ht. simpl. rewrite <- app_assoc. simpl. by rewrite Hr.
Qed.

Lemma tick__flush_internals v fuel l : sat tick (__flush_internals v fuel l).
Proof.
  revert l. induction fuel as [|fuel IH]; intros l.
  - simpl. sat_step.
  - rewrite __flush_internals_S. apply sat_for_of; [ apply _ | ]. intros derived s.
    apply wp_bind, wp_get.
    destruct (Set_has _ derived) eqn:Hhas.
    { apply wp_ret. reflexivity. }
    apply bool_decide_eq_false in Hhas.
    apply wp_bind, wp_modify. apply wp_bind.
    eapply wp_mono; [ apply recompute_calls_itself | ].
    intros r s2 [Hs (evs & Ht & Hr)]. simpl in *.
    assert (Htick : tick s s2).
    { assert (__depsThatHaveWrittenThisTick s2 =
              {[derived]} ∪ __depsThatHaveWrittenThisTick s) as Hv
        by (by inversion Hs).
      split.
      - rewrite Hv. set_solver.
      - exists evs. split; [ done | ]. rewrite Hr.
        split; [ apply NoDup_singleton | ].
        intros d ->%list_elem_of_singleton. rewrite Hv. set_solver. }
    destruct r as [[]| |]; try done.
    eapply wp_mono.
    { assert (Hrest : sat tick (__notifyDerivedListeners derived >>
        let* s := get in
        match __derivedToStore s !! derived with
        | Some stores =>
            for_of stores (fun store =>
              let* s := get in
              match __storeToDerived s !! store with
              | Some (d0 :: ds) => __flush_internals v fuel (d0 :: ds)
              | _ => ret tt
              end)
        | None => ret tt
        end)) by repeat sat_step.
      apply Hrest. }
    intros r s3 H3. simpl in *. by etrans.
Qed.

Lemma tick_set_cell i c : sat tick (set_cell i c).
Proof. unfold set_cell. by apply tick_same. Qed.
Global Hint Resolve tick_set_cell tick__flush_internals : sat.

Lemma tick_get_store i : sat tick (get_store i).
Proof. repeat sat_step. Qed.
Global Hint Resolve tick_get_store : sat.

Lemma tick__flush_loop v fuel : sat tick (__flush_loop v fuel).
Proof.
  induction fuel as [|fuel IH].
  - simpl. sat_step.
  - rewrite __flush_loop_S.
    assert (H1 : sat tick (modify (set_pendingUpdates []))) by (by apply tick_same).
    assert (H2 : ∀ store, sat tick (modify (fun s =>
      set_depsThatHaveWrittenThisTick ({[store]} ∪ __depsThatHaveWrittenThisTick s) s))).
    { intros store. apply tick_same; [ | done ]. intros s. simpl. set_solver. }
    repeat sat_step.
Qed.

Lemma events_since_app s s' evs : trace s' = trace s ++ evs → events_since s s' = evs.
Proof. intros H. unfold events_since. rewrite H. by rewrite drop_app_length. Qed.

(** ** The runtime's reads of dependencies *)

Global Instance cell_le_preorder : PreOrder cell_le.
Proof.
  split.
  - by intros [].
  - intros [] [] []; simpl; try done. intros (?&?&?) (?&?&?).
    repeat split; try congruence. auto.
Qed.

Lemma derived_at_Some s i d : derived_at s i = Some d ↔ cells s !! i = Some (CDerived d).
Proof.
  unfold derived_at. destruct (cells s !! i) as [[]|]; split; intros; simplify_eq; done.
Qed.

Lemma cells_le_derived s s' i d :
  Forall2 cell_le (cells s) (cells s') → derived_at s i = Some d →
  ∃ d', derived_at s' i = Some d' ∧ cell_le (CDerived d) (CDerived d').
Proof.
  intros Hc Hd%derived_at_Some.
  destruct (Forall2_lookup_l _ _ _ _ _ Hc Hd) as (c' & Hc' & Hle).
  destruct c'; try done. exists d0. split; [ by apply derived_at_Some | done ].
Qed.

Lemma cells_le_derived_inv s s' i d' :
  Forall2 cell_le (cells s) (cells s') → derived_at s' i = Some d' →
  ∃ d, derived_at s i = Some d ∧ cell_le (CDerived d) (CDerived d').
Proof.
  intros Hc Hd%derived_at_Some.
  destruct (Forall2_lookup_r _ _ _ _ _ Hc Hd) as (c & Hc' & Hle).
  destruct c; try done. exists d. split; [ by apply derived_at_Some | done ].
Qed.

Lemma cells_le_wf s s' : Forall2 cell_le (cells s) (cells s') → wf s → wf s'.
Proof.
  intros Hc Hwf i c' Hi.
  destruct (Forall2_lookup_r _ _ _ _ _ Hc Hi) as (c & Hc' & Hle).
  specialize (Hwf i c Hc'). destruct c, c'; try done. simpl in *.
  destruct Hle as (-> & _). done.
Qed.

Lemma compute_ok_le s s' d p :
  Forall2 cell_le (cells s) (cells s') → compute_ok s' d p → compute_ok s d p.
Proof.
  intros Hc (dd' & Hd' & Hp).
  destruct (cells_le_derived_inv _ _ _ _ Hc Hd') as (dd & Hd & _ & _ & Hf).
  exists dd. split; [ done | ]. auto.
Qed.

Lemma pulled_event_le s s' n n' e :
  Forall2 cell_le (cells s) (cells s') → n' ≤ n → pulled_event s' n' e → pulled_event s n e.
Proof.
  intros Hc Hn. destruct e; simpl; try done. intros [? ?].
  split; [ lia | by eapply compute_ok_le ].
Qed.

Lemma cells_le_refl l : Forall2 cell_le l l.
Proof. apply Forall_Forall2_diag, Forall_forall. intros. reflexivity. Qed.

Lemma cells_le_trans l1 l2 l3 :
  Forall2 cell_le l1 l2 → Forall2 cell_le l2 l3 → Forall2 cell_le l1 l3.
Proof. apply Forall2_trans. intros ???. apply transitivity. Qed.

Global Instance below_preorder n : PreOrder (below n).
Proof.
  split.
  - intros s. apply mkBelow.
    + done.
    + apply cells_le_refl.
    + done.
    + done.
    + exists []. by rewrite app_nil_r.
  - intros s1 s2 s3 [Hs1 Hc1 Hf1 Ht1 (e1 & He1 & Hp1)] [Hs2 Hc2 Hf2 Ht2 (e2 & He2 & Hp2)].
    apply mkBelow.
    + congruence.
    + by eapply cells_le_trans.
    + intros j Hj. rewrite Hf2, Hf1; done.
    + intros j st Hj. auto.
    + exists (e1 ++ e2). rewrite He2, He1, app_assoc. split; [ done | ].
      apply Forall_app. split; [ done | ].
      eapply Forall_impl; [ done | ]. intros e. by apply pulled_event_le.
Qed.

Lemma below_mono n n' s s' : n ≤ n' → below n s s' → below n' s s'.
Proof.
  intros Hn [Hs Hc Hf Ht (e & He & Hp)]. apply mkBelow.
  - done.
  - done.
  - intros j Hj. apply Hf. lia.
  - done.
  - exists e. split; [ done | ]. eapply Forall_impl; [ apply Hp | ].
    intros ev. apply pulled_event_le; [ apply cells_le_refl | done ].
Qed.

Lemma below_wf n s s' : below n s s' → wf s → wf s'.
Proof. intros [? Hc ? ? ?]. by apply cells_le_wf. Qed.

Global Instance reads_preorder i : PreOrder (reads i).
Proof.
  split.
  - intros s. apply mkReads.
    + done.
    + apply cells_le_refl.
    + done.
    + done.
    + eauto.
    + exists []. by rewrite app_nil_r.
  - intros s1 s2 s3 [Hs1 Hc1 Hf1 Ht1 Hk1 (e1 & He1 & Hp1)] [Hs2 Hc2 Hf2 Ht2 Hk2 (e2 & He2 & Hp2)].
    apply mkReads.
    + congruence.
    + by eapply cells_le_trans.
    + intros j Hj. rewrite Hf2, Hf1; done.
    + intros j st Hj. auto.
    + intros d Hd. destruct (Hk1 d Hd) as (d1 & Hd1 & Heq1).
      destruct (Hk2 d1 Hd1) as (d2 & Hd2 & Heq2). exists d2. split; [ done | congruence ].
    + exists (e1 ++ e2). rewrite He2, He1, app_assoc. split; [ done | ].
      apply Forall_app. split; [ done | ].
      eapply Forall_impl; [ done | ]. intros e. by apply pulled_event_le.
Qed.

Lemma below_reads i s s' : below i s s' → reads i s s'.
Proof.
  intros [Hs Hc Hf Ht He]. apply mkReads.
  - done.
  - done.
  - intros j Hj. apply Hf. lia.
  - done.
  - intros d Hd. exists d. split; [ | done ].
    unfold derived_at in *. by rewrite Hf.
  - done.
Qed.

Lemma reads_below i s s' : reads i s s' → below (S i) s s'.
Proof.
  intros [Hs Hc Hf Ht Hk (e & He & Hp)]. apply mkBelow.
  - done.
  - done.
  - intros j Hj. apply Hf. lia.
  - done.
  - exists e. split; [ done | ]. eapply Forall_impl; [ apply Hp | ].
    intros ev. apply pulled_event_le; [ apply cells_le_refl | lia ].
Qed.

Ltac solve_oof :=
  intros;
  first
    [ discriminate
    | intros ?; discriminate
    | match goal with
      | H : _ → @OutOfFuel _ ≠ OutOfFuel |- _ =>
          exfalso; apply H; [ first [ assumption | lia ] | reflexivity ]
      | H : @OutOfFuel _ ≠ OutOfFuel |- _ => by destruct H
      end ].

Lemma wp_seq {A B} (T : state → state → Prop) `{!Transitive T}
    (m : M A) (k : A → M B) s
    (Ψ : outcome A → state → Prop) (Φ : outcome B → state → Prop) :
  wp m s (fun r s1 => T s s1 ∧ Ψ r s1) →
  (∀ a s1, T s s1 → Ψ (Ok a) s1 → wp (k a) s1 (fun r s' => T s1 s' ∧ Φ r s')) →
  (∀ s1, Ψ Throw s1 → Φ Throw s1) →
  (∀ s1, Ψ OutOfFuel s1 → Φ OutOfFuel s1) →
  wp (bind m k) s (fun r s' => T s s' ∧ Φ r s').
Proof.
  intros Hm Hk Ht Ho. apply wp_bind. eapply wp_mono; [ apply Hm | ].
  intros [a| |] s1 [HT HΨ]; simpl; [ | auto | auto ].
  eapply wp_mono; [ by apply Hk | ]. intros r s' [HT' HΦ]. simpl in *.
  split; [ by etrans | done ].
Qed.

Lemma wp_get_derived i s (Q : outcome Derived.t → state → Prop) :
  match derived_at s i with
  | Some d => Q (Ok d) s
  | None => Q Throw s
  end →
  wp (get_derived i) s Q.
Proof.
  unfold get_derived, derived_at. intros H. apply wp_bind, wp_get.
  destruct (cells s !! i) as [[]|]; by (apply wp_ret || apply wp_throw).
Qed.

Lemma wp_update_derived i f s (Q : outcome unit → state → Prop) :
  match derived_at s i with
  | Some d => Q (Ok tt) (set_cells (<[i:=CDerived (f d)]> (cells s)) s)
  | None => Q Throw s
  end →
  wp (update_derived i f) s Q.
Proof.
  intros H. unfold update_derived. apply wp_bind, wp_get_derived.
  destruct (derived_at s i); [ | done ]. by apply wp_modify.
Qed.

Lemma cells_le_insert s i d d' :
  derived_at s i = Some d → cell_le (CDerived d) (CDerived d') →
  Forall2 cell_le (cells s) (<[i:=CDerived d']> (cells s)).
Proof.
  intros Hd%derived_at_Some Hle.
  apply Forall2_same_length_lookup. split; [ by rewrite length_insert | ].
  intros j x y Hx Hy. destruct (decide (i = j)) as [->|Hne].
  - rewrite list_lookup_insert_eq in Hy by (by eapply lookup_lt_Some). by simplify_eq.
  - rewrite list_lookup_insert_ne in Hy by done. simplify_eq. reflexivity.
Qed.

Lemma below_set_derived n s i d d' :
  derived_at s i = Some d → cell_le (CDerived d) (CDerived d') → i < n →
  below n s (set_cells (<[i:=CDerived d']> (cells s)) s).
Proof.
  intros Hd Hle Hi. apply mkBelow; simpl.
  - done.
  - by eapply cells_le_insert.
  - intros j Hj. apply list_lookup_insert_ne. lia.
  - intros j st Hj. rewrite list_lookup_insert_ne; [ done | ].
    intros ->. apply derived_at_Some in Hd. congruence.
  - exists []. by rewrite app_nil_r.
Qed.

Lemma derived_at_insert s i c :
  i < length (cells s) →
  derived_at (set_cells (<[i:=CDerived c]> (cells s)) s) i = Some c.
Proof. intros Hi. unfold derived_at. simpl. by rewrite list_lookup_insert_eq. Qed.

Lemma derived_at_lt s i d : derived_at s i = Some d → i < length (cells s).
Proof. intros Hd%derived_at_Some. by eapply lookup_lt_Some. Qed.

Lemma reads_set_derived s i d d' :
  derived_at s i = Some d → scalars d' = scalars d →
  reads i s (set_cells (<[i:=CDerived d']> (cells s)) s).
Proof.
  intros Hd Hsc. apply mkReads; simpl.
  - done.
  - eapply cells_le_insert; [ done | ]. simpl. unfold scalars in Hsc.
    repeat split; congruence.
  - intros j Hj. apply list_lookup_insert_ne. lia.
  - intros j st Hj. rewrite list_lookup_insert_ne; [ done | ].
    intros ->. apply derived_at_Some in Hd. congruence.
  - intros d0 Hd0. exists d'. split; [ | congruence ].
    apply derived_at_insert. by eapply derived_at_lt.
  - exists []. by rewrite app_nil_r.
Qed.

Lemma wp_get_prevState i s (Q : outcome value → state → Prop) :
  match cells s !! i with
  | Some (CStore st) => Q (Ok (Some (Store.prevState st))) s
  | Some (CDerived d) => Q (Ok (Derived.prevState d)) s
  | _ => Q Throw s
  end →
  wp (get_prevState i) s Q.
Proof.
  intros H. unfold get_prevState. apply wp_bind, wp_get.
  destruct (cells s !! i) as [[]|]; by (apply wp_ret || apply wp_throw).
Qed.

Lemma get_state_below v f j n s :
  pull_ok v f →
  wf s → j < n →
  wp (get_state v (_computed_read v f) j) s
    (fun r s' => below n s s' ∧ (j < f → r ≠ OutOfFuel)).
Proof.
  intros IH Hwf Hj. unfold get_state. apply wp_bind, wp_get.
  destruct (cells s !! j) as [[st|d|]|] eqn:Hc.
  - apply wp_ret. split; [ reflexivity | done ].
  - assert (Hpull : wp (_computed_read v f j) s
      (fun r s' => below n s s' ∧ (j < f → r ≠ OutOfFuel))).
    { eapply wp_mono; [ by apply IH | ]. intros r s' [Hb Hr]. simpl in *.
      split; [ | done ]. eapply below_mono; [ | done ]. lia. }
    destruct v; [ | done ].
    eapply wp_seq; [ apply _ | apply Hpull | | done | done ].
    intros a s1 Hb _. apply wp_bind, wp_update_derived.
    destruct (derived_at s1 j) as [d1|] eqn:Hd1; [ | split; [ reflexivity | done ] ].
    apply wp_ret. split; [ | done ].
    by eapply below_set_derived.
  - apply wp_throw. split; [ reflexivity | done ].
  - apply wp_throw. split; [ reflexivity | done ].
Qed.

Lemma tracked_read_below v f j n s :
  pull_ok v f →
  wf s → j < n →
  wp (tracked_read (_computed_read v f) j) s
    (fun r s' => below n s s' ∧ (j < f → r ≠ OutOfFuel)).
Proof.
  intros IH Hwf Hj. unfold tracked_read. apply wp_bind, wp_get.
  destruct (cells s !! j) as [[st|d|]|] eqn:Hc.
  - apply wp_ret. split; [ reflexivity | done ].
  - eapply wp_mono; [ by apply IH | ]. intros r s' [Hb Hr]. simpl in *.
    split; [ | done ]. eapply below_mono; [ | done ]. lia.
  - apply wp_throw. split; [ reflexivity | done ].
  - apply wp_throw. split; [ reflexivity | done ].
Qed.

Lemma map_M_tracked_read_below v f ds n s :
  pull_ok v f →
  wf s → Forall (fun dep => dep < n) ds →
  wp (map_M (tracked_read (_computed_read v f)) ds) s
    (fun r s' => below n s s' ∧ (n ≤ f → r ≠ OutOfFuel)).
Proof.
  intros IH Hwf Hds. revert s Hwf. induction Hds as [|dep ds Hdep Hds IHds]; intros s Hwf.
  - apply wp_ret. split; [ reflexivity | done ].
  - rewrite map_M_cons.
    eapply wp_seq; [ apply _ | by apply tracked_read_below | | | ].
    + intros a s1 Hb Ha.
      eapply wp_seq; [ apply _ | apply IHds; by eapply below_wf | | done | done ].
      intros ys s2 Hb2 Hys. apply wp_ret. split; [ reflexivity | done ].
    + done.
    + simpl. intros s1 H Hn. exfalso. apply H; [ lia | done ].
Qed.

Lemma getDepVals_fresh_below v f i ds k prev curr s :
  pull_ok v f →
  wf s → Forall (fun dep => dep < i) ds →
  wp (getDepVals_fresh v (_computed_read v f) ds k prev curr) s
    (fun r s' => below i s s' ∧ (i ≤ f → r ≠ OutOfFuel)).
Proof.
  intros IH Hwf Hds. revert k prev curr s Hwf.
  induction Hds as [|dep ds Hdep Hds IHds]; intros k prev curr s Hwf.
  - apply wp_ret. split; [ reflexivity | done ].
  - rewrite getDepVals_fresh_cons. apply wp_bind, wp_get_prevState.
    assert (Hrest : ∀ p, wp
      (let prevDepVals := <[k:=p]> prev in
       let* c := get_state v (_computed_read v f) dep in
       let currDepVals := <[k:=Some c]> curr in
       getDepVals_fresh v (_computed_read v f) ds (S k) prevDepVals currDepVals) s
      (fun r s' => below i s s' ∧ (i ≤ f → r ≠ OutOfFuel))).
    { intros p. cbv zeta.
      eapply wp_seq; [ apply _ | by apply get_state_below | | done | ].
      * intros c s1 Hb Hc. apply IHds. by eapply below_wf.
      * simpl. intros s1 H Hn. exfalso. apply H; [ lia | done ]. }
    destruct (cells s !! dep) as [[]|]; try apply Hrest; (split; [ reflexivity | done ]).
Qed.

Lemma reads_wf i s s' : reads i s s' → wf s → wf s'.
Proof. intros [? Hc ? ? ? ?]. by apply cells_le_wf. Qed.

Lemma reads_update_arrays i g s :
  (∀ d, scalars (g d) = scalars d) →
  wp (update_derived i g) s (fun r s' => reads i s s' ∧ r ≠ OutOfFuel).
Proof.
  intros Hg. apply wp_update_derived.
  destruct (derived_at s i) as [d|] eqn:Hd.
  - split; [ | done ]. by eapply reads_set_derived.
  - split; [ reflexivity | done ].
Qed.

Lemma getDepVals_reuse_reads v f i ds k s :
  pull_ok v f →
  wf s → Forall (fun dep => dep < i) ds →
  wp (getDepVals_reuse v (_computed_read v f) i ds k) s
    (fun r s' => reads i s s' ∧ (i ≤ f → r ≠ OutOfFuel)).
Proof.
  intros IH Hwf Hds. revert k s Hwf.
  induction Hds as [|dep ds Hdep Hds IHds]; intros k s Hwf.
  - apply wp_ret. split; [ reflexivity | done ].
  - rewrite getDepVals_reuse_cons. apply wp_bind, wp_get_prevState.
    assert (Hrest : ∀ p, wp
      (update_derived i (fun d =>
         Derived.set_prevDepValsArray (<[k:=p]> (Derived._prevDepValsArray d)) d) >>
       let* c := get_state v (_computed_read v f) dep in
       update_derived i (fun d =>
         Derived.set_currDepValsArray (<[k:=Some c]> (Derived._currDepValsArray d)) d) >>
       getDepVals_reuse v (_computed_read v f) i ds (S k)) s
      (fun r s' => reads i s s' ∧ (i ≤ f → r ≠ OutOfFuel))).
    { intros p.
      eapply wp_seq; [ apply _ | by apply reads_update_arrays | | done | done ].
      intros _ s1 Hr1 _.
      eapply (wp_seq (reads i) _ _ _ (fun r _ => dep < f → r ≠ OutOfFuel)); [ | | done | ].
      - eapply wp_mono; [ apply (get_state_below v f dep i); [ done | by eapply reads_wf | done ] | ].
        intros r s2 [Hb Hr]. split; [ by apply below_reads | exact Hr ].
      - intros c s2 Hr2 _.
        eapply wp_seq; [ apply _ | by apply reads_update_arrays | | done | done ].
        intros _ s3 Hr3 _. apply IHds.
        eapply reads_wf; [ done | ]. eapply reads_wf; [ done | ]. by eapply reads_wf.
      - simpl. intros s2 H Hn. exfalso. apply H; [ lia | done ]. }
    destruct (cells s !! dep) as [[]|]; try apply Hrest; (split; [ reflexivity | done ]).
Qed.

Lemma reads_derived i s s' d :
  reads i s s' → derived_at s i = Some d →
  ∃ d', derived_at s' i = Some d' ∧ scalars d' = scalars d.
Proof. intros [? ? ? ? Hk ?]. apply Hk. Qed.

Lemma getDepVals_spec v f i d s :
  pull_ok v f →
  wf s → derived_at s i = Some d →
  wp (getDepVals v (_computed_read v f) i) s
    (fun r s' =>
       reads i s s' ∧ (i ≤ f → r ≠ OutOfFuel) ∧
       ∀ p, r = Ok p → props_for v d p).
Proof.
  intros IH Hwf Hd.
  assert (Hdeps : Forall (fun dep => dep < i) (Derived.deps d)).
  { apply derived_at_Some in Hd. apply (Hwf _ _ Hd). }
  unfold getDepVals. destruct v.
  - apply wp_bind, wp_get_derived. rewrite Hd. cbv zeta.
    apply wp_bind. eapply wp_mono; [ by eapply (getDepVals_fresh_below _ f i) | ].
    intros r s1 [Hb%below_reads Hr]. simpl in Hr.
    destruct r as [[prev curr]| |]; [ | split; [ assumption | split; solve_oof ] .. ].
    destruct (reads_derived _ _ _ _ Hb Hd) as (d1 & Hd1 & Hs1).
    apply wp_bind, wp_update_derived. rewrite Hd1.
    set (d2 := Derived.set_lastSeenDepValues (OwnArray curr) d1).
    assert (Hr2 : reads i s1 (set_cells (<[i:=CDerived d2]> (cells s1)) s1))
      by (by eapply reads_set_derived).
    apply wp_bind, wp_get_derived.
    rewrite derived_at_insert by (by eapply derived_at_lt).
    apply wp_ret. split; [ by etrans | ]. split; [ done | ].
    intros p [= <-]. unfold props_for. simpl.
    unfold scalars in Hs1. simplify_eq.
    repeat split; try congruence.
    + intros Hf. by replace (Derived._isFirstRun d1) with true by congruence.
    + intros Hf. by replace (Derived._isFirstRun d1) with false by congruence.
  - apply wp_bind, wp_get_derived. rewrite Hd.
    apply wp_bind. eapply wp_mono; [ by eapply (getDepVals_reuse_reads _ f i) | ].
    intros r s1 [Hb Hr]. simpl in Hr.
    destruct r as [[]| |]; [ | split; [ assumption | split; solve_oof ] .. ].
    destruct (reads_derived _ _ _ _ Hb Hd) as (d1 & Hd1 & Hs1).
    apply wp_bind, wp_update_derived. rewrite Hd1.
    set (d2 := Derived.set_lastSeenDepValues SameAsCurrDepValsArray d1).
    assert (Hr2 : reads i s1 (set_cells (<[i:=CDerived d2]> (cells s1)) s1))
      by (by eapply reads_set_derived).
    apply wp_bind, wp_get_derived.
    rewrite derived_at_insert by (by eapply derived_at_lt).
    apply wp_ret. split; [ by etrans | ]. split; [ done | ].
    intros p [= <-]. unfold props_for. simpl.
    unfold scalars in Hs1. simplify_eq.
    repeat split; try congruence.
    + intros Hf. by replace (Derived._isFirstRun d1) with true by congruence.
    + intros Hf. by replace (Derived._isFirstRun d1) with false by congruence.
Qed.

Lemma wp_emit e s (Q : outcome unit → state → Prop) :
  Q (Ok tt) (set_trace (trace s ++ [e]) s) → wp (emit e) s Q.
Proof. intros H. by apply wp_modify. Qed.

Lemma computes_app d l1 l2 : computes d (l1 ++ l2) = computes d l1 ++ computes d l2.
Proof. unfold computes. by rewrite omap_app. Qed.

Lemma computes_pulled s n d evs :
  Forall (pulled_event s n) evs → n ≤ d → computes d evs = [].
Proof.
  intros H Hn. induction H as [|e evs He _ IH]; [ done | ].
  change (e :: evs) with ([e] ++ evs). rewrite computes_app, IH, app_nil_r.
  destruct e as [d' p| |]; simpl in He; try done.
  destruct He as [Hlt _]. unfold computes. simpl.
  destruct (decide (d' = d)); [ lia | done ].
Qed.

Lemma below_emit_compute n s d p :
  d < n → compute_ok s d p →
  below n s (set_trace (trace s ++ [EvCompute d p]) s).
Proof.
  intros Hd Hok. apply mkBelow; simpl.
  - done.
  - apply cells_le_refl.
  - done.
  - done.
  - exists [EvCompute d p]. split; [ done | ]. by repeat constructor.
Qed.

Lemma props_compute_ok v s j d p :
  derived_at s j = Some d → props_for v d p → compute_ok s j p.
Proof. intros Hd (_ & _ & H). by exists d. Qed.

Lemma below_events n s s' :
  below n s s' → ∃ evs, events_since s s' = evs ∧ trace s' = trace s ++ evs ∧
                        ∀ d, n ≤ d → computes d evs = [].
Proof.
  intros [_ _ _ _ (evs & Ht & Hp)]. exists evs.
  split; [ by apply events_since_app | ]. split; [ done | ].
  intros d Hd. by eapply computes_pulled.
Qed.

Lemma reads_events i s s' :
  reads i s s' → ∃ evs, events_since s s' = evs ∧ trace s' = trace s ++ evs ∧
                        ∀ d, i ≤ d → computes d evs = [].
Proof.
  intros [_ _ _ _ _ (evs & Ht & Hp)]. exists evs.
  split; [ by apply events_since_app | ]. split; [ done | ].
  intros d Hd. by eapply computes_pulled.
Qed.

Lemma props_for_scalars v d d' p :
  scalars d' = scalars d → props_for v d p → props_for v d' p.
Proof.
  destruct d, d'. unfold scalars, props_for, pv. simpl. intros [=]. subst.
  by destruct v.
Qed.

Lemma call_fn_spec v j d p s :
  derived_at s j = Some d → props_for v d p →
  wp (call_fn j p) s (fun r s' =>
    s' = set_trace (trace s ++ [EvCompute j p]) s ∧
    match r with
    | Ok z => Derived.fn d p = Return z
    | Throw => Derived.fn d p = Throws
    | OutOfFuel => False
    end).
Proof.
  intros Hd Hp. unfold call_fn. apply wp_bind, wp_get_derived. rewrite Hd.
  apply wp_bind, wp_emit. destruct (Derived.fn d p); by (apply wp_ret || apply wp_throw).
Qed.

Lemma computed_callback_spec v f j d s :
  pull_ok v f → wf s → derived_at s j = Some d →
  wp (computed_callback v (_computed_read v f) j) s (fun r s' =>
    below (S j) s s' ∧ (j ≤ f → r ≠ OutOfFuel) ∧ callback_post v j d s r s').
Proof.
  intros IH Hwf Hd. unfold computed_callback, callback_post. destruct v.
  - apply wp_bind. eapply wp_mono; [ by eapply getDepVals_spec | ].
    intros r s1 (Hrd & Hoof & Hp).
    pose proof (reads_below _ _ _ Hrd) as Hb1.
    destruct (reads_events _ _ _ Hrd) as (evs & He & Ht & Hc).
    destruct r as [p| |]; simpl.
    2,3: rewrite He, Hc by lia; simpl; (split; [ done | split; [ solve_oof | ] ]);
         (split; [ lia | split; [ constructor | intros ? ? [=] ] ]).
    specialize (Hp p eq_refl).
    destruct (reads_derived _ _ _ _ Hrd Hd) as (d1 & Hd1 & Hs1).
    apply wp_bind. eapply wp_mono; [ eapply (call_fn_spec Allocating); [ exact Hd1 | ] | ].
    { by eapply props_for_scalars. }
    intros r s2 [-> Hfn].
    set (s2 := set_trace (trace s1 ++ [EvCompute j p]) s1).
    assert (Hb2 : below (S j) s s2).
    { etrans; [ exact Hb1 | ]. apply below_emit_compute; [ lia | ].
      eapply props_compute_ok; [ exact Hd1 | by eapply props_for_scalars ]. }
    assert (He2 : ∀ s3, trace s3 = trace s2 → computes j (events_since s s3) = [p]).
    { intros s3 H3. rewrite (events_since_app s s3 (evs ++ [EvCompute j p])).
      - rewrite computes_app, Hc by lia. unfold computes. simpl.
        by rewrite decide_True.
      - rewrite H3. simpl. by rewrite Ht, <- app_assoc. }
    assert (Hfd : Derived.fn d1 = Derived.fn d) by (unfold scalars in Hs1; congruence).
    rewrite Hfd in Hfn.
    destruct r as [z| |]; [ | | done ].
    2: { rewrite He2 by done. split; [ done | ]. split; [ solve_oof | ].
         split; [ simpl; lia | ]. split; [ by apply Forall_singleton | intros ? ? [=] ]. }
    apply wp_bind, wp_update_derived.
    change (derived_at s2 j) with (derived_at s1 j). rewrite Hd1.
    apply wp_ret.
    set (d3 := Derived.set_isFirstRun false d1).
    set (s3 := set_cells _ s2).
    assert (Hb3 : below (S j) s2 s3).
    { eapply (below_set_derived _ s2 j d1); [ exact Hd1 | | lia ].
      simpl. done. }
    rewrite He2 by done.
    split; [ by etrans | ]. split; [ solve_oof | ].
    split; [ simpl; lia | ]. split; [ by apply Forall_singleton | ].
    intros rd z' [= <- <-]. exists p, d3. split; [ done | ]. split; [ done | ].
    split; [ done | ]. split.
    { apply (derived_at_insert s2). by eapply derived_at_lt. }
    unfold ran, scalars in *. subst d3. simpl. simplify_eq. by repeat split.
  - apply wp_bind, wp_update_derived. rewrite Hd.
    set (d0 := Derived.set_prevState (Derived._cachedState d) d).
    set (s0 := set_cells _ s).
    assert (Hb0 : below (S j) s s0).
    { eapply (below_set_derived _ s j d); [ exact Hd | done | lia ]. }
    assert (Hd0 : derived_at s0 j = Some d0).
    { apply (derived_at_insert s). by eapply derived_at_lt. }
    assert (Hwf0 : wf s0) by (by eapply below_wf).
    apply wp_bind. eapply wp_mono; [ by eapply getDepVals_spec | ].
    intros r s1 (Hrd & Hoof & Hp).
    pose proof (reads_below _ _ _ Hrd) as Hb1.
    destruct (reads_events _ _ _ Hrd) as (evs & He & Ht & Hc).
    change (trace s0) with (trace s) in Ht.
    assert (He1 : events_since s s1 = evs) by (by apply events_since_app).
    destruct r as [p| |]; simpl.
    2,3: rewrite He1, Hc by lia; simpl; (split; [ by etrans | split; [ solve_oof | ] ]);
         (split; [ lia | split; [ constructor | intros ? ? [=] ] ]).
    specialize (Hp p eq_refl).
    assert (Hp' : props_for Reusing d p) by exact Hp.
    destruct (reads_derived _ _ _ _ Hrd Hd0) as (d1 & Hd1 & Hs1).
    apply wp_bind. eapply wp_mono; [ eapply (call_fn_spec Reusing); [ exact Hd1 | ] | ].
    { by eapply props_for_scalars. }
    intros r s2 [-> Hfn].
    set (s2 := set_trace (trace s1 ++ [EvCompute j p]) s1).
    assert (Hb2 : below (S j) s s2).
    { etrans; [ exact Hb0 | ]. etrans; [ exact Hb1 | ].
      apply below_emit_compute; [ lia | ].
      eapply props_compute_ok; [ exact Hd1 | by eapply props_for_scalars ]. }
    assert (He2 : ∀ s3, trace s3 = trace s2 → computes j (events_since s s3) = [p]).
    { intros s3 H3. rewrite (events_since_app s s3 (evs ++ [EvCompute j p])).
      - rewrite computes_app, Hc by lia. unfold computes. simpl.
        by rewrite decide_True.
      - rewrite H3. simpl. by rewrite Ht, <- app_assoc. }
    assert (Hfd : Derived.fn d1 = Derived.fn d) by (unfold scalars in Hs1; simpl in Hs1; congruence).
    rewrite Hfd in Hfn.
    destruct r as [z| |]; [ | | done ].
    2: { rewrite He2 by done. split; [ done | ]. split; [ solve_oof | ].
         split; [ simpl; lia | ]. split; [ by apply Forall_singleton | intros ? ? [=] ]. }
    apply wp_bind, wp_update_derived.
    change (derived_at s2 j) with (derived_at s1 j). rewrite Hd1.
    set (d3 := Derived.set_isFirstRun false d1).
    set (s3 := set_cells _ s2).
    assert (Hb3 : below (S j) s2 s3).
    { eapply (below_set_derived _ s2 j d1); [ exact Hd1 | | lia ]. simpl. done. }
    assert (Hd3 : derived_at s3 j = Some d3).
    { apply (derived_at_insert s2). by eapply derived_at_lt. }
    apply wp_bind, wp_update_derived. rewrite Hd3.
    set (d4 := Derived.set_cachedState (Some z) d3).
    set (s4 := set_cells _ s3).
    assert (Hb4 : below (S j) s3 s4).
    { eapply (below_set_derived _ s3 j d3); [ exact Hd3 | | lia ]. simpl. done. }
    assert (Hd4 : derived_at s4 j = Some d4).
    { apply (derived_at_insert s3). by eapply derived_at_lt. }
    apply wp_bind, wp_update_derived. rewrite Hd4.
    set (d5 := Derived.set_previousResult (Some z) d4).
    set (s5 := set_cells _ s4).
    assert (Hb5 : below (S j) s4 s5).
    { eapply (below_set_derived _ s4 j d4); [ exact Hd4 | | lia ]. simpl. done. }
    assert (Hd5 : derived_at s5 j = Some d5).
    { apply (derived_at_insert s4). by eapply derived_at_lt. }
    apply wp_ret.
    rewrite He2 by done.
    split; [ etrans; [ exact Hb2 | ]; etrans; [ exact Hb3 | ]; by etrans | ].
    split; [ solve_oof | ].
    split; [ simpl; lia | ]. split; [ by apply Forall_singleton | ].
    intros rd z' [= <- <-]. exists p, d5. split; [ done | ]. split; [ done | ].
    split; [ done | ]. split; [ done | ].
    unfold ran, scalars in *. subst d5 d4 d3 d0. simpl in *. simplify_eq. by repeat split.
Qed.

Lemma run_spec v f j d s :
  pull_ok v f → wf s → derived_at s j = Some d →
  wp (let* (reads, result) := computed_callback v (_computed_read v f) j in
      update_derived j (Derived.set_computed (Some (mkComputation reads result))) >>
      ret result) s
    (fun r s' =>
       below (S j) s s' ∧ (j ≤ f → r ≠ OutOfFuel) ∧
       let ps := computes j (events_since s s') in
       length ps ≤ 1 ∧ Forall (props_for v d) ps ∧
       ∀ z, r = Ok z →
         ∃ p d', ps = [p] ∧ Derived.fn d p = Return z ∧ derived_at s' j = Some d' ∧
                 Derived._computed d' = Some (mkComputation (currDepVals p) z) ∧
                 ran v d z d').
Proof.
  intros IH Hwf Hd. apply wp_bind.
  eapply wp_mono; [ by eapply computed_callback_spec | ].
  intros r s1 (Hb & Hoof & Hlen & Hps & Hok). simpl in Hlen, Hps, Hok.
  destruct r as [[rd z]| |]; simpl.
  2,3: (split; [ done | split; [ solve_oof | ] ]);
       (split; [ done | split; [ done | intros ? [=] ] ]).
  destruct (Hok rd z eq_refl) as (p & d1 & Hp1 & Hfn & -> & Hd1 & Hran).
  apply wp_bind, wp_update_derived. rewrite Hd1. apply wp_ret.
  set (d2 := Derived.set_computed _ d1). set (s2 := set_cells _ s1).
  assert (Hb2 : below (S j) s1 s2).
  { eapply (below_set_derived _ s1 j d1); [ exact Hd1 | | lia ]. simpl. done. }
  change (events_since s s2) with (events_since s s1).
  split; [ by etrans | ]. split; [ solve_oof | ].
  split; [ done | ]. split; [ done | ].
  intros z' [= <-]. exists p, d2. split; [ done | ]. split; [ done | ].
  split; [ apply (derived_at_insert s1); by eapply derived_at_lt | ].
  split; [ done | ].
  unfold ran in *. subst d2. simpl. exact Hran.
Qed.

Lemma events_since_trans s s1 s' evs1 evs2 :
  trace s1 = trace s ++ evs1 → trace s' = trace s1 ++ evs2 →
  events_since s s' = evs1 ++ evs2.
Proof. intros H1 H2. apply events_since_app. by rewrite H2, H1, <- app_assoc. Qed.

Lemma computed_read_spec v f j d s :
  pull_ok v f → wf s → derived_at s j = Some d →
  wp (_computed_read v (S f) j) s (fun r s' =>
    below (S j) s s' ∧ (j ≤ f → r ≠ OutOfFuel) ∧ read_post v j d s r s').
Proof.
  intros IH Hwf Hd. rewrite _computed_read_S. cbv zeta.
  apply wp_bind, wp_get_derived. rewrite Hd.
  assert (Hdeps : Forall (fun dep => dep < j) (Derived.deps d)).
  { apply derived_at_Some in Hd. apply (Hwf _ _ Hd). }
  destruct (Derived._computed d) as [c|] eqn:Hc.
  - apply wp_bind.
    eapply wp_mono; [ by eapply (map_M_tracked_read_below v f _ j) | ].
    intros r s1 [Hb Hoof].
    destruct (below_events _ _ _ Hb) as (evs & He & Ht & Hcs).
    assert (Hb' : below (S j) s s1) by (eapply below_mono; [ | done ]; lia).
    assert (Hj : cells s1 !! j = cells s !! j) by (by apply Hb).
    destruct r as [now| |]; simpl.
    2,3: (split; [ done | split; [ solve_oof | ] ]); unfold read_post;
         rewrite He, Hcs by lia; simpl;
         (split; [ lia | split; [ constructor | intros ? [=] ] ]).
    destruct (same_values _ _).
    + apply wp_ret. split; [ done | ]. split; [ solve_oof | ].
      unfold read_post. rewrite He, Hcs by lia. simpl.
      split; [ lia | ]. split; [ constructor | ].
      intros z [= <-]. left. split; [ done | ]. split; [ done | ]. by exists c.
    + assert (Hd1 : derived_at s1 j = Some d) by (unfold derived_at in *; by rewrite Hj).
      eapply wp_mono; [ eapply run_spec; [ done | by eapply below_wf | exact Hd1 ] | ].
      intros r s2 (Hb2 & Hoof2 & Hpost). simpl in Hpost.
      destruct (below_events _ _ _ Hb2) as (evs2 & He2 & Ht2 & _).
      assert (Hes : computes j (events_since s s2) = computes j (events_since s1 s2)).
      { rewrite (events_since_trans s s1 s2 evs evs2) by done.
        rewrite computes_app, Hcs by lia. by rewrite He2. }
      split; [ by etrans | ]. split; [ done | ].
      unfold read_post. rewrite Hes.
      destruct Hpost as (Hlen & Hps & Hok).
      split; [ done | ]. split; [ done | ].
      intros z Hz. right. by apply Hok.
  - eapply wp_mono; [ by eapply run_spec | ].
    intros r s2 (Hb2 & Hoof2 & Hlen & Hps & Hok). simpl in *.
    split; [ done | ]. split; [ done | ].
    split; [ done | ]. split; [ done | ].
    intros z Hz. right. by apply Hok.
Qed.

Lemma pull_ok_all v f : pull_ok v f.
Proof.
  induction f as [|f IH]; intros j s Hwf.
  - apply wp_out_of_fuel. split; [ reflexivity | lia ].
  - destruct (derived_at s j) as [d|] eqn:Hd.
    + eapply wp_mono; [ by eapply computed_read_spec | ].
      intros r s' (Hb & Hoof & _). simpl. split; [ done | ].
      intros Hj. apply Hoof. lia.
    + rewrite _computed_read_S. cbv zeta. apply wp_bind, wp_get_derived.
      rewrite Hd. split; [ reflexivity | done ].
Qed.

Lemma wf_snoc s c :
  wf s → wf_cell (length (cells s)) c → wf (set_cells (cells s ++ [c]) s).
Proof.
  intros Hwf Hc i c' Hi. simpl in Hi.
  apply lookup_app_Some in Hi as [Hi|[Hlen Hi]]; [ by eapply Hwf | ].
  apply list_lookup_singleton_Some in Hi as [Hi ->].
  by replace i with (length (cells s)) by lia.
Qed.

Lemma wf_insert s i c :
  wf s → wf_cell i c → wf (set_cells (<[i:=c]> (cells s)) s).
Proof.
  intros Hwf Hc j c' Hj. simpl in Hj.
  apply list_lookup_insert_Some in Hj as [(-> & -> & _)|[_ Hj]]; [ done | by eapply Hwf ].
Qed.

Lemma _computed_spec v j d s :
  wf s → derived_at s j = Some d →
  wp (_computed v j) s (fun r s' =>
    below (S j) s s' ∧ r ≠ OutOfFuel ∧ read_post v j d s r s').
Proof.
  intros Hwf Hd. unfold _computed. apply wp_bind, wp_get.
  unfold depth. change (2 + length (cells s)) with (S (S (length (cells s)))).
  eapply wp_mono; [ eapply computed_read_spec; [ apply pull_ok_all | done | done ] | ].
  intros r s' (Hb & Hoof & Hpost). simpl. split; [ done | ]. split; [ | done ].
  apply Hoof. apply derived_at_lt in Hd. lia.
Qed.


Lemma computes_cons_other d e evs :
  (∀ p, e ≠ EvCompute d p) → computes d (e :: evs) = computes d evs.
Proof.
  intros He. unfold computes. simpl. destruct e as [d' p| |]; try done.
  destruct (decide (d' = d)) as [->|]; [ by destruct (He p) | done ].
Qed.


(** ** Symbolic runs of the example programs *)

(** Closes a leaf of a symbolic run: the comparisons the run decided are
    rewritten in the statement, and what is left is closed by evaluation. *)
Ltac leaf :=
  repeat (progress (resolve_eqb; cbv beta iota zeta));
  vm_compute; repeat split; try reflexivity.

(** Runs the next call of the statement. *)
Ltac wp_next :=
  match goal with |- context [ run_op ?v ?o ?s ] => wp_of (run_op v o s) end; wp_go.

Lemma bind_ret_tt (m : M unit) s : (m >> ret tt) s = m s.
Proof. unfold bind, ret. by destruct (m s) as [[[]| |] s1]. Qed.

Lemma batch_of_three_writes v st u1 u2 u3 s :
  __batchDepth s = 0 → __pendingSignalUpdates s = [] →
  run_op v (Batch [SetState st u1; SetState st u2; SetState st u3]) s =
  run_op v (SetState st u3) s.
Proof.
  intros Hb Hp. destruct s. simpl in Hb, Hp. subst.
  rewrite run_op_Batch. unfold batch, for_of, run_op, setState, queueSignalUpdate.
  unfold bind at 1. unfold modify at 1. cbn [__batchDepth set_batchDepth].
  unfold try_finally.
  match goal with |- context [ (?b >> ?c >> ?d >> ret tt) ?s ] =>
    assert (Hbody : (b >> c >> d >> ret tt) s =
                    (Ok tt, set_pendingSignalUpdates [(st, u3)] s))
  end.
  { unfold bind, get, modify, ret. cbn. rewrite !Nat.eqb_refl. cbn.
    by rewrite !Nat.eqb_refl. }
  rewrite Hbody. clear Hbody.
  unfold bind at 1. unfold modify at 1.
  unfold bind at 1. unfold get at 1.
  cbn [__batchDepth set_batchDepth set_pendingSignalUpdates Init.Nat.pred Nat.eqb].
  cbv iota.
  unfold bind at 1. unfold modify at 1.
  cbn [__pendingSignalUpdates set_pendingSignalUpdates set_batchDepth].
  rewrite bind_ret_tt.
  unfold bind at 1. unfold get at 1. cbn [__batchDepth Nat.ltb Nat.leb].
  cbv iota beta.
  unfold set_pendingSignalUpdates, set_batchDepth. cbn.
  by destruct (setState_update v st u3 _) as [[[]| |] s2].
Qed.

Lemma diamond_write_run v a a' fB fC fD :
  let s := exec v (diamond a (total fB) (total fC) (total fD)) in
  let s' := (run_op v (SetState 0 (UValue a')) s).2 in
  let b0 := fB (first_run [Some a]) in
  let c0 := fC (first_run [Some a]) in
  let d0 := fD (first_run [Some b0; Some c0]) in
  let '(b1, c1, d1, evs) := diamond_rerun a a' fB fC fD in
  cached s 1 = Some b0 ∧ cached s 2 = Some c0 ∧ cached s 3 = Some d0 ∧
  cached s' 1 = Some b1 ∧ cached s' 2 = Some c1 ∧ cached s' 3 = Some d1 ∧
  events_since s s' = evs.
Proof.
  intros s s' b0 c0 d0. subst d0 c0 b0 s' s.
  cbv beta iota zeta delta [diamond_rerun rerun first_run].
  pattern (exec v (diamond a (total fB) (total fC) (total fD))). apply exec_wp.
  unfold diamond. destruct v.
  all: wp_go; wp_next; leaf.
Qed.
(** ** Further lemmas *)

Lemma wf_cellb_wf i c : wf_cellb i c = true → wf_cell i c.
Proof.
  destruct c as [st|d|]; simpl; try done. intros H.
  apply Forall_forall. intros dep Hin%list_elem_of_In.
  rewrite forallb_forall in H. specialize (H dep Hin). by apply Nat.ltb_lt in H.
Qed.

Lemma wfb_from_wf l i j c :
  wfb_from i l = true → l !! j = Some c → wf_cell (i + j) c.
Proof.
  revert i j. induction l as [|c0 l IH]; intros i j H Hj; [ done | ].
  simpl in H. apply andb_prop in H as [H0 H1].
  destruct j as [|j]; simpl in Hj.
  - simplify_eq. rewrite Nat.add_0_r. by apply wf_cellb_wf.
  - replace (i + S j) with (S i + j) by lia. by eapply IH.
Qed.

Lemma wfb_wf s : wfb s = true → wf s.
Proof. intros H i c Hi. by apply (wfb_from_wf _ 0 i c H). Qed.

Lemma pulled_no_calls s n evs :
  Forall (pulled_event s n) evs → recompute_calls evs = [] ∧ onUpdate_calls evs = [].
Proof.
  induction 1 as [|e evs He _ [IH1 IH2]]; [ done | ].
  destruct e as [d p| |]; simpl in He; [ | done | done ].
  split; [ exact IH1 | exact IH2 ].
Qed.

(** ** Writes inside a batch *)

(** Inside a batch a write only replaces the queued updater of its store. *)
Lemma queue_of_writes v st l s :
  0 < __batchDepth s →
  for_of (map (SetState st) l) (run_op v) s =
  (Ok tt, set_pendingSignalUpdates
            (foldl (fun q u => Map_set st u q) (__pendingSignalUpdates s) l) s).
Proof.
  revert s. induction l as [|u l IH]; intros s Hb.
  - simpl. by destruct s.
  - change (map (SetState st) (u :: l)) with (SetState st u :: map (SetState st) l).
    rewrite for_of_cons. unfold bind at 1.
    assert (Hu : run_op v (SetState st u) s =
                 (Ok tt, set_pendingSignalUpdates (Map_set st u (__pendingSignalUpdates s)) s)).
    { simpl. unfold setState, queueSignalUpdate, bind, get.
      destruct (0 <? __batchDepth s) eqn:E; [ done | ].
      apply Nat.ltb_ge in E. lia. }
    rewrite Hu. rewrite IH by done. simpl. by destruct s.
Qed.

(** A queue with at most the entry of one store ends with the last updater
    alone. *)
Lemma last_write_is_queued st (us : list Updater) u q :
  (q = [] ∨ ∃ u0, q = [(st, u0)]) →
  foldl (fun q u => Map_set st u q) q (us ++ [u]) = [(st, u)].
Proof.
  revert q. induction us as [|u1 us IH]; intros q Hq; simpl.
  - destruct Hq as [->|[u0 ->]]; simpl; [ done | by rewrite Nat.eqb_refl ].
  - apply IH. right. exists u1.
    destruct Hq as [->|[u0 ->]]; simpl; [ done | by rewrite Nat.eqb_refl ].
Qed.
(** ** Aliased arrays, the registry and the scheduler at rest *)

Lemma aliasedb_aliased s : aliasedb s = true → aliased s.
Proof.
  unfold aliasedb, aliased, derived_at. intros H i d Hd.
  rewrite forallb_forall in H.
  destruct (cells s !! i) as [[|d'|]|] eqn:Hc; simplify_eq.
  apply list_elem_of_lookup_2, list_elem_of_In in Hc. specialize (H _ Hc). simpl in H.
  by destruct (Derived.lastSeenDepValues d).
Qed.

Global Instance keeps_alias_preorder : PreOrder keeps_alias.
Proof.
  split.
  - intros s H. split; [ done | reflexivity ].
  - intros s1 s2 s3 H12 H23 H1. destruct (H12 H1) as [H2 Hq12].
    destruct (H23 H2) as [H3 Hq23]. split; [ done | by etrans ].
Qed.

Lemma sat_guard {A} (m : M A) :
  (∀ s, aliased s → wp m s (fun _ s' => aliased s' ∧ quiet s s')) → sat keeps_alias m.
Proof. intros H s. unfold wp. intros Ha. by apply (H s Ha). Qed.

Lemma alias_update_derived i g :
  (∀ d, Derived.lastSeenDepValues d = SameAsCurrDepValsArray →
        Derived.lastSeenDepValues (g d) = SameAsCurrDepValsArray) →
  sat keeps_alias (update_derived i g).
Proof.
  intros Hg. apply sat_guard. intros s Ha. apply wp_update_derived.
  destruct (derived_at s i) as [d|] eqn:Hd; [ | split; [ done | reflexivity ] ].
  split.
  - intros j d' Hj. unfold derived_at in Hj. simpl in Hj.
    destruct (decide (i = j)) as [->|Hne].
    + rewrite list_lookup_insert_eq in Hj by (by eapply derived_at_lt).
      simplify_eq. apply Hg. by eapply Ha.
    + rewrite list_lookup_insert_ne in Hj by done. by eapply Ha.
  - split; [ done | ]. exists []. by rewrite app_nil_r.
Qed.

Lemma alias_emit_compute d p : sat keeps_alias (emit (EvCompute d p)).
Proof.
  apply sat_guard. intros s Ha. apply wp_emit. split; [ done | ].
  split; [ done | ]. by exists [EvCompute d p].
Qed.

Global Hint Resolve alias_emit_compute : sat.
Global Hint Extern 1 (sat keeps_alias (update_derived _ _)) =>
  apply alias_update_derived; intros; simpl; first [ assumption | reflexivity ] : sat.

Section alias_pass.
Context (rd : nat → M Z) (Hrd : ∀ i, sat keeps_alias (rd i)).

Lemma alias_get_derived i : sat keeps_alias (get_derived i).
Proof. repeat sat_step. Qed.
Lemma alias_get_prevState i : sat keeps_alias (get_prevState i).
Proof. repeat sat_step. Qed.
Hint Resolve alias_get_derived alias_get_prevState : sat.
Lemma alias_get_state i : sat keeps_alias (get_state Reusing rd i).
Proof. unfold get_state. repeat sat_step. Qed.
Lemma alias_tracked_read i : sat keeps_alias (tracked_read rd i).
Proof. repeat sat_step. Qed.
Hint Resolve alias_get_state alias_tracked_read : sat.
Lemma alias_getDepVals_reuse this ds i :
  sat keeps_alias (getDepVals_reuse Reusing rd this ds i).
Proof.
  revert i. induction ds as [|dep ds IH]; intros i.
  - rewrite getDepVals_reuse_nil. sat_step.
  - rewrite getDepVals_reuse_cons. repeat sat_step.
Qed.
Hint Resolve alias_getDepVals_reuse : sat.
Lemma alias_getDepVals this : sat keeps_alias (getDepVals Reusing rd this).
Proof. unfold getDepVals. repeat sat_step. Qed.
Lemma alias_call_fn this p : sat keeps_alias (call_fn this p).
Proof. repeat sat_step. Qed.
Hint Resolve alias_getDepVals alias_call_fn : sat.
Lemma alias_computed_callback this : sat keeps_alias (computed_callback Reusing rd this).
Proof. unfold computed_callback. repeat sat_step. Qed.
End alias_pass.

Lemma alias_computed_read fuel this : sat keeps_alias (_computed_read Reusing fuel this).
Proof.
  revert this. induction fuel as [|fuel IH]; intros this.
  - simpl. sat_step.
  - rewrite _computed_read_S. cbv zeta.
    pose proof (alias_computed_callback (_computed_read Reusing fuel) IH).
    pose proof (alias_tracked_read (_computed_read Reusing fuel) IH).
    pose proof alias_get_derived.
    repeat sat_step.
Qed.

Lemma strict_eq_refl x : strict_eq x x = true.
Proof. destruct x; simpl; [ apply Z.eqb_refl | done ]. Qed.

Lemma shouldRecompute_same x i n : shouldRecompute x x i n = false.
Proof.
  revert i. induction n as [|n IH]; intros i; simpl; [ done | ].
  rewrite strict_eq_refl. simpl. apply IH.
Qed.

Lemma getDepVals_reusing_result rd this s :
  (∀ i, sat keeps_alias (rd i)) → aliased s →
  wp (getDepVals Reusing rd this) s (fun r s' =>
    aliased s' ∧ quiet s s' ∧
    ∀ p, r = Ok p →
      ∃ d', derived_at s' this = Some d' ∧ currDepVals p = Derived._currDepValsArray d').
Proof.
  intros Hrd Ha. unfold getDepVals. apply wp_bind, wp_get_derived.
  destruct (derived_at s this) as [d|] eqn:Hd;
    [ | split; [ done | split; [ reflexivity | intros ? [=] ] ] ].
  apply wp_bind. eapply wp_mono; [ apply (alias_getDepVals_reuse rd Hrd) | ].
  intros r s1 H1. destruct (H1 Ha) as [Ha1 Hq1]. simpl.
  destruct r as [[]| |]; [ | split; [ done | split; [ done | intros ? [=] ] ] .. ].
  apply wp_bind. eapply wp_mono.
  { apply (alias_update_derived this
      (Derived.set_lastSeenDepValues SameAsCurrDepValsArray) (fun _ _ => eq_refl)). }
  intros r s2 H2. destruct (H2 Ha1) as [Ha2 Hq2]. simpl.
  destruct r as [[]| |]; [ | split; [ done | split; [ by etrans | intros ? [=] ] ] .. ].
  apply wp_bind, wp_get_derived.
  destruct (derived_at s2 this) as [d2|] eqn:Hd2;
    [ | split; [ done | split; [ by etrans | intros ? [=] ] ] ].
  apply wp_ret. split; [ done | ]. split; [ by etrans | ].
  intros p [= <-]. by exists d2.
Qed.

Lemma alias_check_rec fuel this :
  sat keeps_alias (checkIfRecalculationNeededDeeply_rec Reusing fuel this).
Proof.
  revert this. induction fuel as [|fuel IH]; intros this.
  - simpl. sat_step.
  - rewrite check_rec_S. pose proof alias_get_derived.
    sat_step; [ sat_step | ].
    sat_step.
    { sat_step. sat_step; [ sat_step | ]. repeat sat_step. }
    apply sat_guard. intros s Ha.
    apply wp_bind, wp_get_derived.
    destruct (derived_at s this) as [d|] eqn:Hd; [ | split; [ done | reflexivity ] ].
    cbv zeta. apply wp_bind, wp_get. apply wp_bind.
    eapply wp_mono.
    { apply getDepVals_reusing_result; [ apply alias_computed_read | done ]. }
    intros r s1 (Ha1 & Hq1 & Hp). simpl.
    destruct r as [p| |]; [ | done | done ].
    destruct (Hp p eq_refl) as (d1 & Hd1 & Hcur).
    apply wp_bind, wp_get_derived. rewrite Hd1.
    rewrite (Ha _ _ Hd). simpl. rewrite Hcur, shouldRecompute_same.
    apply wp_ret. done.
Qed.

Global Instance registry_only_preorder : PreOrder registry_only.
Proof.
  split.
  - intros s. by repeat split.
  - intros s1 s2 s3 (?&?&?&?&?&?&?&?) (?&?&?&?&?&?&?&?).
    repeat split; congruence.
Qed.

Lemma registry_set_storeToDerived m s : registry_only s (set_storeToDerived m s).
Proof. by repeat split. Qed.
Lemma registry_set_derivedToStore m s : registry_only s (set_derivedToStore m s).
Proof. by repeat split. Qed.

Lemma registry_get_derived i : sat registry_only (get_derived i).
Proof. repeat sat_step. Qed.

Lemma registry_register_under this dep toSort :
  sat registry_only (register_under this dep toSort).
Proof.
  unfold register_under.
  repeat first [ sat_step | apply registry_set_storeToDerived
               | apply registry_set_derivedToStore ].
Qed.

Lemma registry_unregister_under this dep : sat registry_only (unregister_under this dep).
Proof.
  unfold unregister_under.
  repeat first [ sat_step | apply registry_set_storeToDerived
               | apply registry_set_derivedToStore ].
Qed.

Lemma registry_registerOnGraph_rec fuel this deps :
  sat registry_only (registerOnGraph_rec fuel this deps).
Proof.
  revert this deps. induction fuel as [|fuel IH]; intros this deps.
  - simpl. sat_step.
  - rewrite registerOnGraph_rec_S. pose proof registry_register_under.
    repeat first [ sat_step | apply registry_set_storeToDerived | reflexivity ].
    destruct (__storeToDerived s !! x); [ apply registry_set_storeToDerived | reflexivity ].
Qed.

Lemma registry_unregisterFromGraph_rec fuel this deps :
  sat registry_only (unregisterFromGraph_rec fuel this deps).
Proof.
  revert this deps. induction fuel as [|fuel IH]; intros this deps.
  - simpl. sat_step.
  - rewrite unregisterFromGraph_rec_S. pose proof registry_unregister_under.
    repeat sat_step.
Qed.

Lemma registry_only_mount_unmount this s :
  wp (registerOnGraph this) s (fun _ s' => registry_only s s') ∧
  wp (unmount this) s (fun _ s' => registry_only s s').
Proof.
  pose proof registry_get_derived. pose proof registry_registerOnGraph_rec.
  pose proof registry_unregisterFromGraph_rec.
  split.
  - assert (H2 : sat registry_only (registerOnGraph this)) by repeat sat_step.
    apply H2.
  - assert (H2 : sat registry_only (unmount this)) by repeat sat_step.
    apply H2.
Qed.

Lemma indexOf_from_spec i l x :
  if includes l x
  then ∃ k, indexOf_from i l x = Z.of_nat (i + k) ∧ k < length l ∧
            take k l ++ drop (S k) l = remove_first x l
  else indexOf_from i l x = (-1)%Z.
Proof.
  revert i. induction l as [|y l IH]; intros i; simpl; [ done | ].
  destruct (y =? x) eqn:E.
  - exists 0. rewrite Nat.add_0_r. simpl. rewrite drop_0. split; [ done | ]. split; [ lia | done ].
  - specialize (IH (S i)). destruct (includes l x); [ | done ].
    destruct IH as (k & Hk & Hlt & Hrm). exists (S k).
    split; [ rewrite Hk; f_equal; lia | ]. split; [ lia | ]. simpl. by rewrite Hrm.
Qed.

Lemma splice_indexOf l x :
  splice l (indexOf l x) 1 =
  if includes l x then remove_first x l else removelast l.
Proof.
  unfold indexOf. pose proof (indexOf_from_spec 0 l x) as H.
  destruct (includes l x).
  - destruct H as (k & -> & Hlt & Hrm). unfold splice. simpl.
    destruct (Z.ltb_spec (Z.of_nat k) 0); [ lia | ].
    rewrite Nat2Z.id, Nat.min_l by lia. by rewrite Nat.add_1_r.
  - rewrite H. unfold splice. simpl.
    destruct l as [|y l] using rev_ind; [ done | ].
    rewrite removelast_last, length_app. simpl.
    replace (Z.to_nat (Z.max (Z.of_nat (length l + 1) + -1) 0)) with (length l) by lia.
    rewrite take_app_length, Nat.add_1_r.
    rewrite drop_ge by (rewrite length_app; simpl; lia). by rewrite app_nil_r.
Qed.

Global Instance flush_step_preorder : PreOrder flush_step.
Proof. split; unfold flush_step; [ done | congruence ]. Qed.
Global Instance idle_preorder : PreOrder idle.
Proof.
  split; unfold idle; [ done | ].
  intros s1 s2 s3 [? ?] [? ?]. split; congruence.
Qed.
Global Instance keeps_rest_preorder : PreOrder keeps_rest.
Proof.
  split.
  - by intros s H.
  - intros s1 s2 s3 H12 H23 H1. destruct (H12 H1) as [H2 E2].
    destruct (H23 H2) as [H3 E3]. split; [ done | congruence ].
Qed.
Global Instance keeps_rest_unbatched_preorder : PreOrder keeps_rest_unbatched.
Proof.
  split.
  - by intros s H.
  - intros s1 s2 s3 H12 H23 H1 E1. destruct (H12 H1 E1) as [H2 E2].
    by apply H23.
Qed.

Lemma idle_flush_step s s' : idle s s' → flush_step s s'.
Proof. by intros [? ?]. Qed.
Lemma idle_keeps_rest s s' : idle s s' → keeps_rest s s'.
Proof.
  intros [Hf Ht] (H1 & H2 & H3 & H4 & H5). unfold flush_frame in Hf.
  injection Hf as E1 E2 E3 E4 E5. unfold at_rest. rewrite E1, E2, E3, E4, E5, Ht.
  done.
Qed.
Lemma registry_only_idle s s' : registry_only s s' → idle s s'.
Proof.
  intros (_ & _ & E1 & E2 & E3 & E4 & E5 & E6). split; [ | done ].
  unfold flush_frame. congruence.
Qed.

(** Passing through the code of a derived cell, for a relation that
    ignores the cells and the trace. *)
Section cells_pass.
Context (T : state → state → Prop) `{!PreOrder T}.
Hypothesis T_cells : ∀ s cs, T s (set_cells cs s).
Hypothesis T_trace : ∀ s tr, T s (set_trace tr s).

Lemma cells_set_cell i c : sat T (set_cell i c).
Proof. unfold set_cell. apply sat_modify. intros s. apply T_cells. Qed.
Lemma cells_emit e : sat T (emit e).
Proof. unfold emit. apply sat_modify. intros s. apply T_trace. Qed.
Hint Resolve cells_set_cell cells_emit : sat.
Lemma cells_update_derived i f : sat T (update_derived i f).
Proof. unfold update_derived. repeat sat_step. Qed.
Lemma cells_get_store i : sat T (get_store i).
Proof. repeat sat_step. Qed.
Hint Resolve cells_update_derived cells_get_store : sat.

Lemma cells__computed v this : sat T (_computed v this).
Proof. apply pass__computed; auto with sat. Qed.
Lemma cells_state_of v i : sat T (state_of v i).
Proof. apply pass_state_of; auto with sat. Qed.
Lemma cells_getDepVals v fuel this :
  sat T (getDepVals v (_computed_read v fuel) this).
Proof.
  apply (pass_getDepVals T) with (rd := fun v => _computed_read v fuel);
    auto with sat.
  intros. apply pass_computed_read; auto with sat.
Qed.
Hint Resolve cells__computed cells_state_of cells_getDepVals : sat.

Lemma cells_recompute v this : sat T (recompute v this).
Proof. unfold recompute. destruct v; repeat sat_step. Qed.
Hint Resolve cells_recompute : sat.

Lemma cells_check_rec v fuel this :
  sat T (checkIfRecalculationNeededDeeply_rec v fuel this).
Proof.
  revert this. induction fuel as [|fuel IH]; intros this.
  - simpl. sat_step.
  - rewrite check_rec_S. pose proof (pass_get_derived T).
    repeat sat_step.
Qed.
Lemma cells_check v this : sat T (checkIfRecalculationNeededDeeply v this).
Proof. pose proof cells_check_rec. repeat sat_step. Qed.

Lemma cells_new_Store a : sat T (new_Store a).
Proof. unfold new_Store. repeat sat_step. apply T_cells. Qed.
Lemma cells_new_Derived v deps fn : sat T (new_Derived v deps fn).
Proof.
  unfold new_Derived. sat_step; [ sat_step | ]. sat_step; [ | sat_step ].
  cbv zeta. sat_step; [ apply sat_modify; intros ?; apply T_cells | ].
  apply sat_on_throw; [ apply _ | | intros ?; apply T_cells ].
  destruct v; repeat sat_step.
Qed.
End cells_pass.

Lemma flush_step_cells s cs : flush_step s (set_cells cs s).
Proof. done. Qed.
Lemma flush_step_trace s tr : flush_step s (set_trace tr s).
Proof. done. Qed.
Lemma flush_step_tick s X : flush_step s (set_depsThatHaveWrittenThisTick X s).
Proof. done. Qed.
Lemma idle_cells s cs : idle s (set_cells cs s).
Proof. done. Qed.
Lemma idle_trace s tr : idle s (set_trace tr s).
Proof. done. Qed.

Lemma flush_step__flush_internals v fuel l : sat flush_step (__flush_internals v fuel l).
Proof.
  revert l. induction fuel as [|fuel IH]; intros l.
  - simpl. sat_step.
  - rewrite __flush_internals_S.
    pose proof (cells_recompute flush_step flush_step_cells flush_step_trace).
    repeat first [ sat_step | apply flush_step_tick ].
Qed.

Lemma flush_step_restore stores :
  sat flush_step
    (for_of stores (fun store =>
       let* s := get in
       let* st := get_store store in
       let prevState := default (Store.prevState st) (__initialBatchValues s !! store) in
       set_cell store (CStore (Store.mk (Store._signal st) prevState)) >>
       __notifyListeners store)).
Proof.
  pose proof (cells_set_cell flush_step flush_step_cells).
  pose proof (cells_get_store flush_step).
  repeat sat_step.
Qed.

Lemma flush_step_visit v stores :
  sat flush_step
    (for_of stores (fun store =>
       let* s := get in
       match __storeToDerived s !! store with
       | None => ret tt
       | Some derivedVals =>
           modify (fun s =>
             set_depsThatHaveWrittenThisTick ({[store]} ∪ __depsThatHaveWrittenThisTick s) s) >>
           let* s := get in
           __flush_internals v (depth s) derivedVals
       end)).
Proof.
  pose proof flush_step__flush_internals.
  repeat first [ sat_step | apply flush_step_tick ].
Qed.

(** The loop of a flush ends with nothing pending, and leaves the batch
    depth, the flushing flag, the snapshot and the queue as they were. *)
Lemma __flush_loop_drains v fuel s :
  wp (__flush_loop v (S (S fuel))) s (fun _ s' =>
    __pendingUpdates s' = [] ∧ __isFlushing s' = __isFlushing s ∧
    __batchDepth s' = __batchDepth s ∧
    __initialBatchValues s' = __initialBatchValues s ∧
    __pendingSignalUpdates s' = __pendingSignalUpdates s).
Proof.
  rewrite __flush_loop_S. apply wp_bind, wp_get.
  destruct (__pendingUpdates s) as [|st stores] eqn:Hp.
  { apply wp_ret. done. }
  apply wp_bind, wp_modify. set (s1 := set_pendingUpdates [] s).
  apply wp_bind. eapply wp_mono; [ apply flush_step_restore | ].
  intros r s2 H2. unfold flush_step, flush_frame in H2. injection H2 as E1 E2 E3 E4 E5.
  cbn in E1, E2, E3, E4, E5.
  destruct r as [[]| |]; [ | done | done ].
  apply wp_bind. eapply wp_mono; [ apply (flush_step_visit v) | ].
  intros r s3 H3. unfold flush_step, flush_frame in H3. injection H3 as F1 F2 F3 F4 F5.
  destruct r as [[]| |]; [ | repeat split; congruence | repeat split; congruence ].
  rewrite __flush_loop_S. apply wp_bind, wp_get. rewrite F3, E3. apply wp_ret.
  repeat split; congruence.
Qed.

Lemma keeps_rest__flush v store : sat keeps_rest_unbatched (__flush v store).
Proof.
  intros s. unfold wp. intros (Hf & Ht & Hi & Hp & Hq) Hb. specialize (Hq Hb).
  revert Hf Ht Hi Hp Hq Hb.
  change (wp (__flush v store) s (fun _ s' =>
    __isFlushing s = false → __depsThatHaveWrittenThisTick s = ∅ →
    __initialBatchValues s = ∅ → __pendingUpdates s = [] →
    __pendingSignalUpdates s = [] → __batchDepth s = 0 →
    at_rest s' ∧ __batchDepth s' = 0)).
  unfold __flush. apply wp_bind, wp_get.
  destruct (__batchDepth s) as [|n] eqn:Hb.
  2: { unfold wp. intros. discriminate. }
  simpl. apply wp_bind, wp_ret. apply wp_bind, wp_modify. apply wp_bind, wp_get.
  simpl. rewrite Hb. simpl.
  destruct (__isFlushing s) eqn:Hf.
  { unfold wp. intros. discriminate. }
  apply wp_try_finally. apply wp_bind, wp_modify. apply wp_bind, wp_get.
  unfold depth. set (s1 := set_isFlushing true _).
  change (2 + length (cells s1)) with (S (S (length (cells s1)))).
  eapply wp_mono; [ apply __flush_loop_drains | ].
  intros r s2 (E1 & E2 & E3 & E4 & E5). simpl in *.
  apply wp_bind, wp_modify. apply wp_bind, wp_modify. apply wp_modify. simpl.
  assert (Hfin : __isFlushing s = false → __depsThatHaveWrittenThisTick s = ∅ →
    __initialBatchValues s = ∅ → __pendingUpdates s = [] →
    __pendingSignalUpdates s = [] → 0 = 0 →
    at_rest (set_initialBatchValues ∅ (set_depsThatHaveWrittenThisTick ∅
      (set_isFlushing false s2))) ∧ __batchDepth s2 = 0).
  { intros _ _ _ _ Hq _. split; [ | congruence ].
    unfold at_rest. simpl. repeat split; try done. intros _. congruence. }
  intros _. exact (Hfin Hf).
Qed.

Lemma keeps_rest_setState_update v this u :
  sat keeps_rest_unbatched (setState_update v this u).
Proof.
  assert (Hidle : ∀ s s', idle s s' → keeps_rest_unbatched s s').
  { intros s s' Hi Hr Hb. destruct (idle_keeps_rest _ _ Hi Hr). split; [ done | congruence ]. }
  assert (Hset : ∀ i c, sat keeps_rest_unbatched (set_cell i c)).
  { intros. eapply sat_weaken; [ apply Hidle | ]. apply cells_set_cell, idle_cells. }
  assert (Hget : ∀ i, sat keeps_rest_unbatched (get_store i)).
  { intros. eapply sat_weaken; [ apply Hidle | ]. apply cells_get_store. apply _. }
  pose proof keeps_rest__flush.
  unfold setState_update. repeat sat_step.
Qed.

Lemma keeps_rest_setState v this u : sat keeps_rest (setState v this u).
Proof.
  intros s. unfold setState, queueSignalUpdate. apply wp_bind, wp_get.
  destruct (__batchDepth s) as [|n] eqn:Hb; simpl.
  - eapply wp_mono; [ apply keeps_rest_setState_update | ].
    intros r s' H Hr. simpl in *. rewrite Hb. by apply H.
  - apply wp_modify. intros (H1 & H2 & H3 & H4 & H5). simpl.
    split; [ | done ]. unfold at_rest. simpl. repeat split; try done.
    rewrite Hb. discriminate.
Qed.

Lemma keeps_rest_batch v (fn : M unit) : sat keeps_rest fn → sat keeps_rest (batch v fn).
Proof.
  intros Hfn s. unfold batch. apply wp_bind, wp_modify.
  set (s1 := set_batchDepth (S (__batchDepth s)) s).
  apply wp_try_finally. eapply wp_mono; [ apply Hfn | ].
  intros r s2 H2. simpl in H2.
  apply wp_bind, wp_modify. apply wp_bind, wp_get. simpl.
  assert (Hstart : at_rest s → at_rest s1).
  { intros (H1 & H3 & H4 & H5 & H6). unfold at_rest. simpl. repeat split; try done. }
  destruct (Init.Nat.pred (__batchDepth s2) =? 0) eqn:Hd.
  - apply Nat.eqb_eq in Hd. apply wp_bind, wp_modify.
    set (s3 := set_pendingSignalUpdates [] _).
    assert (H3 : at_rest s → at_rest s3 ∧ __batchDepth s3 = 0 ∧ __batchDepth s = 0).
    { intros Hr. destruct (H2 (Hstart Hr)) as [(H1 & H4 & H5 & H6 & H7) E]. simpl in E.
      split; [ | split; [ done | lia ] ]. unfold at_rest. simpl. by repeat split. }
    eapply wp_mono.
    { apply (sat_for_of keeps_rest_unbatched). intros [storeId updater].
      apply keeps_rest_setState_update. }
    intros rf s4 H4. simpl in H4.
    assert (Hk : keeps_rest s s4).
    { intros Hr. destruct (H3 Hr) as (Hr3 & E3 & E).
      destruct (H4 Hr3 E3) as [Hr4 E4]. split; [ done | congruence ]. }
    by destruct rf as [[]| |].
  - apply Nat.eqb_neq in Hd. apply wp_ret.
    assert (Hk : keeps_rest s (set_batchDepth (Init.Nat.pred (__batchDepth s2)) s2)).
    { intros Hr.
      destruct (H2 (Hstart Hr)) as [(H1 & H4 & H5 & H6 & H7) E]. simpl in E.
      split; [ | simpl; lia ]. unfold at_rest. simpl. repeat split; try done. }
    done.
Qed.

Lemma keeps_rest_run_op v o : sat keeps_rest (run_op v o).
Proof.
  revert o. fix IH 1. intros o.
  assert (Hidle : ∀ {A} (m : M A), sat idle m → sat keeps_rest m).
  { intros A m H. eapply sat_weaken; [ apply idle_keeps_rest | exact H ]. }
  assert (Hreg : ∀ {A} (m : M A), sat registry_only m → sat keeps_rest m).
  { intros A m H. apply Hidle. eapply sat_weaken; [ apply registry_only_idle | exact H ]. }
  destruct o as [a|deps fn|st u|i|d|d|d|d|fn]; simpl.
  - apply sat_bind; [ apply _ | | intros; apply sat_ret; apply _ ].
    apply Hidle, cells_new_Store; [ apply _ | apply idle_cells ].
  - apply sat_bind; [ apply _ | | intros; apply sat_ret; apply _ ].
    apply Hidle, cells_new_Derived; [ apply _ | apply idle_cells | apply idle_trace ].
  - apply keeps_rest_setState.
  - apply sat_bind; [ apply _ | | intros; apply sat_ret; apply _ ].
    apply Hidle, cells_state_of; [ apply _ | apply idle_cells | apply idle_trace ].
  - apply Hidle, cells_recompute; [ apply _ | apply idle_cells | apply idle_trace ].
  - apply Hidle, cells_check; [ apply _ | apply idle_cells | apply idle_trace ].
  - unfold mount. apply sat_bind; [ apply _ | | intros _ ].
    + apply Hreg. intros s. apply (registry_only_mount_unmount d s).
    + apply Hidle, cells_check; [ apply _ | apply idle_cells | apply idle_trace ].
  - apply Hreg. intros s. apply (registry_only_mount_unmount d s).
  - apply keeps_rest_batch.
    induction fn as [|o fn IHfn].
    + apply sat_ret. apply _.
    + rewrite for_of_cons. apply sat_bind; [ apply _ | apply IH | intros _; apply IHfn ].
Qed.

(** ** Source cells during a flush *)

Global Instance keeps_stores_preorder : PreOrder keeps_stores.
Proof.
  split.
  - intros s. split; [ done | ]. split; [ done | ]. by intros _ j c.
  - intros s1 s2 s3 (E1 & F1 & H1) (E2 & F2 & H2). split; [ congruence | ].
    split; [ congruence | ]. intros He j c Hj. apply H2; [ congruence | ]. by apply H1.
Qed.

Lemma keeps_stores_same_cells s s' :
  cells s' = cells s → __initialBatchValues s' = __initialBatchValues s →
  __batchDepth s' = __batchDepth s → keeps_stores s s'.
Proof. intros Hc ? ?. split; [ done | ]. split; [ done | ]. intros _ j c. by rewrite Hc. Qed.

Lemma keeps_stores_update_derived i f : sat keeps_stores (update_derived i f).
Proof.
  intros s. unfold update_derived, get_derived, set_cell.
  apply wp_bind, wp_bind, wp_get.
  destruct (cells s !! i) as [[st|d|]|] eqn:Hd; try (apply wp_throw; reflexivity).
  apply wp_ret, wp_modify.
  split; [ done | ]. split; [ done | ]. intros _ j c Hj. simpl.
  rewrite list_lookup_insert_ne; [ done | ]. intros ->. congruence.
Qed.

Lemma keeps_stores_emit e : sat keeps_stores (emit e).
Proof. intros s. apply wp_modify. by apply keeps_stores_same_cells. Qed.

Global Hint Resolve keeps_stores_update_derived keeps_stores_emit : sat.

Lemma keeps_stores_recompute v this : sat keeps_stores (recompute v this).
Proof.
  assert (H : sat keeps_stores (_computed v this)).
  { apply pass__computed; auto with sat. apply _. }
  unfold recompute. destruct v; repeat sat_step.
Qed.

Lemma keeps_stores__flush_internals v fuel l :
  sat keeps_stores (__flush_internals v fuel l).
Proof.
  revert l. induction fuel as [|fuel IH]; intros l.
  - simpl. sat_step.
  - rewrite __flush_internals_S. pose proof keeps_stores_recompute.
    repeat first [ sat_step | by apply keeps_stores_same_cells ].
Qed.

Lemma keeps_stores_restore stores :
  sat keeps_stores
    (for_of stores (fun store =>
       let* s := get in
       let* st := get_store store in
       let prevState := default (Store.prevState st) (__initialBatchValues s !! store) in
       set_cell store (CStore (Store.mk (Store._signal st) prevState)) >>
       __notifyListeners store)).
Proof.
  apply sat_for_of; [ apply _ | ]. intros store s.
  apply wp_bind, wp_get. unfold get_store. apply wp_bind, wp_bind, wp_get.
  destruct (cells s !! store) as [[st|d|]|] eqn:Hc; try (apply wp_throw; reflexivity).
  apply wp_ret. cbv zeta. apply wp_bind. unfold set_cell. apply wp_modify, wp_ret.
  split; [ done | ]. split; [ done | ]. intros He j c Hj. simpl.
  rewrite He, lookup_empty. simpl.
  destruct (decide (j = store)) as [->|Hne].
  - rewrite list_lookup_insert_eq by (by eapply lookup_lt_Some).
    rewrite Hc in Hj. simplify_eq. by destruct c.
  - by rewrite list_lookup_insert_ne.
Qed.

Lemma keeps_stores_visit v stores :
  sat keeps_stores
    (for_of stores (fun store =>
       let* s := get in
       match __storeToDerived s !! store with
       | None => ret tt
       | Some derivedVals =>
           modify (fun s =>
             set_depsThatHaveWrittenThisTick ({[store]} ∪ __depsThatHaveWrittenThisTick s) s) >>
           let* s := get in
           __flush_internals v (depth s) derivedVals
       end)).
Proof.
  pose proof keeps_stores__flush_internals.
  repeat first [ sat_step | by apply keeps_stores_same_cells ].
Qed.

Lemma keeps_stores__flush_loop v fuel : sat keeps_stores (__flush_loop v fuel).
Proof.
  induction fuel as [|fuel IH].
  - simpl. sat_step.
  - rewrite __flush_loop_S.
    pose proof keeps_stores_restore. pose proof (keeps_stores_visit v).
    sat_step; [ sat_step | ]. destruct (__pendingUpdates a); cbv iota zeta; [ sat_step | ].
    sat_step; [ apply sat_modify; intros ?; by apply keeps_stores_same_cells | ].
    sat_step; [ apply H | ]. sat_step; [ apply H0 | ]. exact IH.
Qed.

(** Outside a batch, with an empty snapshot, a flush leaves the source
    cells as they are. *)
Lemma __flush_keeps_stores v store s :
  __batchDepth s = 0 → __initialBatchValues s = ∅ →
  wp (__flush v store) s (fun _ s' => stores_same s s').
Proof.
  intros Hb He. unfold __flush. apply wp_bind, wp_get. rewrite Hb.
  cbn -[__flush_loop wp]. apply wp_bind, wp_ret. apply wp_bind, wp_modify.
  apply wp_bind, wp_get. cbn -[__flush_loop wp]. rewrite Hb. cbn -[__flush_loop wp].
  destruct (__isFlushing s); [ apply wp_ret; by intros j c | ].
  apply wp_try_finally. apply wp_bind, wp_modify. apply wp_bind, wp_get.
  eapply wp_mono; [ apply keeps_stores__flush_loop | ].
  intros r s2 (E1 & E2 & H). cbn in E1, E2, H.
  apply wp_bind, wp_modify. apply wp_bind, wp_modify. apply wp_modify.
  specialize (H He). by destruct r.
Qed.

(** ** Every call is a step, and client calls keep states settled *)

Global Instance step_preorder : PreOrder step.
Proof.
  split.
  - intros s. split; [ apply cells_le_refl | ]. exists []. by rewrite app_nil_r.
  - intros s1 s2 s3 [Hc1 (e1 & Ht1 & He1)] [Hc2 (e2 & Ht2 & He2)].
    split; [ by eapply cells_le_trans | ].
    exists (e1 ++ e2). split; [ by rewrite Ht2, Ht1, app_assoc | ].
    apply Forall_app. split; [ done | ].
    eapply Forall_impl; [ exact He2 | ]. intros [d p| |] He; try done.
    simpl in *. by eapply compute_ok_le.
Qed.

Lemma step_wf s s' : step s s' → wf s → wf s'.
Proof. intros [Hc _]. by apply cells_le_wf. Qed.

Global Instance evolves_preorder : PreOrder evolves.
Proof.
  split.
  - intros s _. reflexivity.
  - intros s1 s2 s3 H1 H2 Hwf. etrans; [ by apply H1 | ].
    apply H2. eapply step_wf; [ by apply H1 | done ].
Qed.

Global Instance keeps_settled_preorder : PreOrder keeps_settled.
Proof. split; [ intros s H; exact H | ]. intros s1 s2 s3 H1 H2 H. by apply H2, H1. Qed.

Lemma below_step n s s' : below n s s' → step s s'.
Proof.
  intros [_ Hc _ _ (evs & Ht & Hp)]. split; [ done | ]. exists evs. split; [ done | ].
  eapply Forall_impl; [ exact Hp | ]. intros [d p| |]; simpl; try done. by intros [_ ?].
Qed.

Lemma reads_step i s s' : reads i s s' → step s s'.
Proof. intros H%reads_below. by eapply below_step. Qed.

Lemma step_same s s' : cells s' = cells s → trace s' = trace s → step s s'.
Proof.
  intros Hc Ht. split; [ rewrite Hc; apply cells_le_refl | ].
  exists []. by rewrite app_nil_r.
Qed.

Lemma evolves_same s s' : cells s' = cells s → trace s' = trace s → evolves s s'.
Proof. intros ? ? _. by apply step_same. Qed.

Lemma evolves_registry s s' : registry_only s s' → evolves s s'.
Proof. intros (Hc & Ht & _). by apply evolves_same. Qed.

Lemma evolves_emit_recompute d : sat evolves (emit (EvRecompute d)).
Proof.
  intros s. apply wp_emit. intros _. split; [ apply cells_le_refl | ].
  exists [EvRecompute d]. split; [ done | ]. by repeat constructor.
Qed.
Lemma evolves_emit_onUpdate d : sat evolves (emit (EvOnUpdate d)).
Proof.
  intros s. apply wp_emit. intros _. split; [ apply cells_le_refl | ].
  exists [EvOnUpdate d]. split; [ done | ]. by repeat constructor.
Qed.

Lemma evolves_update_derived i f :
  (∀ d, cell_le (CDerived d) (CDerived (f d))) → sat evolves (update_derived i f).
Proof.
  intros Hf s. apply wp_update_derived.
  destruct (derived_at s i) as [d|] eqn:Hd; [ | reflexivity ].
  intros _. split; [ by eapply cells_le_insert | ].
  exists []. by rewrite app_nil_r.
Qed.

Lemma evolves_get_store i : sat evolves (get_store i).
Proof. repeat sat_step. Qed.
Lemma evolves_get_derived i : sat evolves (get_derived i).
Proof. repeat sat_step. Qed.

(** Writing a source cell over a source cell. *)
Lemma evolves_set_store i st s :
  (∃ st0, cells s !! i = Some (CStore st0)) →
  evolves s (set_cells (<[i:=CStore st]> (cells s)) s).
Proof.
  intros [st0 Hc] _. split; [ | exists []; by rewrite app_nil_r ]. simpl.
  apply Forall2_same_length_lookup. split; [ by rewrite length_insert | ].
  intros j x y Hx Hy. destruct (decide (i = j)) as [->|Hne].
  - rewrite list_lookup_insert_eq in Hy by (by eapply lookup_lt_Some). by simplify_eq.
  - rewrite list_lookup_insert_ne in Hy by done. simplify_eq. reflexivity.
Qed.

Lemma evolves_computed_read v f j : sat evolves (_computed_read v f j).
Proof.
  intros s. unfold wp. intros Hwf. apply (below_step (S j)).
  apply (pull_ok_all v f j s Hwf).
Qed.

Lemma evolves__computed v j : sat evolves (_computed v j).
Proof. pose proof evolves_computed_read. unfold _computed. repeat sat_step. Qed.

Lemma evolves_state_of v i : sat evolves (state_of v i).
Proof.
  intros s. unfold state_of. apply wp_bind, wp_get. unfold wp. intros Hwf.
  apply (below_step (S i)).
  apply (get_state_below v (depth s) i (S i) s (pull_ok_all v _) Hwf). lia.
Qed.

Lemma evolves_getDepVals v f i : sat evolves (getDepVals v (_computed_read v f) i).
Proof.
  intros s. unfold wp. intros Hwf.
  destruct (derived_at s i) as [d|] eqn:Hd.
  - apply (reads_step i).
    apply (getDepVals_spec v f i d s (pull_ok_all v f) Hwf Hd).
  - revert Hwf. change (wp (getDepVals v (_computed_read v f) i) s (fun _ s' => evolves s s')).
    unfold getDepVals. destruct v; apply wp_bind, wp_get_derived; rewrite Hd; reflexivity.
Qed.

Global Hint Resolve evolves_emit_recompute evolves_emit_onUpdate evolves_get_store
  evolves_get_derived evolves_computed_read evolves__computed evolves_state_of
  evolves_getDepVals : sat.

Lemma evolves_recompute v this : sat evolves (recompute v this).
Proof.
  unfold recompute.
  destruct v; repeat first [ apply evolves_update_derived; intros d; by simpl | sat_step ].
Qed.
Global Hint Resolve evolves_recompute : sat.

Lemma evolves_check_rec v fuel this :
  sat evolves (checkIfRecalculationNeededDeeply_rec v fuel this).
Proof.
  revert this. induction fuel as [|fuel IH]; intros this.
  - simpl. sat_step.
  - rewrite check_rec_S. repeat sat_step.
Qed.

Lemma evolves_check v this : sat evolves (checkIfRecalculationNeededDeeply v this).
Proof. pose proof evolves_check_rec. unfold checkIfRecalculationNeededDeeply. repeat sat_step. Qed.

(** *** The scheduler *)

Lemma evolves__flush_internals v fuel l : sat evolves (__flush_internals v fuel l).
Proof.
  revert l. induction fuel as [|fuel IH]; intros l.
  - simpl. sat_step.
  - rewrite __flush_internals_S.
    repeat first [ sat_step | by apply evolves_same ].
Qed.

Lemma evolves_restore stores :
  sat evolves
    (for_of stores (fun store =>
       let* s := get in
       let* st := get_store store in
       let prevState := default (Store.prevState st) (__initialBatchValues s !! store) in
       set_cell store (CStore (Store.mk (Store._signal st) prevState)) >>
       __notifyListeners store)).
Proof.
  apply sat_for_of; [ apply _ | ]. intros store s.
  apply wp_bind, wp_get. unfold get_store. apply wp_bind, wp_bind, wp_get.
  destruct (cells s !! store) as [[st|d|]|] eqn:Hc; try (apply wp_throw; reflexivity).
  apply wp_ret. cbv zeta. apply wp_bind. unfold set_cell. apply wp_modify, wp_ret.
  apply evolves_set_store. eauto.
Qed.

Lemma evolves_visit v stores :
  sat evolves
    (for_of stores (fun store =>
       let* s := get in
       match __storeToDerived s !! store with
       | None => ret tt
       | Some derivedVals =>
           modify (fun s =>
             set_depsThatHaveWrittenThisTick ({[store]} ∪ __depsThatHaveWrittenThisTick s) s) >>
           let* s := get in
           __flush_internals v (depth s) derivedVals
       end)).
Proof.
  pose proof evolves__flush_internals.
  repeat first [ sat_step | by apply evolves_same ].
Qed.

Lemma evolves__flush_loop v fuel : sat evolves (__flush_loop v fuel).
Proof.
  induction fuel as [|fuel IH].
  - simpl. sat_step.
  - rewrite __flush_loop_S.
    pose proof evolves_restore as H. pose proof (evolves_visit v) as H0.
    sat_step; [ sat_step | ]. destruct (__pendingUpdates a); cbv iota zeta; [ sat_step | ].
    sat_step; [ apply sat_modify; intros ?; by apply evolves_same | ].
    sat_step; [ apply H | ]. sat_step; [ apply H0 | ]. exact IH.
Qed.

Lemma evolves__flush v store : sat evolves (__flush v store).
Proof.
  pose proof evolves__flush_loop. unfold __flush.
  repeat first [ sat_step | by apply evolves_same ].
Qed.

Lemma evolves_setState_update v this u : sat evolves (setState_update v this u).
Proof.
  intros s. unfold setState_update, get_store. apply wp_bind, wp_bind, wp_get.
  destruct (cells s !! this) as [[st|d|]|] eqn:Hc; try (apply wp_throw; reflexivity).
  apply wp_ret. cbv zeta. unfold set_cell.
  apply wp_bind, wp_modify. set (s1 := set_cells _ s).
  assert (H1 : evolves s s1) by (apply evolves_set_store; eauto).
  apply wp_bind, wp_modify. set (s2 := set_cells _ s1).
  assert (H2 : evolves s1 s2).
  { apply evolves_set_store. simpl. rewrite list_lookup_insert_eq; [ eauto | ].
    by eapply lookup_lt_Some. }
  apply wp_bind, wp_get.
  assert (H12 : evolves s s2) by (by etrans).
  destruct (Map_has _ _); [ | by apply wp_ret ].
  eapply wp_mono; [ apply evolves__flush | ]. intros r s3 H3. simpl in H3. by etrans.
Qed.

Lemma evolves_setState v this u : sat evolves (setState v this u).
Proof.
  pose proof evolves_setState_update. unfold setState, queueSignalUpdate.
  repeat first [ sat_step | by apply evolves_same ].
Qed.

Lemma evolves_mount_unmount v this :
  sat evolves (mount v this) ∧ sat evolves (unmount this).
Proof.
  split.
  - unfold mount. apply sat_bind; [ apply _ | | intros _; apply evolves_check ].
    eapply sat_weaken; [ apply evolves_registry | ].
    intros s. apply (registry_only_mount_unmount this s).
  - eapply sat_weaken; [ apply evolves_registry | ].
    intros s. apply (registry_only_mount_unmount this s).
Qed.

(** *** States between client calls *)

Lemma computes_later_from s0 s i evs :
  (∀ p, compute_ok s0 i p → prevDepVals p ≠ None ∧ computes i (trace s) ≠ []) →
  Forall (event_ok s0) evs →
  Forall (fun q => prevDepVals q ≠ None) (computes i evs) ∧
  (computes i evs ≠ [] → computes i (trace s) ≠ []).
Proof.
  intros Hd He. induction He as [|e evs He _ [IH1 IH2]]; [ done | ].
  change (e :: evs) with ([e] ++ evs). rewrite computes_app.
  destruct e as [d p| |]; [ | done | done ].
  unfold computes at 1 3. simpl. destruct (decide (d = i)) as [->|]; [ | done ].
  destruct (Hd p He) as [Hp Hne]. simpl.
  split; [ | done ]. by constructor.
Qed.

Lemma computes_later s i evs :
  settled s → Forall (event_ok s) evs →
  Forall (fun q => prevDepVals q ≠ None) (computes i evs) ∧
  (computes i evs ≠ [] → computes i (trace s) ≠ []).
Proof.
  intros (_ & Hd & _ & _). apply computes_later_from.
  intros p (dd & Hdd & Hp). destruct (Hd _ _ Hdd) as [Hr Hne]. split; [ by apply Hp | done ].
Qed.

Lemma first_then_later_app ps qs :
  first_then_later ps → (qs ≠ [] → ps ≠ []) →
  Forall (fun q => prevDepVals q ≠ None) qs → first_then_later (ps ++ qs).
Proof.
  intros Hp Hne Hq. destruct ps as [|p ps]; simpl.
  - destruct qs; [ done | ]. by destruct Hne.
  - destruct Hp as (? & ? & ?). split; [ done | ]. split; [ done | ].
    apply Forall_app. done.
Qed.

Lemma settled_step s s' : step s s' → settled s → settled s'.
Proof.
  intros [Hc (evs & Ht & He)] Hs.
  assert (Hl := fun i => computes_later s i evs Hs He).
  destruct Hs as (Hwf & Hd & Hlen & Hf).
  split; [ by eapply cells_le_wf | ]. rewrite Ht. split; [ | split ].
  - intros i d' Hd'. destruct (cells_le_derived_inv _ _ _ _ Hc Hd') as (d & Hdd & _ & _ & Hr).
    destruct (Hd _ _ Hdd) as [Hr0 Hne]. split; [ by apply Hr | ].
    rewrite computes_app. intros [? _]%app_eq_nil. done.
  - intros i Hi. rewrite <- (Forall2_length _ _ _ Hc) in Hi.
    rewrite computes_app, (Hlen i Hi). simpl.
    destruct (computes i evs) eqn:E; [ done | ]. destruct (Hl i) as [_ H].
    rewrite E in H. destruct H; [ done | by apply Hlen ].
  - intros i. rewrite computes_app. destruct (Hl i) as [H1 H2].
    by apply first_then_later_app.
Qed.

Lemma evolves_keeps_settled s s' : evolves s s' → keeps_settled s s'.
Proof. intros H Hs. eapply settled_step; [ | done ]. apply H, Hs. Qed.

Lemma settled_initial : settled initial.
Proof.
  split; [ | split; [ | split ] ].
  - intros i c Hi. done.
  - intros i d Hd. done.
  - done.
  - intros i. done.
Qed.

Lemma keeps_settled_new_Store a : sat keeps_settled (new_Store a).
Proof.
  intros s. unfold new_Store. apply wp_bind, wp_get. apply wp_bind, wp_modify, wp_ret.
  intros (Hwf & Hd & Hlen & Hf). split; [ by apply wf_snoc | ]. simpl.
  split; [ | split; [ | done ] ].
  - intros i d Hi. apply Hd. unfold derived_at in *. simpl in Hi.
    destruct (decide (i < length (cells s))) as [Hlt|Hge].
    + by rewrite lookup_app_l in Hi.
    + rewrite lookup_app_r in Hi by lia.
      by destruct (i - length (cells s)) as [|n].
  - intros i Hi. apply Hlen. rewrite length_app in Hi. simpl in Hi. lia.
Qed.

(** A constructor call: one cell more, and the calls [evs]. *)
Lemma settled_grow s s' evs :
  settled s →
  trace s' = trace s ++ evs →
  wf s' →
  length (cells s') = S (length (cells s)) →
  (∀ i d', i < length (cells s) → derived_at s' i = Some d' →
     ∃ d, derived_at s i = Some d ∧
          (Derived._isFirstRun d = false → Derived._isFirstRun d' = false)) →
  (∀ d', derived_at s' (length (cells s)) = Some d' →
     Derived._isFirstRun d' = false ∧ computes (length (cells s)) evs ≠ []) →
  (∀ i, i < length (cells s) →
     Forall (fun q => prevDepVals q ≠ None) (computes i evs) ∧
     (computes i evs ≠ [] → computes i (trace s) ≠ [])) →
  first_then_later (computes (length (cells s)) evs) →
  (∀ i, S (length (cells s)) ≤ i → computes i evs = []) →
  settled s'.
Proof.
  intros (Hwf & Hd & Hlen & Hf) Ht Hwf' Hl Hold Hnew Hev Hthis Hrest.
  split; [ done | ]. rewrite Ht. split; [ | split ].
  - intros i d' Hd'. assert (Hi : i < S (length (cells s))).
    { rewrite <- Hl. by eapply derived_at_lt. }
    rewrite computes_app.
    destruct (decide (i = length (cells s))) as [->|Hne].
    + destruct (Hnew _ Hd') as [? Hc]. split; [ done | ].
      intros [_ ?]%app_eq_nil. done.
    + destruct (Hold i d') as (d & Hdd & Hr); [ lia | done | ].
      destruct (Hd _ _ Hdd) as [Hr0 Hc]. split; [ by apply Hr | ].
      intros [? _]%app_eq_nil. done.
  - intros i Hi. rewrite Hl in Hi. rewrite computes_app, Hlen, Hrest by lia. done.
  - intros i. rewrite computes_app.
    destruct (decide (i < length (cells s))) as [Hlt|Hge].
    + destruct (Hev i Hlt). by apply first_then_later_app.
    + rewrite Hlen by lia. simpl.
      destruct (decide (i = length (cells s))) as [->|Hne]; [ done | ].
      by rewrite Hrest by lia.
Qed.

(** The constructor ends, and leaves a settled state. *)
Lemma settled_new_Derived v deps fn s :
  settled s →
  wp (new_Derived v deps fn) s (fun r s' => settled s' ∧ r ≠ OutOfFuel).
Proof.
  intros Hs. unfold new_Derived. apply wp_bind, wp_get.
  set (this := length (cells s)).
  destruct (forallb _ deps) eqn:Hdeps; [ | by apply wp_throw ].
  cbv zeta.
  set (fresh := match v with Allocating => _ | Reusing => _ end).
  apply wp_bind, wp_modify.
  set (s0 := set_cells (cells s ++ [CDerived fresh]) s).
  assert (Hfresh : Derived.deps fresh = deps ∧ Derived._computed fresh = None ∧
                   Derived._isFirstRun fresh = true ∧ pv v fresh = None).
  { subst fresh. by destruct v. }
  destruct Hfresh as (Hfd & Hfc & Hfr & Hfp).
  pose proof Hs as (Hwf & Hd & Hlen & Hf).
  assert (Hwf0 : wf s0).
  { apply wf_snoc; [ done | ]. simpl. rewrite Hfd.
    apply Forall_forall. intros dep Hin%list_elem_of_In.
    rewrite forallb_forall in Hdeps.
    specialize (Hdeps dep Hin). by apply Nat.ltb_lt in Hdeps. }
  assert (Hd0 : derived_at s0 this = Some fresh).
  { unfold derived_at, s0. simpl. by rewrite lookup_app_r, Nat.sub_diag by done. }
  assert (Hold : ∀ i, i < this → derived_at s0 i = derived_at s i).
  { intros i Hi. unfold derived_at, s0. simpl. by rewrite lookup_app_l. }
  apply wp_on_throw, wp_bind.
  eapply wp_mono; [ by eapply _computed_spec | ].
  intros r s1 (Hb & Hoof & Hlen1 & Hps & Hok). simpl in Hlen1, Hps, Hok.
  destruct Hb as [_ Hc1 _ _ (evs & Ht & Hp)].
  assert (He : events_since s0 s1 = evs) by (by apply events_since_app).
  rewrite He in Hlen1, Hps, Hok.
  assert (Hwf1 : wf s1) by (by eapply cells_le_wf).
  assert (Hl1 : length (cells s1) = S this).
  { rewrite <- (Forall2_length _ _ _ Hc1). unfold s0. simpl. rewrite length_app. simpl. lia. }
  assert (Hold1 : ∀ i d', i < this → derived_at s1 i = Some d' →
    ∃ d, derived_at s i = Some d ∧
         (Derived._isFirstRun d = false → Derived._isFirstRun d' = false)).
  { intros i d' Hi Hd'.
    destruct (cells_le_derived_inv _ _ _ _ Hc1 Hd') as (d & Hdd & _ & _ & Hr).
    exists d. split; [ by rewrite <- Hold | done ]. }
  assert (Hev_old : ∀ i, i < this →
    Forall (fun q => prevDepVals q ≠ None) (computes i evs) ∧
    (computes i evs ≠ [] → computes i (trace s) ≠ [])).
  { intros i Hi. apply (computes_later_from s0).
    - intros p (dd & Hdd & Hpp). rewrite Hold in Hdd by done.
      destruct (Hd _ _ Hdd). split; [ by apply Hpp | done ].
    - eapply Forall_impl; [ exact Hp | ]. intros [d p| |]; simpl; try done. by intros [_ ?]. }
  assert (Hev_this : first_then_later (computes this evs)).
  { destruct (computes this evs) as [|p [|? ?]]; [ done | | simpl in Hlen1; lia ].
    apply Forall_inv in Hps. destruct Hps as (Hpv & Hfirst & _). simpl.
    split; [ by apply Hfirst | ]. split; [ by rewrite Hpv | constructor ]. }
  assert (Hev_new : ∀ i, S this ≤ i → computes i evs = []).
  { intros i Hi. by eapply computes_pulled. }
  assert (Hfinal : ∀ c s', cells s' = <[this:=c]> (cells s1) → trace s' = trace s1 →
    (∀ d', c = CDerived d' →
       Forall (fun dep => dep < this) (Derived.deps d') ∧
       Derived._isFirstRun d' = false ∧ computes this evs ≠ []) →
    settled s').
  { intros c s' Hcs Hts Hc. apply (settled_grow s s' evs); try done.
    - by rewrite Hts, Ht.
    - intros i c' Hi. rewrite Hcs in Hi.
      apply list_lookup_insert_Some in Hi as [(<- & <- & _)|[_ Hj]]; [ | by eapply Hwf1 ].
      destruct c; try done. simpl. by apply Hc.
    - by rewrite Hcs, length_insert.
    - intros i d' Hi Hd'. apply Hold1; [ done | ]. unfold derived_at in *.
      rewrite Hcs, list_lookup_insert_ne in Hd' by (fold this; lia). done.
    - intros d' Hd'. unfold derived_at in Hd'.
      rewrite Hcs, list_lookup_insert_eq in Hd' by (fold this; lia).
      destruct c; try done. simplify_eq. by apply Hc. }
  destruct r as [z| |]; simpl; [ | | done ].
  2: { split; [ by apply (Hfinal CUnreachable) | done ]. }
  destruct (Hok z eq_refl) as [(_ & _ & c & Hc & _)|(p & d1 & Hp1 & Hfn & Hd1 & Hc1' & Hran)];
    [ congruence | ].
  assert (Hdeps1 : Forall (fun dep => dep < this) (Derived.deps d1)).
  { apply derived_at_Some in Hd1. apply (Hwf1 _ _ Hd1). }
  assert (Hr1 : Derived._isFirstRun d1 = false) by apply Hran.
  apply wp_bind, wp_update_derived. rewrite Hd1.
  set (d2 := Derived.set_cachedState (Some z) d1). set (s2 := set_cells _ s1).
  destruct v.
  - apply wp_bind, wp_ret, wp_ret. split; [ | done ].
    apply (Hfinal (CDerived d2)); [ done | done | ].
    intros d' [= <-]. split; [ done | ]. split; [ done | by rewrite Hp1 ].
  - apply wp_bind, wp_update_derived.
    assert (Hd2 : derived_at s2 this = Some d2).
    { apply (derived_at_insert s1). by eapply derived_at_lt. }
    rewrite Hd2. apply wp_ret. split; [ | done ].
    apply (Hfinal (CDerived (Derived.set_prevState (Derived._cachedState d2) d2)));
      [ simpl; by rewrite list_insert_insert_eq | done | ].
    intros d' [= <-]. split; [ done | ]. split; [ done | by rewrite Hp1 ].
Qed.

Lemma keeps_settled_new_Derived v deps fn : sat keeps_settled (new_Derived v deps fn).
Proof. intros s. unfold wp. intros Hs. exact (proj1 (settled_new_Derived v deps fn s Hs)). Qed.

Lemma keeps_settled_batch v (fn : M unit) :
  sat keeps_settled fn → sat keeps_settled (batch v fn).
Proof.
  intros Hfn.
  assert (Hup : ∀ st u, sat keeps_settled (setState_update v st u)).
  { intros. eapply sat_weaken; [ apply evolves_keeps_settled | apply evolves_setState_update ]. }
  unfold batch.
  repeat first [ sat_step | by apply evolves_keeps_settled, evolves_same ].
Qed.

Lemma keeps_settled_run_op v o : sat keeps_settled (run_op v o).
Proof.
  revert o. fix IH 1. intros o.
  assert (Hev : ∀ {A} (m : M A), sat evolves m → sat keeps_settled m).
  { intros A m H. eapply sat_weaken; [ apply evolves_keeps_settled | exact H ]. }
  destruct o as [a|deps fn|st u|i|d|d|d|d|fn]; simpl.
  - apply sat_bind; [ apply _ | | intros; apply sat_ret; apply _ ].
    apply keeps_settled_new_Store.
  - apply sat_bind; [ apply _ | | intros; apply sat_ret; apply _ ].
    apply keeps_settled_new_Derived.
  - apply Hev, evolves_setState.
  - apply sat_bind; [ apply _ | | intros; apply sat_ret; apply _ ].
    apply Hev, evolves_state_of.
  - apply Hev, evolves_recompute.
  - apply Hev, evolves_check.
  - apply Hev, evolves_mount_unmount.
  - apply Hev, (evolves_mount_unmount v).
  - apply keeps_settled_batch.
    induction fn as [|o fn IHfn].
    + apply sat_ret. apply _.
    + rewrite for_of_cons. apply sat_bind; [ apply _ | apply IH | intros _; apply IHfn ].
Qed.

(** ** Every call ends *)

Section ends.
Context (I : state → Prop) (T : state → state → Prop) `{!PreOrder T} `{!Keeps I T}.

Lemma ends_ret {A} (a : A) : ends I T (ret a).
Proof. intros s _. apply wp_ret. split; [ reflexivity | done ]. Qed.
Lemma ends_throw {A} : ends I T (@throw A).
Proof. intros s _. apply wp_throw. split; [ reflexivity | done ]. Qed.
Lemma ends_get : ends I T get.
Proof. intros s _. apply wp_get. split; [ reflexivity | done ]. Qed.
Lemma ends_modify f : (∀ s, I s → T s (f s)) → ends I T (modify f).
Proof. intros H s Hs. apply wp_modify. split; [ by apply H | done ]. Qed.
Lemma ends_bind {A B} (m : M A) (k : A → M B) :
  ends I T m → (∀ a, ends I T (k a)) → ends I T (bind m k).
Proof.
  intros Hm Hk s Hs. apply wp_bind. eapply wp_mono; [ by apply Hm | ].
  intros [a| |] s1 [HT Hr]; simpl; [ | done | done ].
  eapply wp_mono; [ apply Hk; by eapply keeps | ].
  intros r s2 [HT2 Hr2]. simpl. split; [ by etrans | done ].
Qed.
Lemma ends_bind_get {A} (k : state → M A) :
  (∀ s, I s → wp (k s) s (fun r s' => T s s' ∧ r ≠ OutOfFuel)) → ends I T (bind get k).
Proof. intros H s Hs. apply wp_bind, wp_get. by apply H. Qed.
Lemma ends_for_of {A} (l : list A) body :
  (∀ x, x ∈ l → ends I T (body x)) → ends I T (for_of l body).
Proof.
  induction l as [|x l IH]; intros H.
  - rewrite for_of_nil. apply ends_ret.
  - rewrite for_of_cons. apply ends_bind; [ apply H; left | intros _ ].
    apply IH. intros y Hy. apply H. by right.
Qed.
Lemma ends_fold_M {A B} (f : B → A → M B) b l :
  (∀ b x, x ∈ l → ends I T (f b x)) → ends I T (fold_M f b l).
Proof.
  revert b. induction l as [|x l IH]; intros b H.
  - rewrite fold_M_nil. apply ends_ret.
  - rewrite fold_M_cons. apply ends_bind; [ apply H; left | intros b' ].
    apply IH. intros b'' y Hy. apply H. by right.
Qed.
Lemma ends_try_finally {A} (m : M A) fin :
  ends I T m → ends I T fin → ends I T (try_finally m fin).
Proof.
  intros Hm Hf s Hs. apply wp_try_finally. eapply wp_mono; [ by apply Hm | ].
  intros r s1 [HT Hr]. simpl.
  eapply wp_mono; [ apply Hf; by eapply keeps | ].
  intros rf s2 [HT2 Hr2]. simpl.
  destruct rf as [[]| |]; (split; [ by etrans | done ]).
Qed.
End ends.

Lemma ends_weaken {A} (I I' : state → Prop) (T T' : state → state → Prop) (m : M A) :
  (∀ s, I' s → I s) → (∀ s s', I' s → T s s' → T' s s') → ends I T m → ends I' T' m.
Proof.
  intros HI HT H s Hs. eapply wp_mono; [ apply H; by apply HI | ].
  intros r s' [? ?]. simpl. split; [ by eapply HT | done ].
Qed.

Global Instance inner_preorder : PreOrder inner.
Proof.
  split.
  - intros s. split; reflexivity.
  - intros s1 s2 s3 [H1 E1] [H2 E2]. split; [ by etrans | congruence ].
Qed.
Global Instance calm_preorder : PreOrder calm.
Proof.
  split.
  - intros s. split; reflexivity.
  - intros s1 s2 s3 [H1 E1] [H2 E2]. split; [ by etrans | set_solver ].
Qed.
Global Instance keeps_wf_step : Keeps wf step.
Proof. intros s s' H. by apply step_wf. Qed.
Global Instance keeps_wf_inner : Keeps wf inner.
Proof. intros s s' [H _]. by apply step_wf. Qed.
Global Instance keeps_wf_calm : Keeps wf calm.
Proof. intros s s' [H _]. by apply step_wf. Qed.
Global Instance keeps_settled_keeps : Keeps settled keeps_settled.
Proof. intros s s' H. done. Qed.

Lemma inner_calm s s' : inner s s' → calm s s'.
Proof.
  intros [H E]. split; [ done | ]. unfold sched_of in E.
  replace (__depsThatHaveWrittenThisTick s') with (__depsThatHaveWrittenThisTick s)
    by congruence. done.
Qed.
Lemma calm_step s s' : calm s s' → step s s'.
Proof. by intros [? _]. Qed.
Lemma inner_step s s' : inner s s' → step s s'.
Proof. by intros [? _]. Qed.

Lemma below_inner n s s' : below n s s' → inner s s'.
Proof. intros H. split; [ by eapply below_step | apply H ]. Qed.
Lemma reads_inner i s s' : reads i s s' → inner s s'.
Proof. intros H%reads_below. by eapply below_inner. Qed.

Create HintDb ends discriminated.

Ltac ends_step :=
  lazymatch goal with
  | |- ends _ _ (bind _ _) => apply ends_bind; [ try apply _ | try apply _ | | intros ? ]
  | |- ends _ _ (ret _) => apply ends_ret; apply _
  | |- ends _ _ throw => apply ends_throw; apply _
  | |- ends _ _ get => apply ends_get; apply _
  | |- ends _ _ (for_of _ _) => apply ends_for_of; [ try apply _ | try apply _ | intros ? ? ]
  | |- ends _ _ (fold_M _ _ _) => apply ends_fold_M; [ try apply _ | try apply _ | intros ? ? ? ]
  | |- ends _ _ (try_finally _ _) =>
      apply ends_try_finally; [ try apply _ | try apply _ | | ]
  | |- ends _ _ (match ?x with _ => _ end) => destruct x
  | |- ends _ _ (let _ := _ in _) => cbv zeta
  | |- ends _ _ (modify _) =>
      first [ assumption | solve [ eauto 3 with ends ] | apply ends_modify; intros ? ? ]
  | |- ends _ _ ?m =>
      first [ assumption
            | solve [ eauto 3 with ends ]
            | let h := head_of m in unfold h ]
  end.

(** *** Reads *)

Lemma ends_emit d : ends wf inner (emit (EvRecompute d)) ∧ ends wf inner (emit (EvOnUpdate d)).
Proof.
  split; intros s Hwf; apply wp_emit.
  - split; [ | done ]. split; [ | done ]. by apply (evolves_emit_recompute d s).
  - split; [ | done ]. split; [ | done ]. by apply (evolves_emit_onUpdate d s).
Qed.

Lemma ends_update_derived i f :
  (∀ d, cell_le (CDerived d) (CDerived (f d))) → ends wf inner (update_derived i f).
Proof.
  intros Hf s Hwf. apply wp_update_derived.
  destruct (derived_at s i) as [d|] eqn:Hd; [ | split; [ reflexivity | done ] ].
  split; [ | done ]. split; [ | done ]. split; [ by eapply cells_le_insert | ].
  exists []. by rewrite app_nil_r.
Qed.

Lemma ends__computed v j : ends wf inner (_computed v j).
Proof.
  intros s Hwf. destruct (derived_at s j) as [d|] eqn:Hd.
  - eapply wp_mono; [ by eapply _computed_spec | ].
    intros r s' (Hb & Hr & _). simpl. split; [ by eapply below_inner | done ].
  - unfold _computed. apply wp_bind, wp_get. unfold depth.
    change (2 + length (cells s)) with (S (S (length (cells s)))).
    rewrite _computed_read_S. cbv zeta. apply wp_bind, wp_get_derived. rewrite Hd.
    split; [ reflexivity | done ].
Qed.

Lemma ends_state_of v i : ends wf inner (state_of v i).
Proof.
  intros s Hwf. unfold state_of. apply wp_bind, wp_get.
  destruct (decide (i < length (cells s))) as [Hi|Hi].
  - eapply wp_mono.
    { apply (get_state_below v (depth s) i (S i) s (pull_ok_all v _) Hwf). lia. }
    intros r s' [Hb Hr]. simpl. split; [ by eapply below_inner | ].
    apply Hr. unfold depth. lia.
  - unfold get_state. apply wp_bind, wp_get.
    rewrite lookup_ge_None_2 by lia. apply wp_throw. split; [ reflexivity | done ].
Qed.

Lemma ends_getDepVals v i s :
  wf s →
  wp (getDepVals v (_computed_read v (depth s)) i) s (fun r s' => inner s s' ∧ r ≠ OutOfFuel).
Proof.
  intros Hwf. destruct (derived_at s i) as [d|] eqn:Hd.
  - eapply wp_mono; [ apply (getDepVals_spec v (depth s) i d s (pull_ok_all v _) Hwf Hd) | ].
    intros r s' (Hb & Hr & _). simpl. split; [ by eapply reads_inner | ].
    apply Hr. apply derived_at_lt in Hd. unfold depth. lia.
  - unfold getDepVals. destruct v; apply wp_bind, wp_get_derived; rewrite Hd;
      (split; [ reflexivity | done ]).
Qed.

Lemma ends_get_derived i : ends wf inner (get_derived i).
Proof. repeat ends_step. Qed.

Lemma ends_recompute v this : ends wf inner (recompute v this).
Proof.
  pose proof (ends__computed v). pose proof ends_get_derived.
  destruct (ends_emit this).
  unfold recompute.
  destruct v; repeat first [ apply ends_update_derived; intros d; by simpl | ends_step ].
Qed.

Lemma wp_conj {A} (m : M A) s (Q1 Q2 : outcome A → state → Prop) :
  wp m s Q1 → wp m s Q2 → wp m s (fun r s' => Q1 r s' ∧ Q2 r s').
Proof. unfold wp. by split. Qed.

Lemma ends_bind_at (I : state → Prop) (T : state → state → Prop)
    `{!PreOrder T} `{!Keeps I T} {A B} (m : M A) (k : A → M B) s :
  I s → wp m s (fun r s' => T s s' ∧ r ≠ OutOfFuel) → (∀ a, ends I T (k a)) →
  wp (bind m k) s (fun r s' => T s s' ∧ r ≠ OutOfFuel).
Proof.
  intros Hs Hm Hk. apply wp_bind. eapply wp_mono; [ exact Hm | ].
  intros [a| |] s1 [HT Hr]; simpl; [ | done | done ].
  eapply wp_mono; [ apply Hk; by eapply keeps | ].
  intros r s2 [HT2 Hr2]. simpl. split; [ by etrans | done ].
Qed.

(** *** Staleness checks *)

Lemma ends_check_rec v fuel this :
  this < fuel → ends wf inner (checkIfRecalculationNeededDeeply_rec v fuel this).
Proof.
  revert this. induction fuel as [|fuel IH]; intros this Hlt; [ lia | ].
  rewrite check_rec_S. intros s Hwf. apply wp_bind, wp_get_derived.
  destruct (derived_at s this) as [d|] eqn:Hd; [ | split; [ reflexivity | done ] ].
  assert (Hdeps : Forall (fun dep => dep < this) (Derived.deps d)).
  { apply derived_at_Some in Hd. apply (Hwf _ _ Hd). }
  assert (H : ends wf inner (for_of (Derived.deps d) (fun dep =>
                let* s := get in
                match cells s !! dep with
                | Some (CDerived _) => checkIfRecalculationNeededDeeply_rec v fuel dep
                | _ => ret tt
                end) >>
              let* d := get_derived this in
              let lastSeenDepValues := Derived.lastSeenDepValues d in
              let* s := get in
              let* depVals := getDepVals v (_computed_read v (depth s)) this in
              let* d := get_derived this in
              if shouldRecompute (currDepVals depVals) (Derived.deref d lastSeenDepValues)
                   0 (length (currDepVals depVals))
              then recompute v this
              else ret tt)).
  { apply ends_bind; [ apply _ | apply _ | | intros _ ].
    - apply ends_for_of; [ apply _ | apply _ | ]. intros dep Hin.
      rewrite Forall_forall in Hdeps. specialize (Hdeps dep Hin).
      apply ends_bind; [ apply _ | apply _ | apply ends_get; apply _ | intros s0 ].
      destruct (cells s0 !! dep) as [[| |]|]; try apply ends_ret; try apply _.
      apply IH. lia.
    - apply ends_bind; [ apply _ | apply _ | apply ends_get_derived | intros d1 ].
      cbv zeta. apply ends_bind_get. intros s0 Hwf0.
      apply (ends_bind_at wf inner); [ done | by apply ends_getDepVals | intros depVals ].
      apply ends_bind; [ apply _ | apply _ | apply ends_get_derived | intros d2 ].
      destruct (shouldRecompute _ _ _ _); [ apply ends_recompute | apply ends_ret; apply _ ]. }
  by apply H.
Qed.

Lemma ends_check v this : ends wf inner (checkIfRecalculationNeededDeeply v this).
Proof.
  intros s Hwf. unfold checkIfRecalculationNeededDeeply. apply wp_bind, wp_get.
  destruct (derived_at s this) as [d|] eqn:Hd.
  - apply ends_check_rec; [ | done ]. apply derived_at_lt in Hd. unfold depth. lia.
  - unfold depth. change (2 + length (cells s)) with (S (S (length (cells s)))).
    rewrite check_rec_S. apply wp_bind, wp_get_derived. rewrite Hd.
    split; [ reflexivity | done ].
Qed.

(** *** The registry *)

Lemma step_registry s s' : registry_only s s' → step s s'.
Proof. intros (Hc & Ht & _). by apply step_same. Qed.

Lemma ends_register_under this dep toSort : ends wf step (register_under this dep toSort).
Proof.
  unfold register_under.
  repeat first [ ends_step | by apply step_same ].
Qed.

Lemma ends_unregister_under this dep : ends wf step (unregister_under this dep).
Proof.
  unfold unregister_under.
  repeat first [ ends_step | by apply step_same ].
Qed.

Lemma ends_registerOnGraph_rec fuel n this deps :
  n < fuel → Forall (fun dep => dep < n) deps →
  ends wf step (registerOnGraph_rec fuel this deps).
Proof.
  revert n this deps. induction fuel as [|fuel IH]; intros n this deps Hn Hdeps; [ lia | ].
  rewrite registerOnGraph_rec_S.
  apply ends_bind; [ apply _ | apply _ | | intros toSort ].
  - apply ends_fold_M; [ apply _ | apply _ | ]. intros acc dep Hin.
    rewrite Forall_forall in Hdeps. specialize (Hdeps dep Hin).
    apply ends_bind_get. intros s Hwf.
    destruct (cells s !! dep) as [[st|dd|]|] eqn:Hc.
    + by apply ends_register_under.
    + assert (Hdd : Forall (fun x => x < dep) (Derived.deps dd)) by apply (Hwf _ _ Hc).
      assert (H : ends wf step (registerOnGraph_rec fuel dep (Derived.deps dd) >>
                                registerOnGraph_rec fuel this (Derived.deps dd) >>
                                ret acc)).
      { apply ends_bind; [ apply _ | apply _ | apply (IH dep); (lia || done) | intros _ ].
        apply ends_bind; [ apply _ | apply _ | apply (IH dep); (lia || done) | intros _ ].
        apply ends_ret. apply _. }
      by apply H.
    + by apply (ends_ret wf step).
    + by apply (ends_ret wf step).
  - apply ends_for_of; [ apply _ | apply _ | ]. intros st _.
    apply ends_modify. intros s _.
    destruct (__storeToDerived s !! st); [ by apply step_same | reflexivity ].
Qed.

Lemma ends_unregisterFromGraph_rec fuel n this deps :
  n < fuel → Forall (fun dep => dep < n) deps →
  ends wf step (unregisterFromGraph_rec fuel this deps).
Proof.
  revert n this deps. induction fuel as [|fuel IH]; intros n this deps Hn Hdeps; [ lia | ].
  rewrite unregisterFromGraph_rec_S.
  apply ends_for_of; [ apply _ | apply _ | ]. intros dep Hin.
  rewrite Forall_forall in Hdeps. specialize (Hdeps dep Hin).
  apply ends_bind_get. intros s Hwf.
  destruct (cells s !! dep) as [[st|dd|]|] eqn:Hc.
  - by apply ends_unregister_under.
  - assert (Hdd : Forall (fun x => x < dep) (Derived.deps dd)) by apply (Hwf _ _ Hc).
    apply (IH dep); [ lia | done | done ].
  - by apply (ends_ret wf step).
  - by apply (ends_ret wf step).
Qed.

Lemma ends_registerOnGraph this : ends wf step (registerOnGraph this).
Proof.
  intros s Hwf. unfold registerOnGraph. apply wp_bind, wp_get.
  apply wp_bind, wp_get_derived.
  destruct (derived_at s this) as [d|] eqn:Hd; [ | split; [ reflexivity | done ] ].
  apply (ends_registerOnGraph_rec _ this); [ | | done ].
  - apply derived_at_lt in Hd. unfold depth. lia.
  - apply derived_at_Some in Hd. apply (Hwf _ _ Hd).
Qed.

Lemma ends_unmount this : ends wf step (unmount this).
Proof.
  intros s Hwf. unfold unmount, unregisterFromGraph. apply wp_bind, wp_get.
  apply wp_bind, wp_get_derived.
  destruct (derived_at s this) as [d|] eqn:Hd; [ | split; [ reflexivity | done ] ].
  apply (ends_unregisterFromGraph_rec _ this); [ | | done ].
  - apply derived_at_lt in Hd. unfold depth. lia.
  - apply derived_at_Some in Hd. apply (Hwf _ _ Hd).
Qed.

Lemma ends_mount v this : ends wf step (mount v this).
Proof.
  unfold mount. apply ends_bind; [ apply _ | apply _ | apply ends_registerOnGraph | intros _ ].
  eapply ends_weaken; [ | | apply ends_check ]; [ done | ]. intros s s' _. apply inner_step.
Qed.

(** *** The flush *)

Lemma filter_length_mono {A} (P Q : A → Prop) `{!∀ x, Decision (P x)}
    `{!∀ x, Decision (Q x)} (l : list A) :
  (∀ x, P x → Q x) → length (filter P l) ≤ length (filter Q l).
Proof.
  intros HPQ. induction l as [|x l IH]; [ done | ]. rewrite !filter_cons.
  destruct (decide (P x)), (decide (Q x)); simpl; try lia. exfalso. auto.
Qed.

Lemma filter_length_lt {A} (P Q : A → Prop) `{!∀ x, Decision (P x)}
    `{!∀ x, Decision (Q x)} (l : list A) x :
  (∀ x, P x → Q x) → x ∈ l → Q x → ¬ P x →
  length (filter P l) < length (filter Q l).
Proof.
  intros HPQ Hin HQ HP. induction l as [|y l IH]; [ by inversion Hin | ].
  rewrite !filter_cons. pose proof (filter_length_mono P Q l HPQ).
  apply elem_of_cons in Hin as [<-|Hin'].
  - destruct (decide (P x)); [ done | ]. destruct (decide (Q x)); [ | done ]. simpl. lia.
  - specialize (IH Hin').
    destruct (decide (P y)), (decide (Q y)); simpl; try lia. exfalso. auto.
Qed.

Lemma unvisited_le s : unvisited s ≤ length (cells s).
Proof.
  unfold unvisited. etrans; [ apply length_filter | ]. by rewrite length_seq.
Qed.

Lemma unvisited_calm s s' : calm s s' → unvisited s' ≤ unvisited s.
Proof.
  intros [[Hc _] Hv]. unfold unvisited. rewrite <- (Forall2_length _ _ _ Hc).
  apply filter_length_mono. set_solver.
Qed.

Lemma unvisited_lt s s' d :
  calm s s' → d < length (cells s) →
  d ∉ __depsThatHaveWrittenThisTick s → d ∈ __depsThatHaveWrittenThisTick s' →
  unvisited s' < unvisited s.
Proof.
  intros [[Hc _] Hv] Hd Hn Hin. unfold unvisited. rewrite <- (Forall2_length _ _ _ Hc).
  apply (filter_length_lt _ _ _ d); [ set_solver | | done | by intros ? ].
  apply elem_of_seq. lia.
Qed.

(** [recompute()] returns only for a derived cell. *)
Lemma recompute_returns v this s :
  wp (recompute v this) s (fun r _ => r = Ok tt → this < length (cells s)).
Proof.
  destruct (derived_at s this) as [d|] eqn:Hd.
  - unfold wp. intros _. by eapply derived_at_lt.
  - unfold recompute. destruct v; apply wp_bind, wp_emit.
    + apply wp_bind, wp_update_derived.
      change (derived_at (set_trace (trace s ++ [EvRecompute this]) s) this)
        with (derived_at s this). rewrite Hd. done.
    + apply wp_bind. unfold _computed. apply wp_bind, wp_get. unfold depth.
      change (2 + length (cells (set_trace (trace s ++ [EvRecompute this]) s)))
        with (S (S (length (cells s)))).
      rewrite _computed_read_S. cbv zeta. apply wp_bind, wp_get_derived.
      change (derived_at (set_trace (trace s ++ [EvRecompute this]) s) this)
        with (derived_at s this). rewrite Hd. done.
Qed.

Lemma ends__flush_internals v fuel l s :
  wf s → unvisited s < fuel →
  wp (__flush_internals v fuel l) s (fun r s' => calm s s' ∧ r ≠ OutOfFuel).
Proof.
  revert l s. induction fuel as [|fuel IH]; intros l s Hwf Hu; [ lia | ].
  rewrite __flush_internals_S.
  set (I := fun s => wf s ∧ unvisited s < S fuel).
  assert (HK : Keeps I calm).
  { intros s1 s2 Hc [H1 H2]. split; [ by eapply keeps | ].
    pose proof (unvisited_calm _ _ Hc). lia. }
  set (I' := fun s => wf s ∧ unvisited s < fuel).
  assert (HK' : Keeps I' calm).
  { intros s1 s2 Hc [H1 H2]. split; [ by eapply keeps | ].
    pose proof (unvisited_calm _ _ Hc). lia. }
  assert (H' : ∀ stores, ends I' calm (for_of stores (fun store =>
            let* s := get in
            match __storeToDerived s !! store with
            | Some (d0 :: ds) => __flush_internals v fuel (d0 :: ds)
            | _ => ret tt
            end))).
  { intros stores. apply ends_for_of; [ apply _ | done | ]. intros store _.
    apply ends_bind_get. intros s4 [Hwf4 Hu4].
    destruct (__storeToDerived s4 !! store) as [[|d0 ds]|].
    - by apply (ends_ret I' calm).
    - by apply IH.
    - by apply (ends_ret I' calm). }
  apply (ends_for_of I calm); [ | done ]. intros derived _.
  apply ends_bind_get. intros s1 [Hwf1 Hu1].
  destruct (Set_has (__depsThatHaveWrittenThisTick s1) derived) eqn:Hv.
  { by apply (ends_ret I calm). }
  apply bool_decide_eq_false in Hv.
  apply wp_bind, wp_modify.
  set (s2 := set_depsThatHaveWrittenThisTick _ s1).
  assert (H12 : calm s1 s2).
  { split; [ by apply step_same | ]. simpl. set_solver. }
  apply wp_bind.
  eapply wp_mono;
    [ apply wp_conj; [ apply (ends_recompute v derived s2 Hwf1) | apply recompute_returns ] | ].
  intros r s3 [[Hin Hr] Hok]. simpl in Hok.
  assert (H23 : calm s2 s3) by (by apply inner_calm).
  assert (H13 : calm s1 s3) by (by etrans).
  destruct r as [[]| |]; simpl; [ | done | done ].
  specialize (Hok eq_refl).
  assert (Hu3 : unvisited s3 < unvisited s1).
  { apply (unvisited_lt s1 s3 derived); [ done | done | done | ].
    destruct H23 as [_ Hsub]. apply Hsub. simpl. set_solver. }
  assert (Hwf3 : wf s3) by (by eapply (keeps s1 s3)).
  apply wp_bind, wp_ret. apply wp_bind, wp_get.
  destruct (__derivedToStore s3 !! derived) as [stores|]; [ | by apply wp_ret ].
  eapply wp_mono; [ apply (H' stores s3); split; [ done | lia ] | ].
  intros r s5 [Hc Hr5]. simpl. split; [ by etrans | done ].
Qed.

Lemma ends_restore stores :
  ends wf step
    (for_of stores (fun store =>
       let* s := get in
       let* st := get_store store in
       let prevState := default (Store.prevState st) (__initialBatchValues s !! store) in
       set_cell store (CStore (Store.mk (Store._signal st) prevState)) >>
       __notifyListeners store)).
Proof.
  apply ends_for_of; [ apply _ | apply _ | ]. intros store _ s Hwf.
  apply wp_bind, wp_get. unfold get_store. apply wp_bind, wp_bind, wp_get.
  destruct (cells s !! store) as [[st|d|]|] eqn:Hc;
    try (apply wp_throw; split; [ reflexivity | done ]).
  apply wp_ret. cbv zeta. apply wp_bind. unfold set_cell. apply wp_modify, wp_ret.
  split; [ | done ]. apply evolves_set_store; eauto.
Qed.

Lemma ends_visit v stores :
  ends wf step
    (for_of stores (fun store =>
       let* s := get in
       match __storeToDerived s !! store with
       | None => ret tt
       | Some derivedVals =>
           modify (fun s =>
             set_depsThatHaveWrittenThisTick ({[store]} ∪ __depsThatHaveWrittenThisTick s) s) >>
           let* s := get in
           __flush_internals v (depth s) derivedVals
       end)).
Proof.
  apply ends_for_of; [ apply _ | apply _ | ]. intros store _.
  apply ends_bind_get. intros s Hwf.
  destruct (__storeToDerived s !! store) as [derivedVals|]; [ | by apply (ends_ret wf step) ].
  apply wp_bind, wp_modify. apply wp_bind, wp_get.
  set (s1 := set_depsThatHaveWrittenThisTick _ s).
  eapply wp_mono.
  { apply (ends__flush_internals v (depth s1) derivedVals s1 Hwf).
    pose proof (unvisited_le s1). unfold depth. lia. }
  intros r s2 [[H _] Hr]. simpl. split; [ | done ].
  etrans; [ | exact H ]. by apply step_same.
Qed.

Lemma ends__flush_loop v fuel : ends wf step (__flush_loop v (S (S fuel))).
Proof.
  intros s Hwf. rewrite __flush_loop_S. apply wp_bind, wp_get.
  destruct (__pendingUpdates s) as [|st stores] eqn:Hp.
  { apply wp_ret. split; [ reflexivity | done ]. }
  apply wp_bind, wp_modify. set (s1 := set_pendingUpdates [] s).
  assert (H01 : step s s1) by (by apply step_same).
  apply wp_bind.
  eapply wp_mono;
    [ apply wp_conj; [ apply (ends_restore (st :: stores) s1 Hwf)
                     | apply (flush_step_restore (st :: stores) s1) ] | ].
  intros r s2 [[H12 Hr] H2]. unfold flush_step, flush_frame in H2.
  injection H2 as E1 E2 E3 E4 E5. cbn in E1, E2, E3, E4, E5.
  assert (H02 : step s s2) by (by etrans).
  destruct r as [[]| |]; cbv beta iota; [ | done | done ].
  apply wp_bind.
  eapply wp_mono;
    [ apply wp_conj; [ apply (ends_visit v (st :: stores) s2); by eapply step_wf
                     | apply (flush_step_visit v (st :: stores) s2) ] | ].
  intros r s3 [[H23 Hr3] H3]. unfold flush_step, flush_frame in H3.
  injection H3 as F1 F2 F3 F4 F5.
  assert (H03 : step s s3) by (by etrans).
  destruct r as [[]| |]; cbv beta iota; [ | done | done ].
  rewrite __flush_loop_S. apply wp_bind, wp_get. rewrite F3, E3. by apply wp_ret.
Qed.

Lemma ends__flush v store : ends wf step (__flush v store).
Proof.
  assert (Hloop : ends wf step (let* s := get in __flush_loop v (depth s))).
  { apply ends_bind_get. intros s Hwf. by apply ends__flush_loop. }
  unfold __flush.
  apply ends_bind; [ apply _ | apply _ | apply ends_get; apply _ | intros s0 ].
  apply ends_bind; [ apply _ | apply _ | | intros _ ].
  { destruct (_ && _); repeat first [ ends_step | by apply step_same ]. }
  apply ends_bind; [ apply _ | apply _ | | intros _ ].
  { apply ends_modify. intros. by apply step_same. }
  apply ends_bind; [ apply _ | apply _ | apply ends_get; apply _ | intros s1 ].
  destruct (0 <? __batchDepth s1); [ apply ends_ret; apply _ | ].
  destruct (__isFlushing s1); [ apply ends_ret; apply _ | ].
  apply ends_try_finally; [ apply _ | apply _ | | ].
  - apply ends_bind; [ apply _ | apply _ | | intros _; exact Hloop ].
    apply ends_modify. intros. by apply step_same.
  - repeat first [ ends_step | by apply step_same ].
Qed.

Lemma ends_setState_update v this u : ends wf step (setState_update v this u).
Proof.
  intros s Hwf. unfold setState_update, get_store. apply wp_bind, wp_bind, wp_get.
  destruct (cells s !! this) as [[st|d|]|] eqn:Hc;
    try (apply wp_throw; split; [ reflexivity | done ]).
  apply wp_ret. cbv zeta. unfold set_cell.
  apply wp_bind, wp_modify. set (s1 := set_cells _ s).
  assert (H1 : step s s1) by (apply evolves_set_store; eauto).
  apply wp_bind, wp_modify. set (s2 := set_cells _ s1).
  assert (Hwf1 : wf s1) by (by eapply step_wf).
  assert (H2 : step s1 s2).
  { apply evolves_set_store; [ | done ]. simpl. rewrite list_lookup_insert_eq; [ eauto | ].
    by eapply lookup_lt_Some. }
  apply wp_bind, wp_get.
  assert (H12 : step s s2) by (by etrans).
  destruct (Map_has _ _); [ | by apply wp_ret ].
  eapply wp_mono; [ apply ends__flush; by eapply step_wf | ].
  intros r s3 [H3 Hr]. simpl. split; [ by etrans | done ].
Qed.

Lemma ends_setState v this u : ends wf step (setState v this u).
Proof.
  pose proof ends_setState_update. unfold setState, queueSignalUpdate.
  repeat first [ ends_step | by apply step_same ].
Qed.

(** *** Client calls *)

Lemma ends_settled {A} (m : M A) : ends wf step m → ends settled keeps_settled m.
Proof.
  apply ends_weaken; [ by intros s [? _] | ]. intros s s' _ H Hs. by eapply settled_step.
Qed.

Lemma ends_new_Store a : ends settled keeps_settled (new_Store a).
Proof.
  intros s Hs. split; [ apply (keeps_settled_new_Store a s) | done ].
Qed.

Lemma ends_batch v (fn : M unit) :
  ends settled keeps_settled fn → ends settled keeps_settled (batch v fn).
Proof.
  intros Hfn.
  assert (Hup : ∀ st u, ends settled keeps_settled (setState_update v st u)).
  { intros. apply ends_settled, ends_setState_update. }
  unfold batch.
  repeat first [ ends_step | by apply evolves_keeps_settled, evolves_same ].
Qed.

Lemma ends_run_op v o : ends settled keeps_settled (run_op v o).
Proof.
  revert o. fix IH 1. intros o.
  destruct o as [a|deps fn|st u|i|d|d|d|d|fn]; simpl.
  - apply ends_bind; [ apply _ | apply _ | apply ends_new_Store | intros; apply ends_ret; apply _ ].
  - apply ends_bind; [ apply _ | apply _ | | intros; apply ends_ret; apply _ ].
    intros s Hs. eapply wp_mono; [ by apply settled_new_Derived | ].
    intros r s' [? ?]. split; [ by intros _ | done ].
  - apply ends_settled, ends_setState.
  - apply ends_bind; [ apply _ | apply _ | | intros; apply ends_ret; apply _ ].
    apply ends_settled. eapply ends_weaken; [ | | apply ends_state_of ]; [ done | ].
    intros s s' _. apply inner_step.
  - apply ends_settled. eapply ends_weaken; [ | | apply ends_recompute ]; [ done | ].
    intros s s' _. apply inner_step.
  - apply ends_settled. eapply ends_weaken; [ | | apply ends_check ]; [ done | ].
    intros s s' _. apply inner_step.
  - apply ends_settled, ends_mount.
  - apply ends_settled, ends_unmount.
  - apply ends_batch.
    induction fn as [|o fn IHfn].
    + apply ends_ret. apply _.
    + rewrite for_of_cons.
      apply ends_bind; [ apply _ | apply _ | apply IH | intros _; apply IHfn ].
Qed.

(** ** The registry: what changes it, and what a mount leaves in it *)

Global Instance registry_same_preorder : PreOrder registry_same.
Proof.
  split; [ by intros s | ]. intros s1 s2 s3 H1 H2. unfold registry_same in *. congruence.
Qed.

Lemma registry_same_cells s cs : registry_same s (set_cells cs s).
Proof. done. Qed.
Lemma registry_same_trace s tr : registry_same s (set_trace tr s).
Proof. done. Qed.

Lemma registry_same__flush_internals v fuel l :
  sat registry_same (__flush_internals v fuel l).
Proof.
  revert l. induction fuel as [|fuel IH]; intros l.
  - simpl. sat_step.
  - rewrite __flush_internals_S.
    pose proof (cells_recompute registry_same registry_same_cells registry_same_trace).
    repeat first [ sat_step | done ].
Qed.

Lemma registry_same__flush_loop v fuel : sat registry_same (__flush_loop v fuel).
Proof.
  induction fuel as [|fuel IH].
  - simpl. sat_step.
  - rewrite __flush_loop_S.
    pose proof (cells_set_cell registry_same registry_same_cells).
    pose proof (cells_get_store registry_same).
    pose proof registry_same__flush_internals.
    sat_step; [ sat_step | ]. destruct (__pendingUpdates a); cbv iota zeta; [ sat_step | ].
    sat_step; [ by apply sat_modify | ].
    sat_step; [ repeat sat_step | ].
    sat_step; [ repeat first [ sat_step | done ] | ]. exact IH.
Qed.

Lemma registry_same__flush v store : sat registry_same (__flush v store).
Proof.
  pose proof registry_same__flush_loop.
  pose proof (cells_get_store registry_same).
  unfold __flush. repeat first [ sat_step | done ].
Qed.

Lemma registry_same_setState_update v this u :
  sat registry_same (setState_update v this u).
Proof.
  pose proof registry_same__flush.
  pose proof (cells_set_cell registry_same registry_same_cells).
  pose proof (cells_get_store registry_same).
  unfold setState_update. repeat first [ sat_step | done ].
Qed.

Lemma registry_same_setState v this u : sat registry_same (setState v this u).
Proof.
  pose proof registry_same_setState_update. unfold setState, queueSignalUpdate.
  repeat first [ sat_step | done ].
Qed.

Lemma registry_same_batch v (fn : M unit) :
  sat registry_same fn → sat registry_same (batch v fn).
Proof.
  intros Hfn. pose proof registry_same_setState_update. unfold batch.
  repeat first [ sat_step | done ].
Qed.

Global Instance registry_grows_preorder : PreOrder registry_grows.
Proof.
  split.
  - intros s. by repeat split.
  - intros s1 s2 s3 (E1 & L1 & K1) (E2 & L2 & K2). split; [ congruence | ].
    split; intros; [ by apply L2, L1 | by apply K2, K1 ].
Qed.

Lemma includes_elem l x : includes l x = true ↔ x ∈ l.
Proof.
  induction l as [|y l IH]; simpl.
  - split; [ done | by intros ?%elem_of_nil ].
  - rewrite elem_of_cons. destruct (Nat.eqb_spec y x) as [->|Hne].
    + split; [ by left | done ].
    + rewrite IH. split; [ by right | ]. intros [->|?]; done.
Qed.

Lemma Set_add_elem x y l : y ∈ Set_add x l ↔ y = x ∨ y ∈ l.
Proof.
  unfold Set_add. destruct (includes l x) eqn:E.
  - apply includes_elem in E. split; [ by right | ]. by intros [->|?].
  - rewrite elem_of_app, list_elem_of_singleton. tauto.
Qed.

Lemma sort_insert_elem cmp x y l : y ∈ sort_insert cmp x l ↔ y = x ∨ y ∈ l.
Proof.
  induction l as [|z l IH]; simpl.
  - rewrite list_elem_of_singleton. split; [ by left | ]. intros [?|?%elem_of_nil]; done.
  - destruct (0 <? cmp z x)%Z.
    + rewrite !elem_of_cons, IH. tauto.
    + rewrite !elem_of_cons. tauto.
Qed.

Lemma sort_elem cmp y l : y ∈ sort cmp l ↔ y ∈ l.
Proof.
  unfold sort. rewrite list_elem_of_In, <- in_rev, <- list_elem_of_In.
  assert (H : ∀ acc, y ∈ foldl (fun rev_prefix x => sort_insert cmp x rev_prefix) acc l
                     ↔ y ∈ acc ∨ y ∈ l).
  { induction l as [|x l IH]; intros acc; simpl.
    - split; [ by left | ]. intros [?|?%elem_of_nil]; done.
    - rewrite IH, sort_insert_elem, elem_of_cons. tauto. }
  rewrite H. split; [ | by right ]. intros [?%elem_of_nil|?]; done.
Qed.

Lemma reaches_cells s s' deps st : cells s' = cells s → reaches s deps st → reaches s' deps st.
Proof.
  intros Hc H. induction H as [deps st c Hin Hst|deps dep dd st Hin Hdd _ IH].
  - eapply reaches_store; [ done | by rewrite Hc ].
  - eapply reaches_derived; [ done | by rewrite Hc | done ].
Qed.

Lemma register_under_spec this dep acc s :
  wp (register_under this dep acc) s (fun r s' =>
    (∃ ts, r = Ok ts) ∧ registry_grows s s' ∧ listed s' this dep ∧ knows s' this dep).
Proof.
  unfold register_under. apply wp_bind, wp_get. apply wp_bind.
  assert (Hk : ∀ (ts : list nat) s1,
    cells s1 = cells s →
    (∀ i st, listed s i st → listed s1 i st) →
    __derivedToStore s1 = __derivedToStore s →
    listed s1 this dep →
    wp (let* s := get in
        let relatedStores := default [] (__derivedToStore s !! this) in
        modify (fun s => set_derivedToStore
                  (<[this:=Set_add dep relatedStores]> (__derivedToStore s)) s) >>
        ret ts) s1
      (fun r s' => (∃ ts, r = Ok ts) ∧ registry_grows s s' ∧
                   listed s' this dep ∧ knows s' this dep)).
  { intros ts s1 Hc Hl Hd Hthis. apply wp_bind, wp_get. cbv zeta.
    apply wp_bind, wp_modify, wp_ret. split; [ by eexists | ].
    split; [ | split; [ done | ] ].
    - split; [ done | ]. split; [ intros i st H; by apply Hl | ].
      intros i st (l & Hi & Hin). unfold knows. simpl. rewrite Hd.
      destruct (decide (i = this)) as [->|Hne].
      + rewrite lookup_insert_eq. eexists. split; [ done | ].
        rewrite Hi. simpl. apply Set_add_elem. by right.
      + rewrite lookup_insert_ne by done. by exists l.
    - unfold knows. simpl. rewrite lookup_insert_eq. eexists. split; [ done | ].
      apply Set_add_elem. by left. }
  destruct (__storeToDerived s !! dep) as [l|] eqn:Hl.
  - destruct (includes l this) eqn:Hi.
    + apply wp_ret. apply Hk; [ done | done | done | ].
      exists l. split; [ done | by apply includes_elem ].
    + apply wp_bind, wp_modify, wp_ret. apply Hk; [ done | | done | ].
      * intros i st (l0 & H0 & Hin). unfold listed. simpl.
        destruct (decide (st = dep)) as [->|Hne].
        -- rewrite lookup_insert_eq. eexists. split; [ done | ].
           rewrite Hl in H0. injection H0 as <-. apply elem_of_app. by left.
        -- rewrite lookup_insert_ne by done. by exists l0.
      * unfold listed. simpl. rewrite lookup_insert_eq. eexists. split; [ done | ].
        apply elem_of_app. right. by apply list_elem_of_singleton.
  - apply wp_bind, wp_modify, wp_ret. apply Hk; [ done | | done | ].
    + intros i st (l0 & H0 & Hin). unfold listed. simpl.
      destruct (decide (st = dep)) as [->|Hne]; [ congruence | ].
      rewrite lookup_insert_ne by done. by exists l0.
    + unfold listed. simpl. rewrite lookup_insert_eq. eexists. split; [ done | ].
      by apply list_elem_of_singleton.
Qed.

Lemma registerOnGraph_rec_registers fuel n this deps s :
  wf s → n < fuel → Forall (fun dep => dep < n) deps →
  wp (registerOnGraph_rec fuel this deps) s (fun r s' =>
    r = Ok tt ∧ registry_grows s s' ∧
    ∀ st, reaches s deps st → listed s' this st ∧ knows s' this st).
Proof.
  revert n this deps s. induction fuel as [|fuel IH]; intros n this deps s Hwf Hn Hdeps;
    [ lia | ].
  rewrite registerOnGraph_rec_S.
  set (covered := fun (s2 : state) (dep : nat) =>
    (∀ c, cells s !! dep = Some (CStore c) → listed s2 this dep ∧ knows s2 this dep) ∧
    (∀ dd st, cells s !! dep = Some (CDerived dd) → reaches s (Derived.deps dd) st →
       listed s2 this st ∧ knows s2 this st)).
  assert (Hmono : ∀ s1 s2 dep, registry_grows s1 s2 → covered s1 dep → covered s2 dep).
  { intros s1 s2 dep (_ & L & K) [H1 H2]. split.
    - intros c Hc. destruct (H1 c Hc). split; [ by apply L | by apply K ].
    - intros dd st Hc Hr. destruct (H2 dd st Hc Hr). split; [ by apply L | by apply K ]. }
  apply wp_bind.
  assert (Hfold : ∀ deps' acc s1,
    cells s1 = cells s → Forall (fun dep => dep < n) deps' →
    wp (fold_M (fun toSort dep =>
          let* s := get in
          match cells s !! dep with
          | Some (CDerived dd) =>
              registerOnGraph_rec fuel dep (Derived.deps dd) >>
              registerOnGraph_rec fuel this (Derived.deps dd) >>
              ret toSort
          | Some (CStore _) => register_under this dep toSort
          | _ => ret toSort
          end) acc deps') s1
      (fun r s2 => (∃ ts, r = Ok ts) ∧ registry_grows s1 s2 ∧
                   ∀ dep, dep ∈ deps' → covered s2 dep)).
  { induction deps' as [|dep deps' IHd]; intros acc s1 Hc1 Hd'.
    - rewrite fold_M_nil. apply wp_ret. split; [ by eexists | ].
      split; [ reflexivity | ]. by intros dep ?%elem_of_nil.
    - rewrite fold_M_cons. apply Forall_cons in Hd' as [Hdep Hd']. apply wp_bind.
      assert (Hbody : wp (let* s := get in
          match cells s !! dep with
          | Some (CDerived dd) =>
              registerOnGraph_rec fuel dep (Derived.deps dd) >>
              registerOnGraph_rec fuel this (Derived.deps dd) >>
              ret acc
          | Some (CStore _) => register_under this dep acc
          | _ => ret acc
          end) s1
        (fun r s2 => (∃ ts, r = Ok ts) ∧ registry_grows s1 s2 ∧ covered s2 dep)).
      { apply wp_bind, wp_get. rewrite Hc1.
        destruct (cells s !! dep) as [[c|dd|]|] eqn:Hc.
        - eapply wp_mono; [ apply register_under_spec | ].
          intros r s2 (Hr & Hg & Hl & Hk). simpl. split; [ done | ]. split; [ done | ].
          split; [ done | ]. intros dd st ?. congruence.
        - assert (Hdd : Forall (fun x => x < dep) (Derived.deps dd)) by apply (Hwf _ _ Hc).
          assert (Hwf1 : wf s1).
          { intros i c Hi. rewrite Hc1 in Hi. by eapply Hwf. }
          apply wp_bind.
          eapply wp_mono; [ apply (IH dep dep _ s1); [ done | lia | done ] | ].
          intros r s2 (-> & Hg2 & _). simpl.
          assert (Hwf2 : wf s2).
          { intros i c Hi. destruct Hg2 as (E & _). rewrite E in Hi. by eapply Hwf1. }
          apply wp_bind.
          eapply wp_mono; [ apply (IH dep this _ s2); [ done | lia | done ] | ].
          intros r s3 (-> & Hg3 & Hr3). simpl. apply wp_ret.
          split; [ by eexists | ]. split; [ by etrans | ].
          split; [ intros c ?; congruence | ]. intros dd' st Hdd' Hr.
          assert (dd' = dd) as -> by congruence. apply Hr3.
          eapply reaches_cells; [ | exact Hr ]. destruct Hg2 as (E & _). congruence.
        - apply wp_ret. split; [ by eexists | ]. split; [ reflexivity | ].
          split; [ intros c ? | intros dd st ? ]; congruence.
        - apply wp_ret. split; [ by eexists | ]. split; [ reflexivity | ].
          split; [ intros c ? | intros dd st ? ]; congruence. }
      eapply wp_mono; [ exact Hbody | ].
      intros r s2 ([ts ->] & Hg2 & Hcov). simpl.
      eapply wp_mono; [ apply (IHd ts s2); [ | done ] | ].
      { destruct Hg2 as (E & _). congruence. }
      intros r s3 (Hr & Hg3 & Hcov3). simpl. split; [ done | ]. split; [ by etrans | ].
      intros d [->|Hin]%elem_of_cons; [ by eapply Hmono | by apply Hcov3 ]. }
  eapply wp_mono; [ by apply (Hfold deps [] s) | ].
  intros r s2 ([ts ->] & Hg2 & Hcov). simpl.
  assert (Hsort : ∀ (ts : list nat) s3, wp (for_of ts (fun st =>
      modify (fun s =>
        match __storeToDerived s !! st with
        | Some arr =>
            set_storeToDerived (<[st:=sort (compare_deps s) arr]> (__storeToDerived s)) s
        | None => s
        end))) s3 (fun r s4 => r = Ok tt ∧ registry_grows s3 s4)).
  { clear. induction ts as [|st ts IHt]; intros s3.
    - rewrite for_of_nil. apply wp_ret. split; [ done | reflexivity ].
    - rewrite for_of_cons. apply wp_bind, wp_modify.
      eapply wp_mono; [ apply IHt | ]. intros r s4 [-> Hg]. simpl. split; [ done | ].
      etrans; [ | exact Hg ].
      destruct (__storeToDerived s3 !! st) as [arr|] eqn:Ha; [ | reflexivity ].
      split; [ done | ]. split; [ | done ].
      intros i st' (l & Hl & Hin). unfold listed. simpl.
      destruct (decide (st' = st)) as [->|Hne].
      + rewrite lookup_insert_eq. eexists. split; [ done | ].
        apply sort_elem. congruence.
      + rewrite lookup_insert_ne by done. by exists l. }
  eapply wp_mono; [ apply Hsort | ].
  intros r s4 [-> Hg4]. simpl. split; [ done | ].
  assert (Hg : registry_grows s s4) by (by etrans). split; [ done | ].
  intros st Hr. destruct Hg4 as (_ & L & K).
  inversion Hr as [deps0 st0 c Hin Hst|deps0 dep dd st0 Hin Hdd Hr']; subst.
  - destruct (Hcov st Hin) as [H1 _]. destruct (H1 c Hst). split; [ by apply L | by apply K ].
  - destruct (Hcov dep Hin) as [_ H2]. destruct (H2 dd st Hdd Hr').
    split; [ by apply L | by apply K ].
Qed.

Global Instance keeps_nodup_preorder : PreOrder keeps_nodup.
Proof. split; [ intros s H; exact H | ]. intros s1 s2 s3 H1 H2 H. by apply H2, H1. Qed.

Lemma registry_same_nodup s s' : registry_same s s' → keeps_nodup s s'.
Proof. intros [= E _] H st l Hl. apply (H st l). congruence. Qed.

Lemma nodup_insert s st l :
  NoDup l → registry_nodup s →
  registry_nodup (set_storeToDerived (<[st:=l]> (__storeToDerived s)) s).
Proof.
  intros Hl H st' l' Hl'. simpl in Hl'.
  apply lookup_insert_Some in Hl' as [[_ <-]|[_ Hl']]; [ done | by eapply H ].
Qed.

Lemma sort_insert_perm cmp x l : sort_insert cmp x l ≡ₚ x :: l.
Proof.
  induction l as [|y l IH]; simpl; [ done | ].
  destruct (0 <? cmp y x)%Z; [ | done ]. rewrite IH. apply Permutation_swap.
Qed.

Lemma sort_perm cmp l : sort cmp l ≡ₚ l.
Proof.
  unfold sort. rewrite <- Permutation_rev.
  assert (H : ∀ acc, foldl (fun rev_prefix x => sort_insert cmp x rev_prefix) acc l ≡ₚ acc ++ l).
  { induction l as [|x l IH]; intros acc; simpl.
    - by rewrite app_nil_r.
    - rewrite IH, sort_insert_perm. simpl. apply Permutation_middle. }
  by rewrite H.
Qed.

Lemma splice_sublist l start n : sublist (splice l start n) l.
Proof.
  unfold splice. cbv zeta. set (k := if (start <? 0)%Z then _ else _).
  rewrite <- (take_drop k l) at 3. apply sublist_app; [ done | ].
  rewrite <- drop_drop. apply sublist_drop.
Qed.

Lemma nodup_register_under this dep toSort :
  sat keeps_nodup (register_under this dep toSort).
Proof.
  intros s. unfold register_under. apply wp_bind, wp_get. apply wp_bind.
  assert (Hk : ∀ (ts : list nat), sat keeps_nodup
    (let* s := get in
     let relatedStores := default [] (__derivedToStore s !! this) in
     modify (fun s => set_derivedToStore
               (<[this:=Set_add dep relatedStores]> (__derivedToStore s)) s) >>
     ret ts)).
  { intros ts. repeat first [ sat_step | by apply registry_same_nodup ].
    intros H st l Hl. by apply (H st l). }
  destruct (__storeToDerived s !! dep) as [l|] eqn:Hl.
  - destruct (includes l this) eqn:Hi.
    + apply wp_ret. apply Hk.
    + apply wp_bind, wp_modify, wp_ret.
      eapply wp_mono; [ apply Hk | ]. intros r s' H Hs. simpl in H. apply H.
      apply nodup_insert; [ | done ]. apply NoDup_app. split; [ by eapply Hs | ].
      split; [ | apply NoDup_singleton ].
      intros x Hx ->%list_elem_of_singleton. apply includes_elem in Hx. congruence.
  - apply wp_bind, wp_modify, wp_ret.
    eapply wp_mono; [ apply Hk | ]. intros r s' H Hs. simpl in H. apply H.
    apply nodup_insert; [ apply NoDup_singleton | done ].
Qed.

Lemma nodup_unregister_under this dep : sat keeps_nodup (unregister_under this dep).
Proof.
  intros s. unfold unregister_under. apply wp_bind, wp_get. apply wp_bind.
  assert (Hk : sat keeps_nodup
    (let* s := get in
     match __derivedToStore s !! this with
     | Some relatedStores =>
         modify (fun s => set_derivedToStore
                   (<[this:=Set_delete dep relatedStores]> (__derivedToStore s)) s)
     | None => ret tt
     end)).
  { repeat first [ sat_step | by apply registry_same_nodup ].
    intros Hn st0 l0 Hl0. by apply (Hn st0 l0). }
  destruct (__storeToDerived s !! dep) as [l|] eqn:Hl.
  - apply wp_modify. eapply wp_mono; [ apply Hk | ]. intros r s' H Hs. simpl in H. apply H.
    apply nodup_insert; [ | done ].
    eapply sublist_NoDup; [ by eapply Hs | apply splice_sublist ].
  - apply wp_ret. apply Hk.
Qed.

Lemma nodup_registerOnGraph_rec fuel this deps :
  sat keeps_nodup (registerOnGraph_rec fuel this deps).
Proof.
  revert this deps. induction fuel as [|fuel IH]; intros this deps.
  - simpl. sat_step.
  - rewrite registerOnGraph_rec_S. pose proof nodup_register_under.
    apply sat_bind; [ apply _ | repeat sat_step | intros toSort ].
    apply sat_for_of; [ apply _ | ]. intros st. apply sat_modify. intros s Hs.
    destruct (__storeToDerived s !! st) as [arr|] eqn:Ha; [ | done ].
    apply nodup_insert; [ | done ]. rewrite sort_perm. by eapply Hs.
Qed.

Lemma nodup_unregisterFromGraph_rec fuel this deps :
  sat keeps_nodup (unregisterFromGraph_rec fuel this deps).
Proof.
  revert this deps. induction fuel as [|fuel IH]; intros this deps.
  - simpl. sat_step.
  - rewrite unregisterFromGraph_rec_S. pose proof nodup_unregister_under.
    repeat sat_step.
Qed.

Lemma nodup_batch v (fn : M unit) : sat keeps_nodup fn → sat keeps_nodup (batch v fn).
Proof.
  intros Hfn.
  assert (Hup : ∀ st u, sat keeps_nodup (setState_update v st u)).
  { intros. eapply sat_weaken; [ apply registry_same_nodup | ].
    apply registry_same_setState_update. }
  unfold batch. repeat first [ sat_step | by apply registry_same_nodup ].
Qed.

Lemma nodup_run_op v o : sat keeps_nodup (run_op v o).
Proof.
  revert o. fix IH 1. intros o.
  assert (Hsame : ∀ {A} (m : M A), sat registry_same m → sat keeps_nodup m).
  { intros A m H. eapply sat_weaken; [ apply registry_same_nodup | exact H ]. }
  pose proof nodup_registerOnGraph_rec. pose proof nodup_unregisterFromGraph_rec.
  destruct o as [a|deps fn|st u|i|d|d|d|d|fn]; simpl.
  - apply sat_bind; [ apply _ | | intros; apply sat_ret; apply _ ].
    apply Hsame, cells_new_Store; [ apply _ | apply registry_same_cells ].
  - apply sat_bind; [ apply _ | | intros; apply sat_ret; apply _ ].
    apply Hsame, cells_new_Derived;
      [ apply _ | apply registry_same_cells | apply registry_same_trace ].
  - apply Hsame, registry_same_setState.
  - apply sat_bind; [ apply _ | | intros; apply sat_ret; apply _ ].
    apply Hsame, cells_state_of;
      [ apply _ | apply registry_same_cells | apply registry_same_trace ].
  - apply Hsame, cells_recompute;
      [ apply _ | apply registry_same_cells | apply registry_same_trace ].
  - apply Hsame, cells_check;
      [ apply _ | apply registry_same_cells | apply registry_same_trace ].
  - unfold mount. apply sat_bind; [ apply _ | | intros _ ].
    + unfold registerOnGraph. repeat sat_step.
    + apply Hsame, cells_check;
        [ apply _ | apply registry_same_cells | apply registry_same_trace ].
  - unfold unmount, unregisterFromGraph. repeat sat_step.
  - apply nodup_batch.
    induction fn as [|o fn IHfn].
    + apply sat_ret. apply _.
    + rewrite for_of_cons. apply sat_bind; [ apply _ | apply IH | intros _; apply IHfn ].
Qed.

(** ** A flush visits every cell of the list it is given *)

Global Instance marks_preorder : PreOrder marks.
Proof.
  split.
  - intros s. exists []. split; [ by rewrite app_nil_r | ]. intros d Hd. by left.
  - intros s1 s2 s3 (e1 & Ht1 & H1) (e2 & Ht2 & H2). exists (e1 ++ e2).
    split; [ by rewrite Ht2, Ht1, app_assoc | ]. intros d Hd.
    rewrite recompute_calls_app, elem_of_app.
    destruct (H2 d Hd) as [Hd2|?]; [ | tauto ]. destruct (H1 d Hd2); tauto.
Qed.

Global Instance visits_more_preorder : PreOrder visits_more.
Proof. split; [ intros s | intros s1 s2 s3 ]; unfold visits_more; set_solver. Qed.

Global Instance only_cells_preorder : PreOrder only_cells.
Proof.
  split.
  - intros s. exists (cells s). by destruct s.
  - intros s1 s2 s3 [c1 ->] [c2 ->]. by exists c2.
Qed.

Lemma marks__flush_internals v fuel l : sat marks (__flush_internals v fuel l).
Proof.
  revert l. induction fuel as [|fuel IH]; intros l.
  - simpl. sat_step.
  - rewrite __flush_internals_S. apply sat_for_of; [ apply _ | ]. intros derived s.
    apply wp_bind, wp_get.
    destruct (Set_has _ derived) eqn:Hhas.
    { apply wp_ret. reflexivity. }
    apply wp_bind, wp_modify. apply wp_bind.
    eapply wp_mono; [ apply recompute_calls_itself | ].
    intros r s2 [Hs (evs & Ht & Hr)]. simpl in *.
    assert (Hm : marks s s2).
    { assert (__depsThatHaveWrittenThisTick s2 =
              {[derived]} ∪ __depsThatHaveWrittenThisTick s) as Hv
        by (by inversion Hs).
      exists evs. split; [ done | ]. intros d. rewrite Hv, Hr. set_solver. }
    destruct r as [[]| |]; try done.
    eapply wp_mono.
    { assert (Hrest : sat marks (__notifyDerivedListeners derived >>
        let* s := get in
        match __derivedToStore s !! derived with
        | Some stores =>
            for_of stores (fun store =>
              let* s := get in
              match __storeToDerived s !! store with
              | Some (d0 :: ds) => __flush_internals v fuel (d0 :: ds)
              | _ => ret tt
              end)
        | None => ret tt
        end)) by repeat sat_step.
      apply Hrest. }
    intros r s3 H3. simpl in *. by etrans.
Qed.

Lemma visits_more__flush_internals v fuel l : sat visits_more (__flush_internals v fuel l).
Proof.
  revert l. induction fuel as [|fuel IH]; intros l.
  - simpl. sat_step.
  - rewrite __flush_internals_S.
    assert (H : ∀ this, sat visits_more (recompute v this)).
    { intros. apply cells_recompute; [ apply _ | intros ? ? | intros ? ? ];
        unfold visits_more; simpl; set_solver. }
    repeat first [ sat_step | (unfold visits_more; simpl; set_solver) ].
Qed.

(** A call of [__flush_internals] that returns has visited every cell of
    its list. *)
Lemma __flush_internals_visits v fuel l s :
  wp (__flush_internals v (S fuel) l) s (fun r s' =>
    visits_more s s' ∧
    (r = Ok tt → ∀ d, d ∈ l → d ∈ __depsThatHaveWrittenThisTick s')).
Proof.
  rewrite __flush_internals_S.
  match goal with |- wp (for_of _ ?b) _ _ => set (body := b) end.
  assert (Hbody : ∀ x s, wp (body x) s (fun r s1 =>
    visits_more s s1 ∧ (r = Ok tt → x ∈ __depsThatHaveWrittenThisTick s1))).
  { intros x s0. subst body. cbv beta. apply wp_bind, wp_get.
    destruct (Set_has _ x) eqn:Hhas.
    { apply wp_ret. split; [ reflexivity | ]. intros _.
      by apply bool_decide_eq_true in Hhas. }
    apply wp_bind, wp_modify.
    set (s1 := set_depsThatHaveWrittenThisTick _ s0).
    match goal with |- wp ?m _ _ => set (rest := m) end.
    assert (Hrest : sat visits_more rest).
    { subst rest. pose proof visits_more__flush_internals.
      assert (Hr : ∀ this, sat visits_more (recompute v this)).
      { intros. apply cells_recompute; [ apply _ | intros ? ? | intros ? ? ];
        unfold visits_more; simpl; set_solver. }
      repeat sat_step. }
    eapply wp_mono; [ apply Hrest | ]. intros r s2 H2. simpl in H2.
    assert (H02 : visits_more s0 s2).
    { etrans; [ | exact H2 ]. unfold visits_more. simpl. set_solver. }
    split; [ done | ]. intros _. apply H2. simpl. set_solver. }
  clearbody body. revert s. induction l as [|x l IH]; intros s.
  - rewrite for_of_nil. apply wp_ret. split; [ reflexivity | ].
    by intros _ d ?%elem_of_nil.
  - rewrite for_of_cons. apply wp_bind.
    eapply wp_mono; [ apply Hbody | ].
    intros r s1 [Hv Hin]. destruct r as [[]| |]; simpl; [ | done | done ].
    eapply wp_mono; [ apply IH | ]. intros r s2 [Hv2 Hl]. simpl.
    split; [ by etrans | ]. intros Hr d [->|Hd]%elem_of_cons; [ | by apply Hl ].
    apply Hv2. by apply Hin.
Qed.

Lemma only_cells_restore stores :
  sat only_cells
    (for_of stores (fun store =>
       let* s := get in
       let* st := get_store store in
       let prevState := default (Store.prevState st) (__initialBatchValues s !! store) in
       set_cell store (CStore (Store.mk (Store._signal st) prevState)) >>
       __notifyListeners store)).
Proof. repeat first [ sat_step | by eexists ]. Qed.
(** * The claims *)

(** ** Unregistration *)

(** C6 (code defect).  [unregisterFromGraph] is not idempotent and removes
    entries of other cells: with [B] and [C] mounted under source [A], the
    first unmount of [B] leaves [C] registered, and a second call of the same
    unmount removes [C], because [indexOf] answers [-1] and [splice(-1, 1)]
    deletes the last element.  The same happens in one call when the cell
    reaches a source along two paths: unmounting [D] of the diamond removes
    [D] and then [C]. *)
Theorem unregisterFromGraph_removes_other_cells (v : impl) :
  __storeToDerived (exec v siblings) !! 0 = Some [1; 2] ∧
  __storeToDerived (exec v (siblings ++ [Unmount 1])) !! 0 = Some [2] ∧
  __storeToDerived (exec v (siblings ++ [Unmount 1; Unmount 1])) !! 0 = Some [] ∧
  __storeToDerived (exec v (diamond 1 fn_first fn_first fn_sum)) !! 0 = Some [1; 2; 3] ∧
  __storeToDerived (exec v (diamond 1 fn_first fn_first fn_sum ++ [Unmount 3])) !! 0 = Some [1].
Proof. destruct v; vm_compute; done. Qed.

(** C8 (code defect).  Mounting [C], whose dependencies are the source [A]
    and the derived cell [B] over [A], registers [B] under [A]; unmounting
    [C] then removes [B] from the dependents of [A] (the second [splice] of
    the unmount finds [C] gone and deletes the last element), although the
    reverse entry of [B] stays. *)
Theorem unmount_removes_nested_dependency (v : impl) :
  __storeToDerived (exec v nested) !! 0 = Some [1; 2] ∧
  __derivedToStore (exec v nested) !! 1 = Some [0] ∧
  __storeToDerived (exec v (nested ++ [Unmount 2])) !! 0 = Some [] ∧
  __derivedToStore (exec v (nested ++ [Unmount 2])) !! 1 = Some [0].
Proof. destruct v; vm_compute; done. Qed.

(** ** The deep staleness check *)

(** C2 (code defect).  In the version that reuses its arrays,
    [checkIfRecalculationNeededDeeply] does not call [recompute] when a
    dependency has changed: [lastSeenDepValues] is the array
    [_currDepValsArray] itself, and [getDepVals] has overwritten it before the
    comparison.  The version that allocates fresh arrays does call it. *)
Theorem check_misses_changed_dependency :
  let prog := single 1 fn_first ++ [SetState 0 (UValue 2)] in
  recompute_calls (events_of Reusing (CheckIfRecalculationNeededDeeply 1) (exec Reusing prog)) = [] ∧
  cached (exec Reusing (prog ++ [CheckIfRecalculationNeededDeeply 1])) 1 = Some 1%Z ∧
  recompute_calls (events_of Allocating (CheckIfRecalculationNeededDeeply 1) (exec Allocating prog)) = [1] ∧
  cached (exec Allocating (prog ++ [CheckIfRecalculationNeededDeeply 1])) 1 = Some 2%Z.
Proof. vm_compute. done. Qed.

(** ** Cleanup of a flush *)

(** C7.  A call of [__flush] that starts a flush (no batch is open and no
    flush is running) ends with the flushing flag reset, the tick-visited
    set empty and the batch snapshot empty, however the loop of the flush
    ended; the way the loop ended, normally or with the exception of a
    compute function, is the way the call ends. *)
Theorem flush_always_cleans_up (v : impl) (store : nat) (s : state) :
  __batchDepth s = 0 →
  __isFlushing s = false →
  wp (__flush v store) s (fun r s' =>
    __isFlushing s' = false ∧
    __depsThatHaveWrittenThisTick s' = ∅ ∧
    __initialBatchValues s' = ∅ ∧
    let s1 :=
      set_isFlushing true (set_pendingUpdates (Set_add store (__pendingUpdates s)) s) in
    r = (__flush_loop v (depth s1) s1).1).
Proof.
  intros Hb Hf. unfold __flush.
  apply wp_bind, wp_get. rewrite Hb. simpl.
  apply wp_bind, wp_ret. apply wp_bind, wp_modify. apply wp_bind, wp_get.
  simpl. rewrite Hb, Hf. simpl.
  apply wp_try_finally.
  apply wp_bind, wp_modify. apply wp_bind, wp_get. unfold wp at 1.
  apply wp_bind, wp_modify. apply wp_bind, wp_modify. apply wp_modify. simpl.
  done.
Qed.

(** The cleanup at work: the compute function of the mounted cell throws
    during the flush; the write ends with that exception and the scheduler is
    clean. *)
Lemma flush_always_cleans_up_witness :
  let s := exec Reusing (single 1 fn_picky ++ [Mount 1]) in
  let s0 := (set_cell 0 (CStore (Store.mk 2 1)) s).2 in
  (__flush Reusing 0 s0).1 = Throw ∧
  __isFlushing (__flush Reusing 0 s0).2 = false ∧
  __depsThatHaveWrittenThisTick (__flush Reusing 0 s0).2 = ∅ ∧
  __initialBatchValues (__flush Reusing 0 s0).2 = ∅.
Proof.
  intros s s0.
  assert (Hb : __batchDepth s0 = 0) by (vm_compute; reflexivity).
  assert (Hf : __isFlushing s0 = false) by (vm_compute; reflexivity).
  destruct (flush_always_cleans_up Reusing 0 s0 Hb Hf) as (H1 & H2 & H3 & H4).
  split; [ | by repeat split ].
  rewrite H4. vm_compute. reflexivity.
Defined.
(** * Further properties of the code *)

(** ** The flush *)

(** X1.  In one call of [__flush], whatever the registry and the cells,
    [recompute()] is called at most once for each derived cell: the cells
    whose [recompute] was called, in call order, form a list without
    repetition. *)
Theorem flush_recomputes_at_most_once v store s :
  wp (__flush v store) s (fun _ s' => NoDup (recompute_calls (events_since s s'))).
Proof.
  unfold __flush. apply wp_bind, wp_get.
  assert (Hnone : ∀ s0 : state, trace s0 = trace s → NoDup (recompute_calls (events_since s s0))).
  { intros s0 H0. rewrite (events_since_app s s0 []); [ constructor | by rewrite app_nil_r ]. }
  apply wp_bind.
  assert (Hpre : wp (if (0 <? __batchDepth s) && negb (Map_has (__initialBatchValues s) store)
     then let* st := get_store store in
       modify (fun s => set_initialBatchValues (<[store:=Store.prevState st]> (__initialBatchValues s)) s)
     else ret tt) s (fun _ s1 => trace s1 = trace s)).
  { destruct (_ && _); [ | by apply wp_ret ].
    apply wp_bind. unfold get_store. apply wp_bind, wp_get.
    destruct (cells s !! store) as [[]|]; try (by apply wp_throw).
    apply wp_ret. by apply wp_modify. }
  eapply wp_mono; [ apply Hpre | ]. intros r s1 Ht1. simpl in Ht1.
  destruct r as [[]| |]; try by apply Hnone.
  apply wp_bind, wp_modify. apply wp_bind, wp_get. cbn [__batchDepth __isFlushing set_pendingUpdates].
  destruct (0 <? __batchDepth s1); [ apply wp_ret; by apply Hnone | ].
  destruct (__isFlushing s1); [ apply wp_ret; by apply Hnone | ].
  apply wp_try_finally. apply wp_bind, wp_modify. apply wp_bind, wp_get.
  eapply wp_mono; [ apply tick__flush_loop | ].
  intros r s2 [_ (evs & Ht & Hn & _)]. cbn [trace set_isFlushing set_pendingUpdates] in Ht.
  unfold wp. cbn. rewrite (events_since_app s _ evs); [ done | ].
  cbn. by rewrite Ht, Ht1.
Qed.

(** ** Construction and recomputation of a derived cell *)

(** X2.  [new Derived({deps, fn})] on a heap whose cells list only older
    cells as dependencies ends (it returns or throws), calls [fn] of the new
    cell at most once, and that call receives [prevDepVals = undefined] and
    [prevVal = undefined].  When the constructor returns, [fn] was called
    exactly once, without throwing, its result is the cached state of the
    new cell, and the first run is over. *)
Theorem new_Derived_first_run v deps fn s :
  wf s →
  wp (new_Derived v deps fn) s (fun r s' =>
    let this := length (cells s) in
    let ps := computes this (events_since s s') in
    r ≠ OutOfFuel ∧ wf s' ∧ length ps ≤ 1 ∧
    Forall (fun p => prevDepVals p = None ∧ prevVal p = None) ps ∧
    ∀ i, r = Ok i →
      i = this ∧
      ∃ p z d, ps = [p] ∧ fn p = Return z ∧ derived_at s' this = Some d ∧
               Derived._cachedState d = Some z ∧ Derived._isFirstRun d = false).
Proof.
  intros Hwf. unfold new_Derived. apply wp_bind, wp_get.
  set (this := length (cells s)).
  assert (Hnil : events_since s s = []).
  { apply events_since_app. by rewrite app_nil_r. }
  destruct (forallb _ deps) eqn:Hdeps.
  2: { apply wp_throw. cbv zeta. rewrite Hnil. simpl.
       split; [ done | ]. split; [ done | ]. split; [ lia | ].
       split; [ constructor | intros ? [=] ]. }
  cbv zeta.
  set (fresh := match v with Allocating => _ | Reusing => _ end).
  apply wp_bind, wp_modify.
  set (s0 := set_cells (cells s ++ [CDerived fresh]) s).
  assert (Hfresh : Derived.deps fresh = deps ∧ Derived.fn fresh = fn ∧
                   Derived._computed fresh = None ∧ Derived._isFirstRun fresh = true ∧
                   Derived.prevState fresh = None ∧ Derived._previousResult fresh = None).
  { subst fresh. by destruct v. }
  destruct Hfresh as (Hfd & Hff & Hfc & Hfr & Hfp & Hfq).
  assert (Hwf0 : wf s0).
  { apply wf_snoc; [ done | ]. simpl. rewrite Hfd.
    apply Forall_forall. intros dep Hin%list_elem_of_In.
    rewrite forallb_forall in Hdeps.
    specialize (Hdeps dep Hin). by apply Nat.ltb_lt in Hdeps. }
  assert (Hd0 : derived_at s0 this = Some fresh).
  { unfold derived_at, s0. simpl. by rewrite lookup_app_r, Nat.sub_diag by done. }
  assert (Hev : ∀ s1, events_since s s1 = events_since s0 s1) by done.
  apply wp_on_throw, wp_bind.
  eapply wp_mono; [ by eapply _computed_spec | ].
  intros r s1 (Hb & Hoof & Hlen & Hps & Hok). simpl in Hlen, Hps, Hok.
  assert (Hwf1 : wf s1) by (by eapply below_wf).
  assert (Hps' : Forall (fun p => prevDepVals p = None ∧ prevVal p = None)
                   (computes this (events_since s s1))).
  { rewrite Hev. eapply Forall_impl; [ exact Hps | ].
    intros p (Hpv & Hpd & _). split; [ by apply Hpd | ].
    rewrite Hpv. unfold pv. by destruct v. }
  destruct r as [z| |]; simpl; [ | | done ].
  2: { split; [ done | ]. split; [ by apply wf_insert | ]. split; [ done | ].
       split; [ done | intros ? [=] ]. }
  destruct (Hok z eq_refl) as [(_ & _ & c & Hc & _)|(p & d1 & Hp1 & Hfn & Hd1 & Hc1 & Hran)];
    [ congruence | ].
  rewrite Hff in Hfn.
  apply wp_bind, wp_update_derived. rewrite Hd1.
  set (d2 := Derived.set_cachedState (Some z) d1). set (s2 := set_cells _ s1).
  assert (Hd2 : derived_at s2 this = Some d2).
  { apply (derived_at_insert s1). by eapply derived_at_lt. }
  assert (Hwf2 : wf s2).
  { apply wf_insert; [ done | ]. apply derived_at_Some in Hd1. apply (Hwf1 _ _ Hd1). }
  assert (Hr1 : Derived._isFirstRun d1 = false) by apply Hran.
  destruct v.
  - apply wp_bind, wp_ret, wp_ret. simpl.
    split; [ done | ]. split; [ done | ]. split; [ done | ]. split; [ done | ].
    intros i [= <-]. split; [ done | ]. exists p, z, d2. by repeat split.
  - apply wp_bind, wp_update_derived. rewrite Hd2. apply wp_ret. simpl.
    set (d3 := Derived.set_prevState _ d2).
    split; [ done | ]. split.
    { apply (wf_insert s2); [ done | ]. apply derived_at_Some in Hd1. apply (Hwf1 _ _ Hd1). }
    split; [ done | ]. split; [ done | ].
    intros i [= <-]. split; [ done | ]. exists p, z, d3. repeat split; try done.
    apply (derived_at_insert s2). by eapply derived_at_lt.
Qed.

(** The constructor on a heap with one source cell. *)
Lemma new_Derived_first_run_witness :
  let s := exec Reusing [NewStore 1] in
  wf s ∧ (new_Derived Reusing [0] fn_first s).1 ≠ OutOfFuel.
Proof.
  intros s.
  assert (Hwf : wf s) by (apply wfb_wf; vm_compute; reflexivity).
  split; [ exact Hwf | ].
  exact (proj1 (new_Derived_first_run Reusing [0] fn_first s Hwf)).
Defined.

(** X3.  [recompute()] of a derived cell goes through the memoized
    computation: it calls [fn] of the cell at most once, and not
    necessarily once.  The call, if any, receives as [prevVal] the cached
    state the cell had before ([effect.ts]) or the previous result
    ([part_001]), and previous dependency values once the first run is over.
    The events of the call are [recompute], the functions the runtime
    called to bring cells up to date, and [onUpdate] last when nothing
    threw.  When [recompute()] returns, either [fn] was not called and the
    computation is the one it was, or it was called once and its result is
    the cached state, the old cached state is [prevState], and the
    computation remembers the dependency values that call read. *)
Theorem recompute_spec v this d s :
  wf s → derived_at s this = Some d →
  wp (recompute v this) s (fun r s' =>
    let ps := computes this (events_since s s') in
    r ≠ OutOfFuel ∧ length ps ≤ 1 ∧
    Forall (fun p => prevVal p = captured v d ∧
                     (Derived._isFirstRun d = false → prevDepVals p ≠ None)) ps ∧
    (∃ mid, Forall (pulled_event s (S this)) mid ∧
       events_since s s' =
         EvRecompute this :: mid ++ (if r is Ok _ then [EvOnUpdate this] else [])) ∧
    (r = Ok tt → ∃ d', derived_at s' this = Some d' ∧ recomputed v d ps d')).
Proof.
  intros Hwf Hd. unfold recompute. destruct v.
  - apply wp_bind, wp_emit. set (sa := set_trace _ s).
    apply wp_bind, wp_update_derived. change (derived_at sa this) with (derived_at s this).
    rewrite Hd. set (d0 := Derived.set_prevState _ d). set (s0 := set_cells _ sa).
    assert (Hd0 : derived_at s0 this = Some d0).
    { apply (derived_at_insert sa). by eapply derived_at_lt. }
    assert (Hwf0 : wf s0).
    { apply (wf_insert sa); [ done | ]. apply derived_at_Some in Hd. apply (Hwf _ _ Hd). }
    apply wp_bind. eapply wp_mono; [ by eapply _computed_spec | ].
    intros r s1 (Hb & Hoof & Hlen & Hps & Hok). simpl in Hlen, Hps, Hok.
    destruct (below_events _ _ _ Hb) as (mid & He & Ht & _).
    assert (Hmid : Forall (pulled_event s (S this)) mid).
    { destruct Hb as [_ _ _ _ (evs & Ht' & Hp)].
      rewrite Ht in Ht'. apply app_inv_head in Ht'. subst evs.
      eapply Forall_impl; [ exact Hp | ]. intros e. destruct e as [j p| |]; simpl; try done.
      intros [Hj (dd & Hdd & Hfr)]. split; [ done | ].
      unfold derived_at in Hdd. simpl in Hdd.
      destruct (decide (j = this)) as [->|Hne].
      - exists d. split; [ done | ].
        rewrite list_lookup_insert_eq in Hdd by (by eapply derived_at_lt).
        by simplify_eq.
      - rewrite list_lookup_insert_ne in Hdd by done. by exists dd. }
    assert (Hev : ∀ s2 tl, trace s2 = trace s1 ++ tl →
              events_since s s2 = EvRecompute this :: mid ++ tl ∧
              computes this (events_since s s2) = computes this (events_since s0 s1) ++
                                                  computes this tl).
    { intros s2 tl H2.
      assert (E : events_since s s2 = EvRecompute this :: mid ++ tl).
      { apply events_since_app. rewrite H2, Ht. simpl.
        by rewrite <- !app_assoc. }
      split; [ done | ]. rewrite E, He.
      rewrite computes_cons_other by done. by rewrite computes_app. }
    assert (Hps' : Forall (fun p => prevVal p = captured Allocating d ∧
                     (Derived._isFirstRun d = false → prevDepVals p ≠ None))
                     (computes this (events_since s0 s1))).
    { eapply Forall_impl; [ exact Hps | ]. intros p (Hpv & _ & Hpd). done. }
    destruct r as [z| |]; simpl; [ | | done ].
    2: { destruct (Hev s1 []) as [E1 E2]; [ by rewrite app_nil_r | ].
         rewrite E2, E1, app_nil_r. cbn [computes omap].
         rewrite app_nil_r.
         split; [ done | ]. split; [ done | ]. split; [ done | ].
         split; [ exists mid; by rewrite ?app_nil_r | intros [=] ]. }
    apply wp_bind, wp_update_derived.
    destruct (Hok z eq_refl) as [(Hp0 & Hcell & c & Hc & Hz)|(p & d1 & Hp1 & Hfn & Hd1 & Hc1 & Hran)].
    + assert (Hd1 : derived_at s1 this = Some d0).
      { unfold derived_at in *. by rewrite Hcell. }
      rewrite Hd1. apply wp_emit.
      set (d2 := Derived.set_cachedState _ d0). set (s2 := set_cells _ s1).
      destruct (Hev (set_trace (trace s2 ++ [EvOnUpdate this]) s2) [EvOnUpdate this]) as [E1 E2];
        [ done | ].
      rewrite E2, E1. cbn [computes omap]. rewrite app_nil_r.
      split; [ done | ]. split; [ done | ]. split; [ done | ].
      split; [ by exists mid | ]. intros _. exists d2. split.
      { apply (derived_at_insert s1). by eapply derived_at_lt. }
      left. split; [ done | ]. exists c. subst d2 d0. simpl. by subst z.
    + rewrite Hd1. apply wp_emit.
      set (d2 := Derived.set_cachedState _ d1). set (s2 := set_cells _ s1).
      destruct (Hev (set_trace (trace s2 ++ [EvOnUpdate this]) s2) [EvOnUpdate this]) as [E1 E2];
        [ done | ].
      rewrite E2, E1. cbn [computes omap]. rewrite app_nil_r.
      split; [ done | ]. split; [ done | ]. split; [ done | ].
      split; [ by exists mid | ]. intros _. exists d2. split.
      { apply (derived_at_insert s1). by eapply derived_at_lt. }
      right. exists p, z. destruct Hran as (_ & _ & _ & _ & Hprev & _).
      subst d2 d0. simpl in *. by repeat split.
  - apply wp_bind, wp_emit. set (s0 := set_trace _ s).
    assert (Hd0 : derived_at s0 this = Some d) by done.
    assert (Hwf0 : wf s0) by done.
    apply wp_bind. eapply wp_mono; [ by eapply _computed_spec | ].
    intros r s1 (Hb & Hoof & Hlen & Hps & Hok). simpl in Hlen, Hps, Hok.
    destruct (below_events _ _ _ Hb) as (mid & He & Ht & _).
    assert (Hmid : Forall (pulled_event s (S this)) mid).
    { destruct Hb as [_ _ _ _ (evs & Ht' & Hp)].
      rewrite Ht in Ht'. by apply app_inv_head in Ht' as <-. }
    assert (Hev : ∀ s2 tl, trace s2 = trace s1 ++ tl →
              events_since s s2 = EvRecompute this :: mid ++ tl ∧
              computes this (events_since s s2) = computes this (events_since s0 s1) ++
                                                  computes this tl).
    { intros s2 tl H2.
      assert (E : events_since s s2 = EvRecompute this :: mid ++ tl).
      { apply events_since_app. rewrite H2, Ht. simpl.
        by rewrite <- !app_assoc. }
      split; [ done | ]. rewrite E, He.
      rewrite computes_cons_other by done. by rewrite computes_app. }
    assert (Hps' : Forall (fun p => prevVal p = captured Reusing d ∧
                     (Derived._isFirstRun d = false → prevDepVals p ≠ None))
                     (computes this (events_since s0 s1))).
    { eapply Forall_impl; [ exact Hps | ]. intros p (Hpv & _ & Hpd). done. }
    destruct r as [z| |]; simpl; [ | | done ].
    2: { destruct (Hev s1 []) as [E1 E2]; [ by rewrite app_nil_r | ].
         rewrite E2, E1. cbn [computes omap]. rewrite app_nil_r.
         split; [ done | ]. split; [ done | ]. split; [ done | ].
         split; [ exists mid; by rewrite ?app_nil_r | intros [=] ]. }
    apply wp_emit.
    destruct (Hev (set_trace (trace s1 ++ [EvOnUpdate this]) s1) [EvOnUpdate this]) as [E1 E2];
      [ done | ].
    rewrite E2, E1. cbn [computes omap]. rewrite app_nil_r.
    split; [ done | ]. split; [ done | ]. split; [ done | ].
    split; [ by exists mid | ]. intros _.
    destruct (Hok z eq_refl) as [(Hp0 & Hcell & c & Hc & Hz)|(p & d1 & Hp1 & Hfn & Hd1 & Hc1 & Hran)].
    + exists d. split; [ unfold derived_at in *; simpl; by rewrite Hcell | ].
      left. split; [ done | ]. by exists c.
    + exists d1. split; [ done | ]. right. exists p, z.
      destruct Hran as (_ & _ & _ & Hcs & Hprev & _). by repeat split.
Qed.

(** [recompute()] of a cell whose dependency has been written. *)
Lemma recompute_spec_witness :
  let s := exec Allocating (single 1 fn_first ++ [SetState 0 (UValue 2)]) in
  ∃ d, wf s ∧ derived_at s 1 = Some d ∧ (recompute Allocating 1 s).1 ≠ OutOfFuel.
Proof.
  intros s.
  assert (Hwf : wf s) by (apply wfb_wf; vm_compute; reflexivity).
  destruct (derived_at s 1) as [d|] eqn:Hd; [ | vm_compute in Hd; discriminate ].
  exists d. split; [ exact Hwf | ]. split; [ reflexivity | ].
  exact (proj1 (recompute_spec Allocating 1 d s Hwf Hd)).
Defined.

(** ** Reading the state of a cell *)

(** X4.  Reading [state] of a cell of a well-formed heap ends, leaves the
    registry and the scheduler as they were, changes no source cell and no
    cell created after the one read, and calls neither [recompute()] nor
    [onUpdate]; the only functions called are compute functions of the cell
    and of older cells.  Reading a source cell returns its value and changes
    nothing. *)
Theorem state_read_only_pulls v i s :
  wf s →
  wp (state_of v i) s (fun r s' =>
    let evs := events_since s s' in
    r ≠ OutOfFuel ∧ wf s' ∧
    sched_of s' = sched_of s ∧
    (∀ j, i < j → cells s' !! j = cells s !! j) ∧
    (∀ j st, cells s !! j = Some (CStore st) → cells s' !! j = Some (CStore st)) ∧
    recompute_calls evs = [] ∧ onUpdate_calls evs = [] ∧
    (∀ d, i < d → computes d evs = []) ∧
    (∀ st, cells s !! i = Some (CStore st) → r = Ok (Store._signal st) ∧ s' = s)).
Proof.
  intros Hwf. unfold state_of. apply wp_bind, wp_get.
  assert (Hsame : ∀ r : outcome Z, r ≠ OutOfFuel →
            (∀ st, cells s !! i = Some (CStore st) → r = Ok (Store._signal st)) →
            let evs := events_since s s in
            r ≠ OutOfFuel ∧ wf s ∧ sched_of s = sched_of s ∧
            (∀ j, i < j → cells s !! j = cells s !! j) ∧
            (∀ j st, cells s !! j = Some (CStore st) → cells s !! j = Some (CStore st)) ∧
            recompute_calls evs = [] ∧ onUpdate_calls evs = [] ∧
            (∀ d, i < d → computes d evs = []) ∧
            (∀ st, cells s !! i = Some (CStore st) → r = Ok (Store._signal st) ∧ s = s)).
  { intros r Hr Hst. cbv zeta.
    rewrite (events_since_app s s []) by (by rewrite app_nil_r).
    repeat split; try done. by apply Hst. }
  destruct (cells s !! i) as [[st|d|]|] eqn:Hc.
  - unfold get_state. apply wp_bind, wp_get. rewrite Hc. apply wp_ret.
    apply Hsame; [ done | by intros ? [= ->] ].
  - eapply wp_mono.
    { apply (get_state_below v (depth s) i (S i)); [ apply pull_ok_all | done | lia ]. }
    intros r s' [Hb Hoof]. cbv zeta.
    destruct (below_events _ _ _ Hb) as (evs & He & Ht & Hcs). rewrite He.
    assert (Hp : Forall (pulled_event s (S i)) evs).
    { destruct Hb as [_ _ _ _ (evs' & Ht' & Hp)]. rewrite Ht in Ht'.
      by apply app_inv_head in Ht' as <-. }
    destruct (pulled_no_calls _ _ _ Hp) as [Hr Hu].
    split. { apply Hoof. apply lookup_lt_Some in Hc. unfold depth. lia. }
    split; [ by eapply below_wf | ].
    split; [ apply Hb | ]. split; [ intros j Hj; apply Hb; lia | ].
    split; [ apply Hb | ]. split; [ done | ]. split; [ done | ].
    split; [ intros d' Hd; apply Hcs; lia | ].
    intros st [=].
  - unfold get_state. apply wp_bind, wp_get. rewrite Hc. apply wp_throw.
    apply Hsame; [ done | intros ? [=] ].
  - unfold get_state. apply wp_bind, wp_get. rewrite Hc. apply wp_throw.
    apply Hsame; [ done | intros ? [=] ].
Qed.

(** A read of a stale cell. *)
Lemma state_read_only_pulls_witness :
  let s := exec Allocating (single 1 fn_first ++ [SetState 0 (UValue 2)]) in
  wf s ∧ (state_of Allocating 1 s).1 ≠ OutOfFuel.
Proof.
  intros s.
  assert (Hwf : wf s) by (apply wfb_wf; vm_compute; reflexivity).
  split; [ exact Hwf | ].
  exact (proj1 (state_read_only_pulls Allocating 1 s Hwf)).
Defined.

(** ** Batches *)

(** X5.  With no batch open and no update queued, a batch of any number of
    writes to one source cell is the write of the last updater alone: the
    two calls end in the same outcome and the same state, so the earlier
    updaters are never applied and no intermediate value is ever seen. *)
Theorem batch_keeps_only_the_last_write v st us u s :
  __batchDepth s = 0 → __pendingSignalUpdates s = [] →
  run_op v (Batch (map (SetState st) (us ++ [u]))) s = run_op v (SetState st u) s.
Proof.
  intros Hb Hp. rewrite run_op_Batch. unfold batch.
  unfold bind at 1. unfold modify at 1.
  unfold try_finally. rewrite queue_of_writes by (simpl; lia).
  cbn [__pendingSignalUpdates set_batchDepth]. rewrite Hp.
  rewrite last_write_is_queued by (by left).
  destruct s. simpl in Hb, Hp. subst.
  unfold bind at 1. unfold modify at 1.
  unfold bind at 1. unfold get at 1.
  cbn [__batchDepth set_batchDepth set_pendingSignalUpdates Init.Nat.pred Nat.eqb].
  cbv iota.
  unfold bind at 1. unfold modify at 1.
  cbn [__pendingSignalUpdates set_pendingSignalUpdates set_batchDepth].
  rewrite for_of_cons, for_of_nil, bind_ret_tt.
  cbn [run_op]. unfold setState, queueSignalUpdate.
  unfold bind at 1. unfold get at 1. cbn [__batchDepth Nat.ltb Nat.leb].
  cbv iota beta.
  unfold set_pendingSignalUpdates, set_batchDepth. cbn.
  by destruct (setState_update v st u _) as [[[]| |] s2].
Qed.

(** A batch of three writes to a source with two mounted dependents. *)
Lemma batch_keeps_only_the_last_write_witness :
  let s := exec Reusing (mounted_pair 1 fn_first fn_first) in
  __batchDepth s = 0 ∧ __pendingSignalUpdates s = [] ∧
  run_op Reusing (Batch (map (SetState 0) ([UValue 2; UValue 3] ++ [UValue 4]))) s =
  run_op Reusing (SetState 0 (UValue 4)) s.
Proof.
  intros s.
  assert (Hb : __batchDepth s = 0) by (vm_compute; reflexivity).
  assert (Hp : __pendingSignalUpdates s = []) by (vm_compute; reflexivity).
  split; [ exact Hb | ]. split; [ exact Hp | ].
  exact (batch_keeps_only_the_last_write Reusing 0 [UValue 2; UValue 3] (UValue 4) s Hb Hp).
Defined.

(** X6.  Source [A] with two mounted dependents [B] and [C]: a batch of
    three writes to [A] leaves [A] with the value of the last updater
    applied to the value before the batch, and that value as [prevState];
    [recompute()] is called once for [B] and once for [C]; their functions
    are not called when the new value is the old one, and are called once
    otherwise, with the value before the batch as previous dependency value
    and the last written value as current one. *)
Theorem batch_of_writes_recomputes_once v a u1 u2 u3 fB fC :
  let s := exec v (mounted_pair a (total fB) (total fC)) in
  let s' := (run_op v (Batch [SetState 0 u1; SetState 0 u2; SetState 0 u3]) s).2 in
  let evs := events_since s s' in
  let a3 := apply_updater u3 a in
  let b0 := fB (first_run [Some a]) in
  let c0 := fC (first_run [Some a]) in
  store_at s' 0 = Some (Store.mk a3 a) ∧
  recompute_calls evs = [1; 2] ∧
  computes 1 evs = (if (a3 =? a)%Z then [] else [rerun b0 [Some a] [Some a3]]) ∧
  computes 2 evs = (if (a3 =? a)%Z then [] else [rerun c0 [Some a] [Some a3]]) ∧
  cached s' 1 = Some (if (a3 =? a)%Z then b0 else fB (rerun b0 [Some a] [Some a3])) ∧
  cached s' 2 = Some (if (a3 =? a)%Z then c0 else fC (rerun c0 [Some a] [Some a3])) ∧
  s' = (run_op v (SetState 0 u3) s).2.
Proof.
  intros s s' evs a3 b0 c0. subst c0 b0 a3 evs s' s.
  pattern (exec v (mounted_pair a (total fB) (total fC))).
  apply exec_wp. unfold mounted_pair.
  destruct v, u3 as [z|g]; unfold apply_updater.
  all: wp_go.
  all: match goal with |- context [ run_op ?v (Batch ?l) ?s ] =>
         rewrite (batch_of_three_writes v 0 u1 u2 _ s) by (vm_compute; reflexivity)
       end.
  all: wp_next; leaf.
Qed.

(** ** The order of recomputation *)

(** X7.  Source [A], [B] over [A], and [C] over [A] and [B], mounted in
    either order: [A]'s dependents are listed as [B], [C]; a write to [A]
    calls [recompute()] of [B] and then of [C]; when the value changes the
    function of [B] runs before that of [C], and [C] reads the new value of
    [B]. *)
Theorem dependency_is_recomputed_first v (b_first : bool) a a' fB fC :
  let mounts := if b_first then [Mount 1; Mount 2] else [Mount 2; Mount 1] in
  let s := exec v (chain a (total fB) (total fC) mounts) in
  let s' := (run_op v (SetState 0 (UValue a')) s).2 in
  let evs := events_since s s' in
  let b0 := fB (first_run [Some a]) in
  let c0 := fC (first_run [Some a; Some b0]) in
  let b1 := fB (rerun b0 [Some a] [Some a']) in
  __storeToDerived s !! 0 = Some [1; 2] ∧
  recompute_calls evs = [1; 2] ∧
  computes 1 evs = (if (a' =? a)%Z then [] else [rerun b0 [Some a] [Some a']]) ∧
  computes 2 evs =
    (if (a' =? a)%Z then []
     else [rerun c0 [Some a; Some b0] [Some a'; Some b1]]) ∧
  compute_calls evs = (if (a' =? a)%Z then [] else [1; 2]).
Proof.
  intros mounts s s' evs b0 c0 b1. subst b1 c0 b0 evs s' s mounts.
  pattern (exec v (chain a (total fB) (total fC)
    (if b_first then [Mount 1; Mount 2] else [Mount 2; Mount 1]))).
  apply exec_wp. unfold chain. destruct v, b_first.
  all: wp_go; wp_next; leaf.
Qed.

(** ** The diamond *)

(** X8.  The mounted diamond, for any values and total compute functions: a
    write to [A] calls [recompute()] and [onUpdate] once for each of [B],
    [C], [D], in that order; each compute function runs at most once; the
    function of [D] runs exactly when the value of [B] or of [C] has
    changed. *)
Theorem diamond_write_recomputes_once v a a' fB fC fD :
  let s := exec v (diamond a (total fB) (total fC) (total fD)) in
  let s' := (run_op v (SetState 0 (UValue a')) s).2 in
  let evs := events_since s s' in
  recompute_calls evs = [1; 2; 3] ∧ onUpdate_calls evs = [1; 2; 3] ∧
  length (computes 1 evs) ≤ 1 ∧ length (computes 2 evs) ≤ 1 ∧
  length (computes 3 evs) ≤ 1 ∧
  (computes 3 evs = [] ↔ cached s' 1 = cached s 1 ∧ cached s' 2 = cached s 2).
Proof.
  intros s s' evs.
  pose proof (diamond_write_run v a a' fB fC fD) as H. cbv zeta in H.
  fold s in H. fold s' in H. fold evs in H. unfold diamond_rerun in H. cbv zeta in H.
  destruct H as (Hb0 & Hc0 & Hd0 & Hb1 & Hc1 & Hd1 & Hevs).
  rewrite Hb0, Hc0, Hb1, Hc1, Hevs. clear.
  set (b0 := fB _). set (c0 := fC _).
  destruct (a' =? a)%Z.
  - rewrite !Z.eqb_refl. simpl. repeat split; auto.
  - set (b1 := fB _). set (c1 := fC _).
    destruct (Z.eqb_spec b1 b0) as [Hb|Hb], (Z.eqb_spec c1 c0) as [Hc|Hc]; simpl;
      repeat split; auto; try congruence; try discriminate.
    all: intros [? ?]; congruence.
Qed.


(** ** The staleness check with reused arrays *)

(** ** The registry *)

(** X11.  [registerOnGraph] and the function returned by [mount] change
    nothing but the two maps of the registry: no cell, no scheduler variable,
    and no function is called. *)
Theorem registration_touches_only_the_registry this s :
  wp (registerOnGraph this) s (fun _ s' => registry_only s s') ∧
  wp (unmount this) s (fun _ s' => registry_only s s').
Proof.
  pose proof registry_get_derived. pose proof registry_registerOnGraph_rec.
  pose proof registry_unregisterFromGraph_rec.
  assert (Hr : sat registry_only (registerOnGraph this)) by repeat sat_step.
  assert (Hu : sat registry_only (unmount this)) by repeat sat_step.
  split; [ apply Hr | apply Hu ].
Qed.

(** X12.  The function returned by [mount], for a derived cell over one
    source cell with a dependent list [l]: the list loses the first entry of
    the cell when it has one, and its last entry, which belongs to another
    cell, when it has none; nothing else of the map changes, and the call
    returns. *)
Theorem unmount_removes_one_entry this dep d st l s :
  derived_at s this = Some d →
  Derived.deps d = [dep] →
  cells s !! dep = Some (CStore st) →
  __storeToDerived s !! dep = Some l →
  wp (unmount this) s (fun r s' =>
    r = Ok tt ∧
    __storeToDerived s' =
      <[dep := if includes l this then remove_first this l else removelast l]>
        (__storeToDerived s) ∧
    registry_only s s').
Proof.
  intros Hd Hdeps Hdep Hl. unfold unmount, unregisterFromGraph.
  apply wp_bind, wp_get. apply wp_bind, wp_get_derived. rewrite Hd, Hdeps.
  unfold depth. change (2 + length (cells s)) with (S (S (length (cells s)))).
  rewrite unregisterFromGraph_rec_S, for_of_cons, for_of_nil.
  apply wp_bind. apply wp_bind, wp_get. rewrite Hdep.
  unfold unregister_under. apply wp_bind, wp_get. rewrite Hl.
  apply wp_bind, wp_modify. apply wp_bind, wp_get.
  cbn [__derivedToStore set_storeToDerived].
  rewrite splice_indexOf.
  destruct (__derivedToStore s !! this) as [stores|].
  - apply wp_modify. apply wp_ret. split; [ done | ]. split; [ done | by repeat split ].
  - apply wp_ret, wp_ret. split; [ done | ]. split; [ done | by repeat split ].
Qed.
(** The second call of the unmount of [B] empties the list [[C]]. *)
Lemma unmount_removes_one_entry_witness :
  let s := exec Allocating (siblings ++ [Unmount 1]) in
  ∃ d st,
    derived_at s 1 = Some d ∧ Derived.deps d = [0] ∧ cells s !! 0 = Some (CStore st) ∧
    __storeToDerived s !! 0 = Some [2] ∧
    __storeToDerived (unmount 1 s).2 = <[0 := []]> (__storeToDerived s).
Proof.
  intros s.
  destruct (derived_at s 1) as [d|] eqn:Hd; [ | vm_compute in Hd; discriminate ].
  destruct (cells s !! 0) as [[st| |]|] eqn:Hc; try (vm_compute in Hc; discriminate).
  assert (Hdeps : Derived.deps d = [0]).
  { vm_compute in Hd. injection Hd as <-. reflexivity. }
  assert (Hl : __storeToDerived s !! 0 = Some [2]) by (vm_compute; reflexivity).
  exists d, st. split; [ reflexivity | ]. split; [ exact Hdeps | ].
  split; [ reflexivity | ]. split; [ exact Hl | ].
  exact (proj1 (proj2 (unmount_removes_one_entry 1 0 d st [2] s Hd Hdeps Hc Hl))).
Defined.
(** ** The scheduler between calls *)

(** X13.  After any sequence of client calls on a freshly loaded module,
    whether it ran to its end or stopped at a call that threw, no batch is
    open, no flush is running, and the tick-visited set, the batch snapshot,
    the set of pending stores and the queue of deferred updates are
    empty. *)
Theorem scheduler_is_at_rest_between_calls v prog :
  let s := exec v prog in
  __batchDepth s = 0 ∧ __isFlushing s = false ∧
  __depsThatHaveWrittenThisTick s = ∅ ∧ __initialBatchValues s = ∅ ∧
  __pendingUpdates s = [] ∧ __pendingSignalUpdates s = [].
Proof.
  intros s.
  assert (H : keeps_rest initial s).
  { apply (sat_for_of keeps_rest prog (run_op v) (keeps_rest_run_op v) initial). }
  destruct H as [(H1 & H2 & H3 & H4 & H5) E]; [ by repeat split | ].
  simpl in E. repeat split; try done. by apply H5.
Qed.

(** ** Cells that are not mounted *)

(** X14.  A derived cell that was never mounted is not told about a write
    to its source: the write calls nothing and leaves the cached state of
    the cell as it was.  Reading [state] of the cell afterwards brings it up
    to date: when the written value differs from the old one, [fn] is called
    once, with the new dependency value, the old one as previous value, and
    as [prevVal] nothing ([effect.ts]) or the previous result ([part_001]);
    when the value is the same, nothing is called. *)
Theorem unmounted_cell_is_updated_on_read v a a' f :
  let s0 := exec v (single a (total f)) in
  let s1 := (run_op v (SetState 0 (UValue a')) s0).2 in
  let s2 := (run_op v (GetState 1) s1).2 in
  let b0 := f (first_run [Some a]) in
  let p :=
    {| prevVal := match v with Allocating => None | Reusing => Some b0 end;
       prevDepVals := Some [Some a];
       currDepVals := [Some a'] |} in
  cached s0 1 = Some b0 ∧
  events_since s0 s1 = [] ∧ cached s1 1 = Some b0 ∧
  events_since s1 s2 = (if (a' =? a)%Z then [] else [EvCompute 1 p]) ∧
  cached s2 1 = Some (if (a' =? a)%Z then b0 else f p).
Proof.
  intros s0 s1 s2 b0 p. subst p b0 s2 s1 s0.
  cbv beta iota zeta delta [first_run].
  pattern (exec v (single a (total f))). apply exec_wp. unfold single.
  destruct v.
  all: wp_go; wp_next; wp_next; leaf.
Qed.

(** ** Writes outside a batch *)



(** ** Checking for staleness *)


(** ** First runs *)

(** X17.  After any sequence of client calls on a freshly loaded module,
    nested batches and constructors that throw included, the calls of the
    compute function of every cell are one first run, which receives
    [prevDepVals = undefined] and [prevVal = undefined], followed by runs
    that all receive previous dependency values; and every derived cell
    that exists has had its first run.  So the first run of a cell is the
    one of its constructor, and no later read, write, mount or recompute
    looks like a first run. *)
Theorem first_run_is_the_construction v prog i :
  let tr := trace (exec v prog) in
  first_then_later (computes i tr) ∧
  ∀ d, derived_at (exec v prog) i = Some d →
    Derived._isFirstRun d = false ∧ computes i tr ≠ [].
Proof.
  assert (Hs : settled (exec v prog)).
  { unfold exec, run.
    apply (sat_for_of keeps_settled prog (run_op v) (keeps_settled_run_op v) initial).
    apply settled_initial. }
  destruct Hs as (_ & Hd & _ & Hf). split; [ apply Hf | apply Hd ].
Qed.

(** ** Termination *)

(** X18.  Every sequence of client calls on a freshly loaded module ends:
    each call returns or throws.  The recursion of [__flush_internals] stops
    because every level marks a cell that was not visited, the loop of
    [__flush] runs once, and the recursions over dependencies go to older
    cells; so the recursion budget of the model is never used up, and
    [OutOfFuel] is the outcome of no program. *)
Theorem client_calls_end v prog : (run v prog initial).1 ≠ OutOfFuel.
Proof.
  assert (H : ends settled keeps_settled (run v prog)).
  { unfold run. apply ends_for_of; [ apply _ | apply _ | ]. intros o _. apply ends_run_op. }
  apply (H initial settled_initial).
Qed.

(** ** The registry over whole programs *)

(** X19.  Only [mount()] and the function it returns change the registry: a
    constructor, a write with the flush it starts, a read, [recompute()],
    [checkIfRecalculationNeededDeeply()], and a batch of such calls, nested
    or not, leave [__storeToDerived] and [__derivedToStore] as they were,
    from any state and whatever the outcome of the call. *)
Theorem only_mount_changes_the_registry v o s :
  no_mount o = true →
  registry_of (run_op v o s).2 = registry_of s.
Proof.
  intros Hn.
  enough (H : sat registry_same (run_op v o)) by apply (H s).
  clear s. revert o Hn. fix IH 1. intros o Hn.
  destruct o as [a|deps fn|st u|i|d|d|d|d|fn]; simpl in *; try discriminate.
  - apply sat_bind; [ apply _ | | intros; apply sat_ret; apply _ ].
    apply cells_new_Store; [ apply _ | apply registry_same_cells ].
  - apply sat_bind; [ apply _ | | intros; apply sat_ret; apply _ ].
    apply cells_new_Derived;
      [ apply _ | apply registry_same_cells | apply registry_same_trace ].
  - apply registry_same_setState.
  - apply sat_bind; [ apply _ | | intros; apply sat_ret; apply _ ].
    apply cells_state_of; [ apply _ | apply registry_same_cells | apply registry_same_trace ].
  - apply cells_recompute; [ apply _ | apply registry_same_cells | apply registry_same_trace ].
  - apply cells_check; [ apply _ | apply registry_same_cells | apply registry_same_trace ].
  - apply registry_same_batch.
    induction fn as [|o fn IHfn].
    + apply sat_ret. apply _.
    + simpl in Hn. apply andb_prop in Hn as [Ho Hfn]. rewrite for_of_cons.
      apply sat_bind; [ apply _ | by apply IH | intros _; by apply IHfn ].
Qed.

(** A batch with a write, a constructor and a read, on a registry with two
    mounted cells. *)
Lemma only_mount_changes_the_registry_witness :
  let s := exec Reusing (mounted_pair 1 fn_first fn_first) in
  let o := Batch [SetState 0 (UValue 2); NewDerived [0] fn_first; GetState 1] in
  no_mount o = true ∧ registry_of (run_op Reusing o s).2 = registry_of s.
Proof.
  intros s o.
  assert (Hn : no_mount o = true) by reflexivity.
  split; [ exact Hn | ].
  exact (only_mount_changes_the_registry Reusing o s Hn).
Defined.

(** X20.  [mount()] of a derived cell of a well-formed heap ends, and leaves
    the cell registered under every source cell it depends on, directly or
    through any chain of derived cells: the cell is in the dependent list of
    that store, and the store is in the set of stores of the cell.  This
    holds whether the staleness check that follows the registration returns
    or throws. *)
Theorem mount_registers_under_every_source v this d s :
  wf s → derived_at s this = Some d →
  wp (mount v this) s (fun r s' =>
    r ≠ OutOfFuel ∧
    ∀ st, reaches s (Derived.deps d) st → listed s' this st ∧ knows s' this st).
Proof.
  intros Hwf Hd. unfold mount. apply wp_bind.
  assert (Hreg : wp (registerOnGraph this) s (fun r s1 =>
    r = Ok tt ∧ registry_grows s s1 ∧
    ∀ st, reaches s (Derived.deps d) st → listed s1 this st ∧ knows s1 this st)).
  { unfold registerOnGraph. apply wp_bind, wp_get. apply wp_bind, wp_get_derived.
    rewrite Hd. apply (registerOnGraph_rec_registers _ this); [ done | | ].
    - apply derived_at_lt in Hd. unfold depth. lia.
    - apply derived_at_Some in Hd. apply (Hwf _ _ Hd). }
  eapply wp_mono; [ exact Hreg | ].
  intros r s1 (-> & (Hc & _ & _) & Hl). simpl.
  assert (Hwf1 : wf s1).
  { intros i c Hi. rewrite Hc in Hi. by eapply Hwf. }
  eapply wp_mono;
    [ apply wp_conj;
        [ apply (ends_check v this s1 Hwf1)
        | apply (cells_check registry_same registry_same_cells registry_same_trace v this s1) ]
    | ].
  intros r s2 [[_ Hr] Hsame]. simpl. split; [ done | ].
  intros st Hst. destruct (Hl st Hst) as [(l & H1 & H2) (k & H3 & H4)].
  injection Hsame as E1 E2. split; [ exists l | exists k ]; (split; [ congruence | done ]).
Qed.

(** The end of a line of three cells: the store is reached through the
    middle cell. *)
Lemma mount_registers_under_every_source_witness :
  let s := exec Allocating (line 1 fn_first fn_first) in
  ∃ d, wf s ∧ derived_at s 2 = Some d ∧ (mount Allocating 2 s).1 ≠ OutOfFuel.
Proof.
  intros s.
  assert (Hwf : wf s) by (apply wfb_wf; vm_compute; reflexivity).
  destruct (derived_at s 2) as [d|] eqn:Hd; [ | vm_compute in Hd; discriminate ].
  exists d. split; [ exact Hwf | ]. split; [ reflexivity | ].
  exact (proj1 (mount_registers_under_every_source Allocating 2 d s Hwf Hd)).
Defined.

(** X21.  After any sequence of client calls on a freshly loaded module, no
    dependent list of [__storeToDerived] names a cell twice: registration
    appends a cell only when the list does not include it, the sort permutes
    the list, and the splice of the unmount only takes elements out. *)
Theorem no_cell_is_listed_twice v prog st l :
  __storeToDerived (exec v prog) !! st = Some l → NoDup l.
Proof.
  assert (H : registry_nodup (exec v prog)).
  { unfold exec, run.
    apply (sat_for_of keeps_nodup prog (run_op v) (nodup_run_op v) initial).
    intros st' l' Hl. done. }
  apply H.
Qed.

(** The list of a store with two mounted dependents. *)
Lemma no_cell_is_listed_twice_witness :
  __storeToDerived (exec Reusing (mounted_pair 1 fn_first fn_first)) !! 0 = Some [1; 2] ∧
  NoDup [1; 2].
Proof.
  assert (H : __storeToDerived (exec Reusing (mounted_pair 1 fn_first fn_first)) !! 0
              = Some [1; 2]) by (vm_compute; reflexivity).
  split; [ exact H | ].
  exact (no_cell_is_listed_twice Reusing _ 0 [1; 2] H).
Defined.

(** ** Writes and the cells they reach *)


